(** * Azul query builder and relations: a shallow embedding

    The development follows the JavaScript sources:

    - [lib/relations/base.js]      [BaseRelation#init], [template] and
      [methods]
    - the belongs-to configuration mixin ([inverse], [primaryKey],
      [foreignKey], [foreignKeyProperty])
    - [lib/adapters/mysql.js]      [MySQLAdapter.Grammar] and
      [MySQLAdapter.Translator]
    - [lib/query/base.js]          [BaseQuery] and [RawQuery]
    - [lib/query/model_join.js]    the [ModelQuery] join mixin

    JavaScript objects that are mutated or compared by identity (queries,
    the per-query [_joinedRelations] object, promises) live in an explicit
    store; everything else is a value. *)

From Stdlib Require Import Ascii String.
From stdpp Require Import gmap strings list fin_maps pretty sorting.

Open Scope string_scope.
Open Scope list_scope.
Open Scope nat_scope.

(** ** JavaScript strings *)

Module JsString.

(** [occurs c s]: the character [c] appears somewhere in [s]. *)
Fixpoint occurs (c : ascii) (s : string) : bool :=
  match s with
  | "" => false
  | String x s' => if Ascii.eqb x c then true else occurs c s'
  end.

(** [strip_prefix p s]: when [s] starts with [p], what follows [p]. *)
Fixpoint strip_prefix (p s : string) : option string :=
  match p, s with
  | "", _ => Some s
  | String _ _, "" => None
  | String a p', String b s' =>
      if Ascii.eqb a b then strip_prefix p' s' else None
  end.

(** The split of [s] around the leftmost occurrence of [pat], as
    [String.prototype.indexOf] finds it. *)
Fixpoint split_first (pat s : string) : option (string * string) :=
  match strip_prefix pat s with
  | Some post => Some ("", post)
  | None =>
      match s with
      | "" => None
      | String c s' =>
          match split_first pat s' with
          | Some (pre, post) => Some (String c pre, post)
          | None => None
          end
      end
  end.

(** [GetSubstitution] of ECMAScript for a string pattern (no capture
    groups): [$$] is a dollar sign, [$&] the matched text, [$`] the text
    before the match, [$'] the text after it; every other character,
    also [$] followed by a digit, stands for itself. *)
Fixpoint getSubstitution (matched pre post rep : string) : string :=
  match rep with
  | "" => ""
  | String "$" (String "$" r) =>
      String "$" (getSubstitution matched pre post r)
  | String "$" (String "&" r) =>
      matched +:+ getSubstitution matched pre post r
  | String "$" (String "`" r) =>
      pre +:+ getSubstitution matched pre post r
  | String "$" (String "'" r) =>
      post +:+ getSubstitution matched pre post r
  | String c r => String c (getSubstitution matched pre post r)
  end.

(** [s.replace(pat, rep)] with a string pattern: only the leftmost
    occurrence is replaced. *)
Definition replace (pat rep s : string) : string :=
  match split_first pat s with
  | None => s
  | Some (pre, post) => pre +:+ getSubstitution pat pre post rep +:+ post
  end.

End JsString.

(** ** JavaScript values used as conditions

    Option values and cache slots hold a string or [undefined]. In a
    condition, [undefined] and the empty string count as false. *)

Definition truthy (v : option string) : bool :=
  match v with
  | Some s => negb (String.eqb s "")
  | None => false
  end.

(** [a || b] where [b] is a string. *)
Definition js_or (a : option string) (b : string) : option string :=
  if truthy a then a else Some b.

(** ** Relations *)

(** What the relation and query code reads of a model class. *)
Record ModelClass := {
  __name__ : string;
  tableName : string;
}.

(** The options object given to a relation. *)
Record RelationOptions := {
  opt_inverse : option string;
  opt_primaryKey : option string;
  opt_foreignKey : option string;
}.

(** [options || {}] *)
Definition no_options : RelationOptions :=
  {| opt_inverse := None; opt_primaryKey := None; opt_foreignKey := None |}.

(** A relation object: the fields [BaseRelation#init] assigns and the
    slots in which the belongs-to getters keep what they computed. *)
Record Relation := {
  _name : string;
  _modelClass : ModelClass;
  _relatedModel : ModelClass;
  _options : RelationOptions;
  _inverse : option string;
  _primaryKey : option string;
  _foreignKey : option string;
  _foreignKeyProperty : option string;
}.

Definition set_inverse (v : option string) (r : Relation) : Relation :=
  {| _name := _name r; _modelClass := _modelClass r;
     _relatedModel := _relatedModel r; _options := _options r;
     _inverse := v; _primaryKey := _primaryKey r;
     _foreignKey := _foreignKey r;
     _foreignKeyProperty := _foreignKeyProperty r |}.

Definition set_primaryKey (v : option string) (r : Relation) : Relation :=
  {| _name := _name r; _modelClass := _modelClass r;
     _relatedModel := _relatedModel r; _options := _options r;
     _inverse := _inverse r; _primaryKey := v;
     _foreignKey := _foreignKey r;
     _foreignKeyProperty := _foreignKeyProperty r |}.

Definition set_foreignKey (v : option string) (r : Relation) : Relation :=
  {| _name := _name r; _modelClass := _modelClass r;
     _relatedModel := _relatedModel r; _options := _options r;
     _inverse := _inverse r; _primaryKey := _primaryKey r;
     _foreignKey := v;
     _foreignKeyProperty := _foreignKeyProperty r |}.

Definition set_foreignKeyProperty (v : option string) (r : Relation)
  : Relation :=
  {| _name := _name r; _modelClass := _modelClass r;
     _relatedModel := _relatedModel r; _options := _options r;
     _inverse := _inverse r; _primaryKey := _primaryKey r;
     _foreignKey := _foreignKey r;
     _foreignKeyProperty := v |}.

(** What happens to a relation object between two reads of a property:
    its name, classes and options may be replaced. The slots of the
    getters are written by the getters only. *)
Definition reconfigure (name : string) (modelClass relatedModel : ModelClass)
    (options : RelationOptions) (r : Relation) : Relation :=
  {| _name := name; _modelClass := modelClass;
     _relatedModel := relatedModel; _options := options;
     _inverse := _inverse r; _primaryKey := _primaryKey r;
     _foreignKey := _foreignKey r;
     _foreignKeyProperty := _foreignKeyProperty r |}.

(** A change made to a relation object from outside. *)
Record Change := {
  new_name : string;
  new_modelClass : ModelClass;
  new_relatedModel : ModelClass;
  new_options : RelationOptions;
}.

Definition apply_change (c : Change) (r : Relation) : Relation :=
  reconfigure (new_name c) (new_modelClass c) (new_relatedModel c)
    (new_options c) r.

(** The values that a getter returns when the property is read once
    after each of the changes [cs], made one after the other. *)
Fixpoint read_after_each (getter : Relation → option string * Relation)
    (cs : list Change) (r : Relation) : list (option string) :=
  match cs with
  | [] => []
  | c :: cs' =>
      let '(v, r') := getter (apply_change c r) in
      v :: read_after_each getter cs' r'
  end.

(** The assignments at the end of [BaseRelation#init], once the model
    classes have been resolved. No getter slot is assigned. *)
Definition Relation_init (name : string) (modelClass relatedModel : ModelClass)
    (options : option RelationOptions) : Relation :=
  {| _name := name; _modelClass := modelClass;
     _relatedModel := relatedModel;
     _options := default no_options options;
     _inverse := None; _primaryKey := None; _foreignKey := None;
     _foreignKeyProperty := None |}.

(** [modelClass: property()] *)
Definition modelClass (r : Relation) : ModelClass := _modelClass r.

(** [relatedModelClass: property({ property: '_relatedModel' })] *)
Definition relatedModelClass (r : Relation) : ModelClass := _relatedModel r.

(** The four placeholders of [BaseRelation#template]. *)
Inductive Placeholder := PhSingular | PhSingularCap | PhPlural | PhPluralCap.

Definition placeholder_text (ph : Placeholder) : string :=
  match ph with
  | PhSingular => "<singular>"
  | PhSingularCap => "<Singular>"
  | PhPlural => "<plural>"
  | PhPluralCap => "<Plural>"
  end.

Section Inflection.

(** [inflection.singularize], [inflection.pluralize], [_.capitalize],
    [_.camelCase] and [_.snakeCase] come from libraries; the relation
    code is read for any such functions. *)
Variables singularize pluralize capitalize camelCase snakeCase
  : string → string.

(** [BaseRelation#template] *)
Definition template (r : Relation) (str : string) : string :=
  let name := _name r in
  let singular := singularize name in
  let plural := pluralize singular in
  let singularCapitalized := capitalize singular in
  let pluralCapitalized := capitalize plural in
  JsString.replace "<Plural>" pluralCapitalized
    (JsString.replace "<plural>" plural
       (JsString.replace "<Singular>" singularCapitalized
          (JsString.replace "<singular>" singular str))).

(** What [template] puts in the place of a placeholder. *)
Definition placeholder_value (r : Relation) (ph : Placeholder) : string :=
  match ph with
  | PhSingular => singularize (_name r)
  | PhSingularCap => capitalize (singularize (_name r))
  | PhPlural => pluralize (singularize (_name r))
  | PhPluralCap => capitalize (pluralize (singularize (_name r)))
  end.

(** The belongs-to getters. Each returns the value of the property and
    the relation object as the access leaves it. *)

(** [BelongsTo#inverse] *)
Definition inverse (r : Relation) : option string * Relation :=
  let r' :=
    if negb (truthy (_inverse r)) then
      let inverse := camelCase (__name__ (_modelClass r)) in
      set_inverse (js_or (opt_inverse (_options r)) (pluralize inverse)) r
    else r in
  (_inverse r', r').

(** [BelongsTo#primaryKey] *)
Definition primaryKey (r : Relation) : option string * Relation :=
  let r' :=
    if negb (truthy (_primaryKey r)) then
      set_primaryKey (js_or (opt_primaryKey (_options r)) "id") r
    else r in
  (_primaryKey r', r').

(** [BelongsTo#foreignKey] *)
Definition foreignKey (r : Relation) : option string * Relation :=
  let r' :=
    if negb (truthy (_foreignKey r)) then
      set_foreignKey
        (js_or (opt_foreignKey (_options r)) (snakeCase (_name r +:+ "_id")))
        r
    else r in
  (_foreignKey r', r').

(** [BelongsTo#foreignKeyProperty], which reads [foreignKey]. *)
Definition foreignKeyProperty (r : Relation) : option string * Relation :=
  let r' :=
    if negb (truthy (_foreignKeyProperty r)) then
      let '(key, r1) := foreignKey r in
      set_foreignKeyProperty (Some (camelCase (default "" key))) r1
    else r in
  (_foreignKeyProperty r', r').

End Inflection.

(** ** The MySQL translator *)

(** The predicates a translator has a [predicateFor...] method for. The
    MySQL translator names eleven of them; [OtherPredicate] stands for
    every further method of the base translator. *)
Inductive PredicateName :=
  | Exact | IExact | Contains | IContains | Regex | IRegex
  | StartsWith | IStartsWith | EndsWith | IEndsWith | Weekday
  | OtherPredicate (name : string).

(** A step applied to the value of a predicate before it is bound: a
    transform the base translator knows by name, or a function. *)
Inductive ValueTransform :=
  | NamedTransform (name : string)
  | ParseWeekdayToInt
  | NumberTransform (f : Z → Z).

(** Modelled from the spec: the predicate entry that the base translator
    hands to a [predicateFor...] method is absent from src/. It maps a
    predicate name to an SQL fragment and value-transform functions;
    [using_] (the method [using]) sets the fragment and [value] the transforms, and both return
    the entry for chaining. *)
Record Predicate := {
  fragment : string;
  valueTransforms : list ValueTransform;
}.

Definition using_ (format : string) (p : Predicate) : Predicate :=
  {| fragment := format; valueTransforms := valueTransforms p |}.

Definition value (transforms : list ValueTransform) (p : Predicate)
  : Predicate :=
  {| fragment := fragment p; valueTransforms := transforms |}.

(** [var shift = function(n) { return (n + 6) % 7; };] on the weekday
    numbers 0 to 6. *)
Definition shift (n : Z) : Z := ((n + 6) `mod` 7)%Z.

(** The predicates for which the MySQL translator has a method of its
    own. *)
Definition mysql_overrides (name : PredicateName) : bool :=
  match name with
  | Exact | OtherPredicate _ => false
  | _ => true
  end.

Section Translator.

(** The [predicateFor...] methods of [Adapter.Translator], which the
    MySQL methods reach through [this._super(p)]. *)
Variable Translator_predicateFor : PredicateName → Predicate → Predicate.

(** [MySQLAdapter.Translator]: the methods it defines, and for every
    other name the inherited one. *)
Definition MySQLTranslator_predicateFor (name : PredicateName)
    (p : Predicate) : Predicate :=
  let _super := Translator_predicateFor name in
  match name with
  | IExact => using_ "%s LIKE %s" (_super p)
  | Contains =>
      value [NamedTransform "like"; NamedTransform "contains"]
        (using_ "%s LIKE BINARY %s" (_super p))
  | IContains =>
      value [NamedTransform "like"; NamedTransform "contains"]
        (using_ "%s LIKE %s" (_super p))
  | Regex =>
      value [NamedTransform "regex"] (using_ "%s REGEXP BINARY %s" (_super p))
  | IRegex =>
      value [NamedTransform "regex"] (using_ "%s REGEXP %s" (_super p))
  | StartsWith =>
      value [NamedTransform "like"; NamedTransform "startsWith"]
        (using_ "%s LIKE BINARY %s" (_super p))
  | IStartsWith =>
      value [NamedTransform "like"; NamedTransform "startsWith"]
        (using_ "%s LIKE %s" (_super p))
  | EndsWith =>
      value [NamedTransform "like"; NamedTransform "endsWith"]
        (using_ "%s LIKE BINARY %s" (_super p))
  | IEndsWith =>
      value [NamedTransform "like"; NamedTransform "endsWith"]
        (using_ "%s LIKE %s" (_super p))
  | Weekday =>
      value [ParseWeekdayToInt; NumberTransform shift]
        (using_ "WEEKDAY(%s) = %s" (_super p))
  | Exact | OtherPredicate _ => _super p
  end.

End Translator.

(** ** Values that cross the query code *)

(** A rendered statement. Bound values are kept as text. *)
Record Statement := {
  sql : string;
  args : list string;
}.

Inductive Error :=
  | JsError (message : string)
  | TypeError (message : string).

(** A join condition: what [relation.joinCondition(baseTable, joinTable)]
    returns, kept symbolic since the method belongs to the relation
    subclass, or a condition written by the caller. *)
Inductive Condition :=
  | JoinCondition (relation : Relation) (baseTable joinTable : string)
  | RawCondition (text : string).

(** The arguments [join] is called with: a table name or join type, a
    one-entry table/alias object ([_.object([[joinTable, alias]])]), a
    condition. *)
Inductive JsValue :=
  | VString (s : string)
  | VAlias (table alias : string)
  | VCondition (c : Condition).

(** The value kept per joined association, [{ as: ..., relation: ... }].
    These objects are never written after they are built. *)
Record JoinDetails := {
  as_ : string;
  relation : Relation;
}.

(** What the adapter answers. *)
Record AdapterResult := {
  rows : list (list string);
  fields : list string;
}.

Inductive Settlement :=
  | Fulfilled (result : AdapterResult)
  | Rejected (e : Error).

(** ** Query objects *)

Inductive QueryClass := BaseQuery | ModelQuery.

(** The properties of a query object. [_promise] and [_joinedRelations]
    hold references into the store; [_resolve] and [_reject] are the two
    functions of the promise in [_promise] and are not kept apart from
    it. [_model] and [_joins] stand for the structural state that the
    query mixins outside src/ keep. *)
Record Query := {
  __identity__ : QueryClass;
  _adapter : option nat;
  _executed : bool;
  _promise : option nat;
  _model : option ModelClass;
  _joins : list (list JsValue);
  _joinedRelations : option nat;
}.

(** [type.new()]: an instance on which no [init] has run. *)
Definition blank (type : QueryClass) : Query :=
  {| __identity__ := type; _adapter := None; _executed := false;
     _promise := None; _model := None; _joins := [];
     _joinedRelations := None |}.

Definition set_adapter (v : option nat) (r : Query) : Query :=
  {| __identity__ := __identity__ r; _adapter := v;
     _executed := _executed r; _promise := _promise r;
     _model := _model r; _joins := _joins r;
     _joinedRelations := _joinedRelations r |}.

Definition set_executed (v : bool) (r : Query) : Query :=
  {| __identity__ := __identity__ r; _adapter := _adapter r;
     _executed := v; _promise := _promise r;
     _model := _model r; _joins := _joins r;
     _joinedRelations := _joinedRelations r |}.

Definition set_promise (v : option nat) (r : Query) : Query :=
  {| __identity__ := __identity__ r; _adapter := _adapter r;
     _executed := _executed r; _promise := v;
     _model := _model r; _joins := _joins r;
     _joinedRelations := _joinedRelations r |}.

Definition set_model (v : option ModelClass) (r : Query) : Query :=
  {| __identity__ := __identity__ r; _adapter := _adapter r;
     _executed := _executed r; _promise := _promise r;
     _model := v; _joins := _joins r;
     _joinedRelations := _joinedRelations r |}.

Definition set_joins (v : list (list JsValue)) (r : Query) : Query :=
  {| __identity__ := __identity__ r; _adapter := _adapter r;
     _executed := _executed r; _promise := _promise r;
     _model := _model r; _joins := v;
     _joinedRelations := _joinedRelations r |}.

Definition set_joinedRelations (v : option nat) (r : Query) : Query :=
  {| __identity__ := __identity__ r; _adapter := _adapter r;
     _executed := _executed r; _promise := _promise r;
     _model := _model r; _joins := _joins r;
     _joinedRelations := v |}.

(** ** Deferred work and notifications *)

(** The promise chain that [execute] builds runs after [execute] has
    returned. [Scheduled]: built, the adapter not yet called.
    [InFlight]: the adapter has been called and has not answered.
    [resolve] is the promise whose [_resolve]/[_reject] end the chain. *)
Inductive Task :=
  | Scheduled (q : nat) (statement : Statement) (resolve : option nat)
  | InFlight (q : nat) (resolve : option nat)
  | Finished.

Inductive Event :=
  | EvDup (dup : nat)
  | EvSpawn (query : nat)
  | EvExecute
  | EvRawResult (result : AdapterResult)
  | EvResult (result : AdapterResult)
  | EvError (e : Error).

(** ** The store

    Objects are named by their position in the store; a new object is
    put at the end. A promise is [None] while it is pending. *)
Record Heap := {
  queries : list Query;
  objects : list (gmap string JoinDetails);
  promises : list (option Settlement);
  tasks : list Task;
  adapterCalls : list (nat * Statement);
  emitted : list (nat * Event);
}.

Definition empty_heap : Heap :=
  {| queries := []; objects := []; promises := []; tasks := [];
     adapterCalls := []; emitted := [] |}.

Definition set_queries (v : list Query) (h : Heap) : Heap :=
  {| queries := v; objects := objects h; promises := promises h;
     tasks := tasks h; adapterCalls := adapterCalls h;
     emitted := emitted h |}.

Definition set_objects (v : list (gmap string JoinDetails)) (h : Heap)
  : Heap :=
  {| queries := queries h; objects := v; promises := promises h;
     tasks := tasks h; adapterCalls := adapterCalls h;
     emitted := emitted h |}.

Definition set_promises (v : list (option Settlement)) (h : Heap) : Heap :=
  {| queries := queries h; objects := objects h; promises := v;
     tasks := tasks h; adapterCalls := adapterCalls h;
     emitted := emitted h |}.

Definition set_tasks (v : list Task) (h : Heap) : Heap :=
  {| queries := queries h; objects := objects h; promises := promises h;
     tasks := v; adapterCalls := adapterCalls h;
     emitted := emitted h |}.

Definition set_adapterCalls (v : list (nat * Statement)) (h : Heap) : Heap :=
  {| queries := queries h; objects := objects h; promises := promises h;
     tasks := tasks h; adapterCalls := v;
     emitted := emitted h |}.

Definition set_emitted (v : list (nat * Event)) (h : Heap) : Heap :=
  {| queries := queries h; objects := objects h; promises := promises h;
     tasks := tasks h; adapterCalls := adapterCalls h;
     emitted := v |}.

(** ** Computations on the store

    A method call returns a value, or throws; a thrown error leaves the
    store as it was at the throw. [Diverge] is a loop that was stopped
    for want of rounds. *)
Inductive Outcome (A : Type) :=
  | Ok (a : A) (h : Heap)
  | Throw (e : Error) (h : Heap)
  | Diverge.

Arguments Ok {A} a h.
Arguments Throw {A} e h.
Arguments Diverge {A}.

Definition M (A : Type) : Type := Heap → Outcome A.

#[global] Instance M_ret : MRet M := λ A a h, Ok a h.

#[global] Instance M_bind : MBind M := λ A B f m h,
  match m h with
  | Ok a h' => f a h'
  | Throw e h' => Throw e h'
  | Diverge => Diverge
  end.

Definition throw {A : Type} (e : Error) : M A := λ h, Throw e h.

Definition diverge {A : Type} : M A := λ _, Diverge.

(** Where a computation leaves the store, however it ends. *)
Definition final_heap {A : Type} (o : Outcome A) : option Heap :=
  match o with
  | Ok _ h | Throw _ h => Some h
  | Diverge => None
  end.

Definition get_query (q : nat) : M Query := λ h,
  match queries h !! q with
  | Some r => Ok r h
  | None => Throw (TypeError "not a query") h
  end.

(** An assignment to properties of the query object [q]. *)
Definition set_query (q : nat) (f : Query → Query) : M unit := λ h,
  match queries h !! q with
  | Some r => Ok () (set_queries (<[q := f r]> (queries h)) h)
  | None => Throw (TypeError "not a query") h
  end.

Definition new_query (type : QueryClass) : M nat := λ h,
  Ok (length (queries h)) (set_queries (queries h ++ [blank type]) h).

(** [new BluebirdPromise(...)]: a pending promise. *)
Definition new_promise : M nat := λ h,
  Ok (length (promises h)) (set_promises (promises h ++ [None]) h).

Definition new_object (m : gmap string JoinDetails) : M nat := λ h,
  Ok (length (objects h)) (set_objects (objects h ++ [m]) h).

Definition get_object (o : nat) : M (gmap string JoinDetails) := λ h,
  match objects h !! o with
  | Some m => Ok m h
  | None => Throw (TypeError "not an object") h
  end.

(** [object[key] = v] *)
Definition object_set (o : nat) (key : string) (v : JoinDetails) : M unit :=
  λ h,
  match objects h !! o with
  | Some m => Ok () (set_objects (<[o := <[key := v]> m]> (objects h)) h)
  | None => Throw (TypeError "not an object") h
  end.

(** [_.clone(value)]: [undefined] stays [undefined]; an object is copied
    into a new object, entry by entry. *)
Definition _clone (value : option nat) : M (option nat) :=
  match value with
  | None => mret None
  | Some o => m ← get_object o; o' ← new_object m; mret (Some o')
  end.

(** [this.emit(name, ...)] with no listener that does anything but
    record the notification. *)
Definition emit (q : nat) (ev : Event) : M unit := λ h,
  Ok () (set_emitted (emitted h ++ [(q, ev)]) h).

Definition schedule (t : Task) : M nat := λ h,
  Ok (length (tasks h)) (set_tasks (tasks h ++ [t]) h).

(** Settling a promise: only a pending promise changes. *)
Definition settle (p : option nat) (s : Settlement) (h : Heap) : Heap :=
  match p with
  | None => h
  | Some p =>
      match promises h !! p with
      | Some None => set_promises (<[p := Some s]> (promises h)) h
      | _ => h
      end
  end.

(** ** BaseQuery and the ModelQuery join mixin *)

(** [_.any(collection, predicate)] over the values of an object. *)
Definition any (m : gmap string JoinDetails) (f : JoinDetails → bool) : bool :=
  existsb (λ kv, f kv.2) (map_to_list m).

(** What [BluebirdPromise.method(fn)] hands back: a promise that follows
    the promise [fn] returned, a promise fulfilled with [undefined] when
    [fn] returned [undefined], or a promise rejected with what [fn]
    threw. *)
Inductive ReturnedPromise :=
  | Follows (p : nat)
  | FulfilledUndefined
  | RejectedWith (e : Error).

Definition BluebirdPromise_method (fn : M (option nat)) : M ReturnedPromise :=
  λ h,
  match fn h with
  | Ok (Some p) h' => Ok (Follows p) h'
  | Ok None h' => Ok FulfilledUndefined h'
  | Throw e h' => Ok (RejectedWith e) h'
  | Diverge => Diverge
  end.

(** What an observer of a returned promise sees: [None] while nothing
    has settled. A promise fulfilled with [undefined] carries no adapter
    result and is shown as pending here. *)
Definition observe (h : Heap) (rp : ReturnedPromise) : option Settlement :=
  match rp with
  | Follows p => mjoin (promises h !! p)
  | FulfilledUndefined => None
  | RejectedWith e => Some (Rejected e)
  end.

Section Query.

(** The parts of a concrete query that are outside src/:
    - [render]: the [_statement] override of a concrete query, which
      renders the structural state through the grammar;
    - [mixinInit current type]: the [init] functions of the mixins that
      [type] has and [current] has not, run on the new object;
    - [_create_super]: the [_create] methods above the join mixin;
    - [_lookupRelation]: the helper that resolves an association to its
      relation on a query;
    - [_associationForEach]: the helper that walks an association
      string, given here by the association names it hands to its
      callback, in order. *)
Variable render : option ModelClass → list (list JsValue) → Error + Statement.
Variable mixinInit : QueryClass → QueryClass → Query → Query.
Variable _create_super : list JsValue → Query → Query.
Variable _lookupRelation : Query → string → Error + Relation.
Variable _associationForEach : JsValue → Error + list string.

(** [BaseQuery#init] *)
Definition BaseQuery_init (this : nat) (adapter : option nat) : M unit :=
  set_query this (set_adapter adapter);;
  set_query this (set_executed false);;
  p ← new_promise;
  set_query this (set_promise (Some p)).

(** [BaseQuery.create(adapter)] *)
Definition BaseQuery_create (type : QueryClass) (adapter : option nat)
  : M nat :=
  q ← new_query type;
  BaseQuery_init q adapter;;
  mret q.

(** [BaseQuery#_take] *)
Definition BaseQuery_take (this orig : nat) : M unit :=
  o ← get_query orig;
  set_query this (set_adapter (_adapter o));;
  set_query this (set_executed false);;
  p ← new_promise;
  set_query this (set_promise (Some p)).

(** Modelled from the spec: the [_take] methods of the query mixins
    between [BaseQuery] and the join mixin are absent from src/. A new
    query shares the structurally immutable state of its parent: here the
    model and the join list. *)
Definition Join_take (this orig : nat) : M unit :=
  o ← get_query orig;
  set_query this (set_model (_model o));;
  set_query this (set_joins (_joins o)).

(** [ModelQuery#_take] of the join mixin, with its [_super] chain. *)
Definition ModelQuery_take (this orig : nat) : M unit :=
  BaseQuery_take this orig;;
  Join_take this orig;;
  o ← get_query orig;
  c ← _clone (_joinedRelations o);
  set_query this (set_joinedRelations c).

(** The [_take] of a class. *)
Definition _take (class : QueryClass) (this orig : nat) : M unit :=
  match class with
  | BaseQuery => BaseQuery_take this orig
  | ModelQuery => ModelQuery_take this orig
  end.

(** [BaseQuery#_create] does nothing; [ModelQuery#_create] of the join
    mixin calls [_super] and starts with no joined relation. *)
Definition _create (class : QueryClass) (this : nat) (arguments : list JsValue)
  : M unit :=
  match class with
  | BaseQuery => mret ()
  | ModelQuery =>
      set_query this (_create_super arguments);;
      o ← new_object ∅;
      set_query this (set_joinedRelations (Some o))
  end.

(** [BaseQuery#_dup] *)
Definition _dup (this : nat) : M nat :=
  r ← get_query this;
  dup ← new_query (__identity__ r);
  _take (__identity__ r) dup this;;
  emit this (EvDup dup);;
  mret dup.

(** [BaseQuery#clone] *)
Definition clone (this : nat) : M nat := _dup this.

(** [BaseQuery#_spawn] *)
Definition _spawn (this : nat) (type : QueryClass) (args : list JsValue)
  : M nat :=
  r ← get_query this;
  query ← new_query type;
  set_query query (mixinInit (__identity__ r) type);;
  _take (__identity__ r) query this;;
  _create type query args;;
  emit this (EvSpawn query);;
  mret query.

(** [BaseQuery#_statement], and its override in a concrete query. *)
Definition _statement (this : nat) : M Statement :=
  r ← get_query this;
  match __identity__ r with
  | BaseQuery => throw (JsError "BaseQuery cannot be used directly.")
  | ModelQuery =>
      match render (_model r) (_joins r) with
      | inl e => throw e
      | inr s => mret s
      end
  end.

(** [BaseQuery#statement] *)
Definition statement (this : nat) : M Statement := _statement this.

(** [BaseQuery#sql] *)
Definition BaseQuery_sql (this : nat) : M string :=
  s ← statement this; mret (sql s).

(** [BaseQuery#args] *)
Definition BaseQuery_args (this : nat) : M (list string) :=
  s ← statement this; mret (args s).

(** [BaseQuery#_execute]: the statement is read at once; the chain that
    emits ['execute'], calls the adapter and emits ['rawResult'] runs
    later, and is returned here by the statement it will send. *)
Definition _execute (this : nat) : M Statement :=
  statement this.

(** [BaseQuery#execute] *)
Definition execute (this : nat) : M ReturnedPromise :=
  BluebirdPromise_method (
    r ← get_query this;
    (if negb (_executed r) then
       set_query this (set_executed true);;
       chain ← _execute this;
       r' ← get_query this;
       schedule (Scheduled this chain (_promise r'));;
       mret ()
     else mret ());;
    r'' ← get_query this;
    mret (_promise r'')).

(** [BaseQuery#then]: the handlers are attached to what [execute]
    returns. *)
Definition then_ (this : nat) : M ReturnedPromise := execute this.

(** The chain of task [i] runs up to the adapter call:
    [.tap(emit 'execute').then(adapterExecute)]. The [client()] of the
    transaction mixin, which [adapterExecute] passes on, is taken to
    return. *)
Definition run_chain (i : nat) (h : Heap) : Heap :=
  match tasks h !! i with
  | Some (Scheduled q stmt p) =>
      set_tasks (<[i := InFlight q p]> (tasks h))
        (set_adapterCalls (adapterCalls h ++ [(q, stmt)])
           (set_emitted (emitted h ++ [(q, EvExecute)]) h))
  | _ => h
  end.

(** The adapter answers task [i]: the rest of the chain runs,
    [.tap(emit 'rawResult').tap(emit 'result')] or [.catch(emit 'error')],
    then [.then(this._resolve, this._reject)]. *)
Definition adapter_settles (i : nat) (s : Settlement) (h : Heap) : Heap :=
  match tasks h !! i with
  | Some (InFlight q p) =>
      let events :=
        match s with
        | Fulfilled r => [(q, EvRawResult r); (q, EvResult r)]
        | Rejected e => [(q, EvError e)]
        end in
      settle p s
        (set_tasks (<[i := Finished]> (tasks h))
           (set_emitted (emitted h ++ events) h))
  | _ => h
  end.

(** What may happen to a store between two moments: a caller calls
    [execute] or [then] on some query, a scheduled chain runs, the
    adapter answers. *)
Inductive Action :=
  | CallExecute (q : nat)
  | CallThen (q : nat)
  | RunChain (i : nat)
  | AdapterSettles (i : nat) (s : Settlement).

(** One action: what the caller got back, if the action was a call, and
    the store after it. *)
Definition step (a : Action) (h : Heap) : option (nat * ReturnedPromise) * Heap :=
  match a with
  | CallExecute q =>
      match execute q h with
      | Ok rp h' => (Some (q, rp), h')
      | Throw _ h' => (None, h')
      | Diverge => (None, h)
      end
  | CallThen q =>
      match then_ q h with
      | Ok rp h' => (Some (q, rp), h')
      | Throw _ h' => (None, h')
      | Diverge => (None, h)
      end
  | RunChain i => (None, run_chain i h)
  | AdapterSettles i s => (None, adapter_settles i s h)
  end.

(** A sequence of actions: the promises handed to callers, oldest first,
    and the last store. *)
Fixpoint run (acts : list Action) (h : Heap)
  : list (nat * ReturnedPromise) * Heap :=
  match acts with
  | [] => ([], h)
  | a :: acts' =>
      let '(r, h') := step a h in
      let '(rs, h'') := run acts' h' in
      ((from_option (λ x, [x]) [] r ++ rs)%list, h'')
  end.

(** The adapter calls made for query [q]. *)
Definition calls_of (q : nat) (h : Heap) : list (nat * Statement) :=
  filter (λ c, c.1 = q) (adapterCalls h).

(** Modelled from the spec: [Join#join], the superclass join, is absent
    from src/. It returns a new query to which the join descriptor, here
    the arguments as given, has been appended. *)
Definition Join_join (this : nat) (arguments : list JsValue) : M nat :=
  dup ← _dup this;
  d ← get_query dup;
  set_query dup (set_joins (_joins d ++ [arguments]));;
  mret dup.

(** [ModelQuery#_tableInQuery] *)
Definition _tableInQuery (this : nat) (name : string) : M bool :=
  r ← get_query this;
  model ← from_option mret (throw (TypeError "_model is undefined"))
            (_model r);
  let result := false in
  let result := result || String.eqb name (tableName model) in
  if result then mret result
  else
    joinedRelations ← from_option get_object (mret ∅) (_joinedRelations r);
    mret (any joinedRelations (λ joinDetails,
            String.eqb (as_ joinDetails) name)).

(** The [while] loop of [_uniqueTableAlias], run for at most [rounds]
    tests of its condition. *)
Fixpoint uniqueTableAlias_loop (rounds : nat) (this : nat)
    (name alias : string) (n : nat) : M string :=
  match rounds with
  | 0 => diverge
  | S rounds' =>
      inQuery ← _tableInQuery this alias;
      if inQuery : bool then
        uniqueTableAlias_loop rounds' this name
          (name +:+ "_j" +:+ pretty n) (n + 1)
      else mret alias
  end.

(** The number of names recorded for a query: its table and one alias
    per joined relation. *)
Definition names_in_query (this : nat) : M nat :=
  r ← get_query this;
  joinedRelations ← from_option get_object (mret ∅) (_joinedRelations r);
  mret (S (size joinedRelations)).

(** [ModelQuery#_uniqueTableAlias]. The loop is given one round more
    than there are names in the query; it never needs more. *)
Definition _uniqueTableAlias (this : nat) (name : string) : M string :=
  names ← names_in_query this;
  let alias := name in
  let n := 1 in
  uniqueTableAlias_loop (S names) this name alias n.

(** [ModelQuery#_joinRelation]. The call [this.join(joinArg, 'inner',
    condition)] has three arguments, which [ModelQuery#join] passes to
    the superclass join. *)
Definition _joinRelation (this : nat) (name : string)
    (through : option string) (relation : Relation) : M nat :=
  let baseTable := tableName (modelClass relation) in
  let joinTable := tableName (relatedModelClass relation) in
  let joinArg := VString joinTable in
  r ← get_query this;
  throughJoinDetails ←
    (if truthy through then
       match _joinedRelations r with
       | Some o => m ← get_object o; mret (m !! default "" through)
       | None => throw (TypeError "_joinedRelations is undefined")
       end
     else mret None);
  let baseTable := from_option as_ baseTable throughJoinDetails in
  inQuery ← _tableInQuery this joinTable;
  '(joinArg, joinTable) ←
    (if inQuery : bool then
       alias ← _uniqueTableAlias this (_name relation);
       mret (VAlias joinTable alias, alias)
     else mret (joinArg, joinTable));
  let condition := JoinCondition relation baseTable joinTable in
  dup ← Join_join this [joinArg; VString "inner"; VCondition condition];
  d ← get_query dup;
  match _joinedRelations d with
  | Some o => object_set o name {| as_ := joinTable; relation := relation |}
  | None => throw (TypeError "_joinedRelations is undefined")
  end;;
  mret dup.

(** The callback of [_joinAssociation], called for each association
    name in turn; [dup] and [through] are the two variables it shares
    with the enclosing function. *)
Fixpoint joinAssociation_each (this : nat) (assocs : list string)
    (dup : nat) (through : option string) : M nat :=
  match assocs with
  | [] => mret dup
  | assoc :: rest =>
      r ← get_query this;
      relation ← (match _lookupRelation r assoc with
                  | inl e => throw e
                  | inr relation => mret relation
                  end);
      dup ← _joinRelation dup assoc through relation;
      joinAssociation_each this rest dup (Some assoc)
  end.

(** [ModelQuery#_joinAssociation] *)
Definition _joinAssociation (this : nat) (association : JsValue) : M nat :=
  dup ← _dup this;
  match _associationForEach association with
  | inl e => throw e
  | inr assocs => joinAssociation_each this assocs dup None
  end.

(** [ModelQuery#join] *)
Definition join (this : nat) (arguments : list JsValue) : M nat :=
  match arguments with
  | [association] => _joinAssociation this association
  | _ => Join_join this arguments
  end.

End Query.

(** ** A small application, for the examples

    Articles with an author and an editor, both users. *)

Module Blog.

Definition Article : ModelClass :=
  {| __name__ := "Article"; tableName := "articles" |}.

Definition User : ModelClass :=
  {| __name__ := "User"; tableName := "users" |}.

(** [author: belongsTo('user')] on [Article] *)
Definition author : Relation := Relation_init "author" Article User None.

(** [editor: belongsTo('user')] on [Article] *)
Definition editor : Relation := Relation_init "editor" Article User None.

(** Stand-ins for the inflection and case functions on the regular
    one-word names of this application: a plural ends in [s], a class
    name starts with one capital letter, a relation name is in lower
    case. *)
Definition pluralize (s : string) : string := s +:+ "s".

Fixpoint singularize (s : string) : string :=
  match s with
  | "" => ""
  | String "s" "" => ""
  | String c s' => String c (singularize s')
  end.

Definition upper (c : ascii) : ascii :=
  let n := nat_of_ascii c in
  if ((97 <=? n) && (n <=? 122))%nat then ascii_of_nat (n - 32) else c.

Definition lower (c : ascii) : ascii :=
  let n := nat_of_ascii c in
  if ((65 <=? n) && (n <=? 90))%nat then ascii_of_nat (n + 32) else c.

Definition capitalize (s : string) : string :=
  match s with
  | "" => ""
  | String c s' => String (upper c) s'
  end.

(** [_.camelCase] on names made of letters, [_], [-] and spaces: the
    words are what stands between separators, and a capital letter after
    a small one starts a word; the first word is in lower case, every
    further word has a capital first letter. *)
Definition is_separator (c : ascii) : bool :=
  Ascii.eqb c "_" || Ascii.eqb c "-" || Ascii.eqb c " ".

Definition is_upper (c : ascii) : bool :=
  let n := nat_of_ascii c in ((65 <=? n) && (n <=? 90))%nat.

Definition is_lower (c : ascii) : bool :=
  let n := nat_of_ascii c in ((97 <=? n) && (n <=? 122))%nat.

Fixpoint camel_from (emitted boundary prev_lower : bool) (s : string)
  : string :=
  match s with
  | "" => ""
  | String c s' =>
      if is_separator c then camel_from emitted true false s'
      else if boundary || (is_upper c && prev_lower) then
        String (if emitted then upper c else lower c)
          (camel_from true false (is_lower c) s')
      else String (lower c) (camel_from true false (is_lower c) s')
  end.

Definition camelCase (s : string) : string := camel_from false true false s.

Definition snakeCase (s : string) : string := s.

(** The text of a join in the statement of this application. *)
Definition render_join (arguments : list JsValue) : string :=
  match arguments with
  | VString table :: VString type :: _ => " JOIN " +:+ table
  | VAlias table alias :: VString type :: _ =>
      " JOIN " +:+ table +:+ " " +:+ alias
  | _ => " JOIN ?"
  end.

(** A stand-in for the grammar: a select over the table of the model
    with one clause per join descriptor. *)
Definition render (model : option ModelClass) (joins : list (list JsValue))
  : Error + Statement :=
  match model with
  | None => inl (TypeError "no model")
  | Some m =>
      inr {| sql := foldl (λ acc j, acc +:+ render_join j)
                      ("SELECT * FROM " +:+ tableName m) joins;
             args := [] |}
  end.

(** No mixin of this application has an [init]. *)
Definition mixinInit (current type : QueryClass) (r : Query) : Query := r.

(** [ModelQuery#_create(model)] above the join mixin: the query is
    bound to the article model. *)
Definition _create_super (arguments : list JsValue) (r : Query) : Query :=
  set_model (Some Article) r.

(** The relations of [Article]. *)
Definition _lookupRelation (r : Query) (assoc : string) : Error + Relation :=
  if String.eqb assoc "author" then inr author
  else if String.eqb assoc "editor" then inr editor
  else inl (JsError "no relation for the association").

(** The pieces of an association string between dots. *)
Fixpoint split_dots (s : string) : list string :=
  match s with
  | "" => [""]
  | String c s' =>
      if Ascii.eqb c "." then "" :: split_dots s'
      else
        match split_dots s' with
        | [] => [String c ""]
        | w :: ws => String c w :: ws
        end
  end.

(** The key paths of an association string: for ["a.b.c"] these are
    ["a"], ["a.b"] and ["a.b.c"]. *)
Fixpoint key_paths (through : option string) (names : list string)
  : list string :=
  match names with
  | [] => []
  | name :: rest =>
      let path :=
        match through with
        | None => name
        | Some t => t +:+ "." +:+ name
        end in
      path :: key_paths (Some path) rest
  end.

Definition _associationForEach (association : JsValue)
  : Error + list string :=
  match association with
  | VString s => inr (key_paths None (split_dots s))
  | _ => inl (TypeError "association.split is not a function")
  end.

(** [Article.objects]: one query on the articles, in an empty store. *)
Definition articles_heap : Heap :=
  {| queries := [ {| __identity__ := ModelQuery; _adapter := Some 0;
                     _executed := false; _promise := Some 0;
                     _model := Some Article; _joins := [];
                     _joinedRelations := Some 0 |} ];
     objects := [∅];
     promises := [None];
     tasks := []; adapterCalls := []; emitted := [] |}.

(** [BaseQuery.create(adapter)]: one query of the abstract class. *)
Definition base_heap : Heap :=
  {| queries := [ {| __identity__ := BaseQuery; _adapter := Some 0;
                     _executed := false; _promise := Some 0;
                     _model := None; _joins := [];
                     _joinedRelations := None |} ];
     objects := [];
     promises := [None];
     tasks := []; adapterCalls := []; emitted := [] |}.

(** The articles with their author joined: the query that
    [Article.objects.join('author')] returns, its joined relations, and
    the store it is in. *)
Definition author_joined : gmap string JoinDetails :=
  {[ "author" := {| as_ := "users"; relation := author |} ]}.

Definition authored_query : Query :=
  {| __identity__ := ModelQuery; _adapter := Some 0;
     _executed := false; _promise := Some 2;
     _model := Some Article;
     _joins := [[VString "users"; VString "inner";
                 VCondition (JoinCondition author "articles" "users")]];
     _joinedRelations := Some 2 |}.

Definition authored_heap : Heap :=
  default articles_heap
    (final_heap (join _lookupRelation _associationForEach 0
                   [VString "author"] articles_heap)).

(** A later change to the author relation: it is renamed, moved to the
    user class and given a foreign key. *)
Definition rewire : Change :=
  {| new_name := "writer"; new_modelClass := User;
     new_relatedModel := Article;
     new_options := {| opt_inverse := Some "written";
                       opt_primaryKey := Some "uuid";
                       opt_foreignKey := Some "writer_key" |} |}.

End Blog.

(** ** Vocabulary of the statements about queries *)

(** What a computation hands to its caller: a thrown error or a value. *)
Definition result {A : Type} (o : Outcome A) : option (Error + A) :=
  match o with
  | Ok a _ => Some (inr a)
  | Throw e _ => Some (inl e)
  | Diverge => None
  end.

(** The state of the query [q]: its properties, the entries of its
    joined-relations object and the state of its promise. *)
Definition state_of (h : Heap) (q : nat)
  : option (Query * option (gmap string JoinDetails)
            * option (option Settlement)) :=
  r ← queries h !! q;
  Some (r, _joinedRelations r ≫= (λ o, objects h !! o),
        _promise r ≫= (λ p, promises h !! p)).

(** [q] is a query of the store, and so are the objects it refers to. *)
Definition live (h : Heap) (q : nat) : Prop :=
  ∃ r, queries h !! q = Some r ∧
       (∀ o, _joinedRelations r = Some o → is_Some (objects h !! o)) ∧
       (∀ p, _promise r = Some p → is_Some (promises h !! p)).

(** [h'] has every query, object and promise of [h], in the state it
    has in [h]; no work was scheduled and the adapter was not called. *)
Definition preserves (h h' : Heap) : Prop :=
  queries h `prefix_of` queries h' ∧
  objects h `prefix_of` objects h' ∧
  promises h `prefix_of` promises h' ∧
  tasks h' = tasks h ∧
  adapterCalls h' = adapterCalls h ∧
  emitted h `prefix_of` emitted h'.

(** The names [_uniqueTableAlias] tries for [name], in order: [name],
    [name_j1], [name_j2], ... *)
Definition candidate (name : string) (k : nat) : string :=
  match k with
  | 0 => name
  | S _ => name +:+ "_j" +:+ pretty k
  end.

(** [_tableInQuery] as a function of what it reads. *)
Definition in_query (model : ModelClass) (m : gmap string JoinDetails)
    (name : string) : bool :=
  String.eqb name (tableName model) ||
  any m (λ joinDetails, String.eqb (as_ joinDetails) name).

(** The loop of [_uniqueTableAlias] as a function of what it reads. *)
Fixpoint alias_search (rounds : nat) (used : string → bool)
    (name alias : string) (n : nat) : option string :=
  match rounds with
  | 0 => None
  | S rounds' =>
      if used alias then
        alias_search rounds' used name (name +:+ "_j" +:+ pretty n) (n + 1)
      else Some alias
  end.

(** The properties of the copy that [_dup] makes of a query with
    properties [r]: [p] is its new promise and [o] its new
    joined-relations object. *)
Definition dup_of (r : Query) (p : nat) (o : option nat) : Query :=
  match __identity__ r with
  | BaseQuery =>
      {| __identity__ := BaseQuery; _adapter := _adapter r;
         _executed := false; _promise := Some p;
         _model := None; _joins := []; _joinedRelations := None |}
  | ModelQuery =>
      {| __identity__ := ModelQuery; _adapter := _adapter r;
         _executed := false; _promise := Some p;
         _model := _model r; _joins := _joins r;
         _joinedRelations := o |}
  end.

(** The store after a query [r'] was added for [this], with a pending
    promise, the objects [new_objects] and one notification. *)
Definition grown (this : nat) (r' : Query)
    (new_objects : list (gmap string JoinDetails)) (ev : Event) (h : Heap)
  : Heap :=
  {| queries := queries h ++ [r'];
     objects := objects h ++ new_objects;
     promises := promises h ++ [None];
     tasks := tasks h;
     adapterCalls := adapterCalls h;
     emitted := emitted h ++ [(this, ev)] |}.

(** The entries of the joined-relations object of a query, if it has
    one in the store. *)
Definition joined (h : Heap) (r : Query) : option (gmap string JoinDetails) :=
  _joinedRelations r ≫= (λ o, objects h !! o).

(** The reference that [_dup] gives the copy of [r] for its
    joined-relations object, and the objects it adds to the store. *)
Definition clone_ref (h : Heap) (r : Query) : option nat :=
  _joinedRelations r ≫= (λ _, Some (length (objects h))).

Definition clone_objects (h : Heap) (r : Query)
  : list (gmap string JoinDetails) :=
  match __identity__ r with
  | BaseQuery => []
  | ModelQuery => option_list (joined h r)
  end.

(** The store after [_dup] on a query with properties [r]. *)
Definition dup_heap (this : nat) (r : Query) (h : Heap) : Heap :=
  grown this (dup_of r (length (promises h)) (clone_ref h r))
    (clone_objects h r) (EvDup (length (queries h))) h.

(** The table name or alias under which [_joinRelation] joins the
    related table of [relation]. *)
Definition join_alias (model : ModelClass) (m : gmap string JoinDetails)
    (relation : Relation) : option string :=
  let joinTable := tableName (relatedModelClass relation) in
  if in_query model m joinTable then
    alias_search (S (S (size m))) (in_query model m)
      (_name relation) (_name relation) 1
  else Some joinTable.

(** The first argument it gives to [join]. *)
Definition join_argument (model : ModelClass) (m : gmap string JoinDetails)
    (relation : Relation) (alias : string) : JsValue :=
  let joinTable := tableName (relatedModelClass relation) in
  if in_query model m joinTable then VAlias joinTable alias
  else VString joinTable.

(** The base table of its join condition. *)
Definition through_table (m : gmap string JoinDetails)
    (through : option string) (relation : Relation) : string :=
  from_option as_ (tableName (modelClass relation))
    (if truthy through then m !! default "" through else None).

(** The join descriptor it appends. *)
Definition join_descriptor (model : ModelClass) (m : gmap string JoinDetails)
    (through : option string) (relation : Relation) (alias : string)
  : list JsValue :=
  [join_argument model m relation alias; VString "inner";
   VCondition (JoinCondition relation (through_table m through relation)
                 alias)].

(** The store after [_joinRelation] on a model query with properties
    [r] and joined relations [m]. *)
Definition joinRelation_heap (this : nat) (r : Query) (model : ModelClass)
    (m : gmap string JoinDetails) (name : string) (through : option string)
    (relation : Relation) (alias : string) (h : Heap) : Heap :=
  grown this
    (set_joins (_joins r ++ [join_descriptor model m through relation alias])
       (dup_of r (length (promises h)) (Some (length (objects h)))))
    [<[name := {| as_ := alias; relation := relation |}]> m]
    (EvDup (length (queries h))) h.

(** An operation that derives a query: if it returns, then a query
    that was not in the store, whose joined-relations object was not in
    the store either; however it ends, the store it leaves preserves the
    store [h] it found; and it does end. *)
Definition derives (h : Heap) (o : Outcome nat) : Prop :=
  match o with
  | Ok q' h' =>
      preserves h h' ∧ length (queries h) ≤ q' ∧
      ∀ r' o', queries h' !! q' = Some r' →
               _joinedRelations r' = Some o' → length (objects h) ≤ o'
  | Throw _ h' => preserves h h'
  | Diverge => False
  end.

(** What [execute] returns for a query with properties [r]. *)
Definition returned (r : Query) : ReturnedPromise :=
  match _promise r with
  | Some p => Follows p
  | None => FulfilledUndefined
  end.

(** The chains of query [q] that are scheduled and have not yet called
    the adapter. *)
Definition is_scheduled_for (q : nat) (t : Task) : bool :=
  match t with
  | Scheduled q' _ _ => Nat.eqb q' q
  | _ => false
  end.

Definition scheduled_for (q : nat) (h : Heap) : list Task :=
  filter (λ t, is_scheduled_for q t = true) (tasks h).

(** Where the execution of a query stands. The query [q] has the
    properties [r] but for its executed flag; while the flag is false
    nothing is scheduled and the adapter has not been called for [q];
    once it is true, one chain is scheduled or one call has been made,
    with the statement [stmt]. *)
Definition execution_state (q : nat) (r : Query) (stmt : Statement)
    (h : Heap) : Prop :=
  ∃ r', queries h !! q = Some r' ∧
        r' = set_executed (_executed r') r ∧
        length (scheduled_for q h) + length (calls_of q h) =
          (if _executed r' then 1 else 0) ∧
        (∀ c, c ∈ calls_of q h → c = (q, stmt)) ∧
        (∀ t, t ∈ scheduled_for q h → t = Scheduled q stmt (_promise r)).

(** The action is a call of [execute] or [then] on [q]. *)
Definition calls_query (q : nat) (a : Action) : bool :=
  match a with
  | CallExecute q' | CallThen q' => Nat.eqb q' q
  | _ => false
  end.

(** The operations that derive a query from a query. *)
Inductive ChainOp :=
  | OpJoin (arguments : list JsValue)
  | OpJoinAssociation (association : JsValue)
  | OpClone
  | OpDup
  | OpSpawn (type : QueryClass) (arguments : list JsValue).

Section ChainOps.

Variable mixinInit : QueryClass → QueryClass → Query → Query.
Variable _create_super : list JsValue → Query → Query.
Variable _lookupRelation : Query → string → Error + Relation.
Variable _associationForEach : JsValue → Error + list string.

Definition run_op (op : ChainOp) (q : nat) : M nat :=
  match op with
  | OpJoin arguments =>
      join _lookupRelation _associationForEach q arguments
  | OpJoinAssociation association =>
      _joinAssociation _lookupRelation _associationForEach q association
  | OpClone => clone q
  | OpDup => _dup q
  | OpSpawn type arguments =>
      _spawn mixinInit _create_super q type arguments
  end.

End ChainOps.

(** ** Further parts of the sources *)

(** *** [MySQLAdapter.Grammar#escape] *)

(** The values that reach [escape]. *)
Inductive SqlValue :=
  | SqlString (s : string)
  | SqlNumber (n : Z)
  | SqlBool (b : bool)
  | SqlNull.

(** The backslash, and the two backslashes that replace it. *)
Definition backslash : string := String (ascii_of_nat 92) "".

Definition two_backslashes : string := backslash +:+ backslash.

(** [_.isString(value) ? value.replace('\\', '\\\\') : value] *)
Definition MySQLGrammar_escape_value (value : SqlValue) : SqlValue :=
  match value with
  | SqlString s => SqlString (JsString.replace backslash two_backslashes s)
  | _ => value
  end.

(** [MySQLAdapter.Grammar#escape], over the [escape] of [Adapter.Grammar]
    that [this._super(value)] reaches. *)
Definition MySQLGrammar_escape (Grammar_escape : SqlValue → string)
    (value : SqlValue) : string :=
  Grammar_escape (MySQLGrammar_escape_value value).

(** *** [MySQLAdapter.Translator#typeForDecimal] *)

(** The options of a decimal column; a number that is absent is
    [undefined]. *)
Record DecimalOptions := {
  precision : option Z;
  scale : option Z;
}.

(** A number in a condition: [undefined] and [0] count as false. *)
Definition truthy_number (v : option Z) : bool :=
  match v with
  | Some n => negb (Z.eqb n 0)
  | None => false
  end.

(** The options that [typeForDecimal] hands to [this._super]:
    [_.clone(options || {})], then the defaults when there is no
    precision. *)
Definition MySQL_decimal_options (options : option DecimalOptions)
  : DecimalOptions :=
  let opts := default {| precision := None; scale := None |} options in
  if negb (truthy_number (precision opts)) then
    {| precision := Some 64%Z; scale := Some 30%Z |}
  else opts.

Definition MySQLTranslator_typeForDecimal
    (Translator_typeForDecimal : DecimalOptions → string)
    (options : option DecimalOptions) : string :=
  Translator_typeForDecimal (MySQL_decimal_options options).

(** *** [BaseRelation#init] and [BaseRelation#methods] *)

(** What a relation attribute is called with after the name and the
    attribute details: a model class, a string, an options object. *)
Inductive RelationArg :=
  | ArgModel (model : ModelClass)
  | ArgString (s : string)
  | ArgOptions (options : RelationOptions).

(** [options || {}], where [options] is what was shifted off the
    arguments. A string or a class in that place has none of the option
    properties that the getters read. *)
Definition options_of (arg : option RelationArg) : option RelationOptions :=
  match arg with
  | Some (ArgOptions o) => Some o
  | _ => None
  end.

Section RelationInit.

(** [db.model(name)] and [inflection.singularize]. *)
Variable db_model : string → ModelClass.
Variable singularize : string → string.

(** [BaseRelation#init], with [name] and the class of
    [attributeDetails.context] already shifted off the arguments. *)
Definition BaseRelation_init (name : string) (modelClass : ModelClass)
    (args : list RelationArg) : Relation :=
  let '(relatedModel, args) :=
    match args with
    | ArgModel m :: rest => (m, rest)
    | ArgString s :: rest => (db_model s, rest)
    | _ => (db_model (singularize name), args)
    end in
  let options := options_of (head args) in
  Relation_init name modelClass relatedModel options.

End RelationInit.

(** The order in which the keys of a JavaScript object are visited, by
    [_.transform] as by [Object.keys]: first the keys that are array
    indices, in ascending order, then the other keys in the order of
    their definition. An array index is a decimal number below
    [2^32 - 1] written without a sign and without leading zeros. *)
Definition digit (c : ascii) : option N :=
  let n := N_of_ascii c in
  if ((48 <=? n) && (n <=? 57))%N then Some (n - 48)%N else None.

Fixpoint digits_value (acc : N) (s : string) : option N :=
  match s with
  | "" => Some acc
  | String c s' => d ← digit c; digits_value (10 * acc + d)%N s'
  end.

Definition array_index (key : string) : option N :=
  match key with
  | "" => None
  | String "0" "" => Some 0%N
  | String "0" _ => None
  | _ =>
      n ← digits_value 0 key;
      if (n <? 4294967295)%N then Some n else None
  end.

Definition index_le {V : Type} (a b : N * V) : Prop := (a.1 ≤ b.1)%N.

#[global] Instance index_le_dec {V : Type} : RelDecision (@index_le V) :=
  λ a b, decide (a.1 ≤ b.1)%N.

Definition own_keys_order {V : Type} (entries : list (string * V))
  : list (string * V) :=
  let indexed := omap (λ kv, n ← array_index kv.1; Some (n, kv)) entries in
  (snd <$> merge_sort index_le indexed) ++
  filter (λ kv, array_index kv.1 = None) entries.

Section RelationMethods.

Variables singularize pluralize capitalize : string → string.

(** The members that a relation adds to its model. *)
Variable Member : Type.

(** The function that [methods] hands to [_.transform]:
    [result[self.template(key)] = method(self)]. *)
Definition methods_callback (self : Relation) (result : gmap string Member)
    (km : string * (Relation → Member)) : gmap string Member :=
  <[template singularize pluralize capitalize self km.1 := km.2 self]> result.

(** [BaseRelation#methods]: [_.transform] over the static [methods]
    object, which is given by its entries in the order of their
    definition and visited in the order of its keys. *)
Definition methods (self : Relation)
    (static_methods : list (string * (Relation → Member)))
  : gmap string Member :=
  foldl (methods_callback self) ∅ (own_keys_order static_methods).

End RelationMethods.

(** *** Method names as texts and placeholders *)

(** A method name written as a sequence of texts and placeholders. *)
Inductive Segment :=
  | Text (s : string)
  | Hole (ph : Placeholder).

Definition Placeholder_eqb (a b : Placeholder) : bool :=
  match a, b with
  | PhSingular, PhSingular | PhSingularCap, PhSingularCap
  | PhPlural, PhPlural | PhPluralCap, PhPluralCap => true
  | _, _ => false
  end.

Definition segment_text (seg : Segment) : string :=
  match seg with
  | Text s => s
  | Hole ph => placeholder_text ph
  end.

(** The string that the segments spell. *)
Definition flatten (segs : list Segment) : string :=
  foldr (λ seg acc, segment_text seg +:+ acc) "" segs.

(** The first placeholder [ph] of the segments becomes the text [v]. *)
Fixpoint fill_first (ph : Placeholder) (v : string) (segs : list Segment)
  : list Segment :=
  match segs with
  | [] => []
  | Hole ph' :: rest =>
      if Placeholder_eqb ph' ph then Text v :: rest
      else Hole ph' :: fill_first ph v rest
  | Text s :: rest => Text s :: fill_first ph v rest
  end.

(** The placeholders that the segments hold. *)
Fixpoint holes (segs : list Segment) : list Placeholder :=
  match segs with
  | [] => []
  | Hole ph :: rest => ph :: holes rest
  | Text _ :: rest => holes rest
  end.

(** Every placeholder becomes the text that [value] gives for it. *)
Definition fill_all (value : Placeholder → string) (segs : list Segment)
  : list Segment :=
  (λ seg, match seg with
          | Hole ph => Text (value ph)
          | Text s => Text s
          end) <$> segs.

(** The texts between the placeholders are free of [<]. *)
Definition plain_texts (segs : list Segment) : Prop :=
  Forall (λ seg, match seg with
                 | Text s => JsString.occurs "<" s = false
                 | Hole _ => True
                 end) segs.

(** *** The joined-relations object *)

(** No table name is recorded twice: the aliases of two segments differ,
    and none is the table of the model. *)
Definition aliases_distinct (model : ModelClass)
    (m : gmap string JoinDetails) : Prop :=
  (∀ k1 k2 jd1 jd2, m !! k1 = Some jd1 → m !! k2 = Some jd2 →
                    as_ jd1 = as_ jd2 → k1 = k2) ∧
  (∀ k jd, m !! k = Some jd → as_ jd ≠ tableName model).

(** A model query of the store: it has a model and a joined-relations
    object with the entries [m]. *)
Definition model_query (h : Heap) (q : nat) (r : Query) (model : ModelClass)
    (m : gmap string JoinDetails) : Prop :=
  queries h !! q = Some r ∧
  __identity__ r = ModelQuery ∧
  _model r = Some model ∧
  joined h r = Some m.

(** *** What a copy takes from a query *)

(** The promise of [r'] is a promise that was not in the store [h] and
    is pending in [h']. *)
Definition fresh_pending (h h' : Heap) (r' : Query) : Prop :=
  ∃ p, _promise r' = Some p ∧
       promises h !! p = None ∧ promises h' !! p = Some None.

(** [r'], in the store [h'], has taken from the query [r] of the store
    [h] what [_take] copies: the adapter, and for a model query the
    model and the entries of the joined-relations object; it is not
    executed and has a promise of its own. *)
Definition takes_from (h h' : Heap) (r r' : Query) : Prop :=
  _adapter r' = _adapter r ∧
  _executed r' = false ∧
  fresh_pending h h' r' ∧
  (__identity__ r = ModelQuery →
   _model r' = _model r ∧ joined h' r' = joined h r).

(** *** [RawQuery] *)

(** The properties of a raw query. [_args] refers to an array of the
    store; [_promise] is read by [execute] and [then]. *)
Record RawQuery := {
  raw_adapter : option nat;
  raw_sql : option string;
  raw_args : option nat;
  raw_promise : option nat;
}.

(** The raw queries and the argument arrays. *)
Record RawHeap := {
  rawQueries : list RawQuery;
  arrays : list (list string);
}.

(** [RawQuery#init], on a new object: [create(adapter, sql, args)]. *)
Definition RawQuery_create (adapter : option nat) (sql : option string)
    (args : option nat) (h : RawHeap) : nat * RawHeap :=
  (length (rawQueries h),
   {| rawQueries := rawQueries h ++
        [{| raw_adapter := adapter; raw_sql := sql; raw_args := args;
            raw_promise := None |}];
      arrays := arrays h |}).

(** [RawQuery#_dup]: [create()] without arguments, then the three
    assignments. *)
Definition RawQuery_dup (this : nat) (h : RawHeap)
  : option (nat * RawHeap) :=
  r ← rawQueries h !! this;
  let '(dup, h1) := RawQuery_create None None None h in
  d ← rawQueries h1 !! dup;
  let d1 := {| raw_adapter := raw_adapter r; raw_sql := raw_sql d;
               raw_args := raw_args d; raw_promise := raw_promise d |} in
  let d2 := {| raw_adapter := raw_adapter d1; raw_sql := raw_sql r;
               raw_args := raw_args d1; raw_promise := raw_promise d1 |} in
  let d3 := {| raw_adapter := raw_adapter d2; raw_sql := raw_sql d2;
               raw_args := raw_args r; raw_promise := raw_promise d2 |} in
  Some (dup, {| rawQueries := <[dup := d3]> (rawQueries h1);
                arrays := arrays h1 |}).

(** [RawQuery#sql]: the text and the arguments array, with the entries
    the array has when it is read. *)
Definition RawQuery_sql (this : nat) (h : RawHeap)
  : option (option string * option (list string)) :=
  r ← rawQueries h !! this;
  Some (raw_sql r, raw_args r ≫= (λ a, arrays h !! a)).

(** [RawQuery#execute]: [return this._promise]. *)
Definition RawQuery_execute (this : nat) (h : RawHeap)
  : option (option nat) :=
  r ← rawQueries h !! this;
  Some (raw_promise r).

(** [RawQuery#then]: [this.execute(); return this._promise.then(...)].
    Reading [then] of [undefined] throws. *)
Definition RawQuery_then (this : nat) (h : RawHeap) : option (Error + nat) :=
  r ← rawQueries h !! this;
  _ ← RawQuery_execute this h;
  match raw_promise r with
  | Some p => Some (inr p)
  | None => Some (inl (TypeError "Cannot read property 'then' of undefined"))
  end.

(** [array[i] = v] on an argument array of the store. *)
Definition array_set (a i : nat) (v : string) (h : RawHeap) : RawHeap :=
  match arrays h !! a with
  | Some l => {| rawQueries := rawQueries h;
                 arrays := <[a := <[i := v]> l]> (arrays h) |}
  | None => h
  end.

(** What a program does with raw queries: it creates them, duplicates
    them, writes into argument arrays, makes new arrays. *)
Inductive RawAction :=
  | RawCreate (adapter : option nat) (sql : option string)
      (args : option nat)
  | RawDup (this : nat)
  | RawArraySet (a i : nat) (v : string)
  | RawNewArray (l : list string).

Definition raw_step (act : RawAction) (h : RawHeap) : RawHeap :=
  match act with
  | RawCreate adapter sql args => (RawQuery_create adapter sql args h).2
  | RawDup this => from_option snd h (RawQuery_dup this h)
  | RawArraySet a i v => array_set a i v h
  | RawNewArray l => {| rawQueries := rawQueries h;
                        arrays := arrays h ++ [l] |}
  end.

Definition raw_run (acts : list RawAction) (h : RawHeap) : RawHeap :=
  foldl (λ h act, raw_step act h) h acts.

Definition empty_raw_heap : RawHeap := {| rawQueries := []; arrays := [] |}.

(** No raw query of the store has a promise. *)
Definition no_promise (h : RawHeap) : Prop :=
  ∀ this r, rawQueries h !! this = Some r → raw_promise r = None.

(** *** A second example: authors and their employers *)

Module Magazine.

Definition Company : ModelClass :=
  {| __name__ := "Company"; tableName := "companies" |}.

(** [employer: belongsTo('company')] on [User] *)
Definition employer : Relation :=
  Relation_init "employer" Blog.User Company None.

(** The relations that can be reached from [Article]. *)
Definition _lookupRelation (r : Query) (assoc : string) : Error + Relation :=
  if String.eqb assoc "author" then inr Blog.author
  else if String.eqb assoc "author.employer" then inr employer
  else inl (JsError "no relation for the association").

(** The query of [Blog.articles_heap]. *)
Definition articles_query : Query :=
  {| __identity__ := ModelQuery; _adapter := Some 0;
     _executed := false; _promise := Some 0;
     _model := Some Blog.Article; _joins := [];
     _joinedRelations := Some 0 |}.

End Magazine.
(** * Facts about JavaScript strings *)

Module JsStringFacts.
Import JsString.

Lemma app_nil_l (a : string) : "" +:+ a = a.
Proof. reflexivity. Qed.

Lemma app_cons (x : ascii) (a b : string) :
  String x a +:+ b = String x (a +:+ b).
Proof. reflexivity. Qed.

Lemma app_assoc (a b c : string) : (a +:+ b) +:+ c = a +:+ (b +:+ c).
Proof.
  induction a as [|x a IH]; [done |].
  rewrite !app_cons. by f_equal.
Qed.

Lemma app_nil_r (a : string) : a +:+ "" = a.
Proof.
  induction a as [|x a IH]; [done |].
  rewrite app_cons. by f_equal.
Qed.

Lemma occurs_app c a b : occurs c (a +:+ b) = occurs c a || occurs c b.
Proof.
  induction a as [|x a IH]; [done |].
  rewrite app_cons. simpl. by destruct (Ascii.eqb x c).
Qed.

Lemma strip_prefix_app p s : strip_prefix p (p +:+ s) = Some s.
Proof.
  induction p as [|a p IH]; [by destruct s |].
  rewrite app_cons. simpl. by rewrite Ascii.eqb_refl.
Qed.

Lemma strip_prefix_Some p s r : strip_prefix p s = Some r → s = p +:+ r.
Proof.
  revert s; induction p as [|a p IH]; intros s; simpl.
  - rewrite app_nil_l. destruct s; congruence.
  - destruct s as [|b s]; [done |].
    destruct (Ascii.eqb_spec a b) as [->|]; [|done].
    intros H. by rewrite app_cons, <- (IH _ H).
Qed.

Lemma split_first_Some pat s pre post :
  split_first pat s = Some (pre, post) → s = pre +:+ pat +:+ post.
Proof.
  revert pre; induction s as [|c s IH]; intros pre; simpl.
  - destruct (strip_prefix pat "") as [r|] eqn:E; [|done].
    intros [= <- <-]. by apply strip_prefix_Some in E.
  - destruct (strip_prefix pat (String c s)) as [r|] eqn:E.
    + intros [= <- <-]. by apply strip_prefix_Some in E.
    + destruct (split_first pat s) as [[pre' post']|]; [|done].
      intros [= <- <-]. by rewrite app_cons, <- (IH pre').
Qed.

(** Skipping text that cannot start a match. *)
Lemma split_first_skip c p a s :
  occurs c a = false →
  split_first (String c p) (a +:+ s) =
    (λ '(pre, post), (a +:+ pre, post)) <$> split_first (String c p) s.
Proof.
  induction a as [|x a IH]; intros Hc.
  - rewrite app_nil_l.
    by destruct (split_first (String c p) s) as [[??]|].
  - rewrite app_cons. simpl in *. rewrite Ascii.eqb_sym in Hc.
    destruct (Ascii.eqb c x); [done |].
    rewrite (IH Hc).
    by destruct (split_first (String c p) s) as [[??]|].
Qed.

Lemma split_first_hit pat s : split_first pat (pat +:+ s) = Some ("", s).
Proof.
  destruct (pat +:+ s) eqn:E; simpl; rewrite <- E, strip_prefix_app; done.
Qed.

Lemma split_first_none c p a :
  occurs c a = false → split_first (String c p) a = None.
Proof.
  induction a as [|x a IH]; simpl; [done |].
  rewrite Ascii.eqb_sym. destruct (Ascii.eqb c x); [done |].
  intros H. by rewrite (IH H).
Qed.

(** A replacement text without [$] is inserted as it is. *)
Lemma getSubstitution_plain matched pre post rep :
  occurs "$" rep = false → getSubstitution matched pre post rep = rep.
Proof.
  induction rep as [|c r IH]; simpl; [done |].
  destruct (Ascii.eqb_spec c "$") as [->|Hne]; [done |].
  intros H. rewrite (IH H).
  destruct c as [[] [] [] [] [] [] [] []]; try done.
Qed.

(** The leftmost occurrence is replaced and what follows it is kept
    verbatim, further occurrences of the pattern included. *)
Lemma replace_first c p pre post rep :
  occurs c pre = false →
  occurs "$" rep = false →
  replace (String c p) rep (pre +:+ String c p +:+ post) =
    pre +:+ rep +:+ post.
Proof.
  intros Hpre Hrep. unfold replace.
  rewrite split_first_skip by done.
  rewrite split_first_hit. simpl.
  by rewrite app_nil_r, getSubstitution_plain.
Qed.

(** No occurrence: the string is returned unchanged. *)
Lemma replace_absent pat rep s :
  split_first pat s = None → replace pat rep s = s.
Proof. unfold replace. by intros ->. Qed.

(** A different word that starts with the same character does not
    match. *)
Lemma split_first_other c p a x b :
  occurs c a = false →
  strip_prefix (String c p) (String c x +:+ b) = None →
  occurs c (x +:+ b) = false →
  split_first (String c p) (a +:+ String c x +:+ b) = None.
Proof.
  intros Ha Hx Hb.
  rewrite split_first_skip by done.
  change (String c x +:+ b) with (String c (x +:+ b)) in *.
  cbn [split_first]. rewrite Hx.
  by rewrite split_first_none.
Qed.

End JsStringFacts.
(** * JavaScript conditions *)

Lemma truthy_Some_ne s : s ≠ "" → truthy (Some s) = true.
Proof. unfold truthy. intros H. by apply negb_true_iff, String.eqb_neq. Qed.

Lemma truthy_inv v : truthy v = true → ∃ s, v = Some s ∧ s ≠ "".
Proof.
  destruct v as [s|]; [|done]. unfold truthy.
  intros H%negb_true_iff%String.eqb_neq. eauto.
Qed.

(** * [BaseRelation#template] *)

Section TemplateFacts.

Import JsString JsStringFacts.

Variables singularize pluralize capitalize : string → string.

Local Abbreviation template := (template singularize pluralize capitalize).
Local Abbreviation placeholder_value :=
  (placeholder_value singularize pluralize capitalize).

(** A pattern is absent from a text whose only occurrences of the
    pattern's first character start other words. *)
Lemma split_first_after_word c p w a x b :
  occurs c w = false →
  occurs c a = false →
  strip_prefix (String c p) (String c x +:+ b) = None →
  split_first (String c p) (x +:+ b) = None →
  split_first (String c p) (w +:+ a +:+ String c x +:+ b) = None.
Proof.
  intros Hw Ha Hx Hb.
  rewrite split_first_skip by done.
  rewrite split_first_skip by done.
  change (String c x +:+ b) with (String c (x +:+ b)) in *.
  cbn [split_first]. by rewrite Hx, Hb.
Qed.

Lemma replace_no_match c p rep w a x b :
  occurs c w = false →
  occurs c a = false →
  strip_prefix (String c p) (String c x +:+ b) = None →
  split_first (String c p) (x +:+ b) = None →
  replace (String c p) rep (w +:+ a +:+ String c x +:+ b) =
    w +:+ a +:+ String c x +:+ b.
Proof. intros. by apply replace_absent, split_first_after_word. Qed.

Lemma occurs_lt_tail (w s : string) :
  occurs "<" w = false → occurs "<" s = false →
  occurs "<" (w +:+ s) = false.
Proof. intros Hw Hs. by rewrite occurs_app, Hw, Hs. Qed.

(** One [replace] of [template] meets a text with two occurrences of a
    different placeholder: nothing changes. *)
Lemma replace_other_twice p rep a x m b :
  occurs "<" a = false →
  occurs "<" x = false →
  occurs "<" m = false →
  occurs "<" b = false →
  (∀ s, strip_prefix (String "<" p) (String "<" x +:+ s) = None) →
  replace (String "<" p) rep
    (a +:+ String "<" x +:+ m +:+ String "<" x +:+ b) =
  a +:+ String "<" x +:+ m +:+ String "<" x +:+ b.
Proof.
  intros Ha Hx Hm Hb Hp.
  rewrite <- (app_nil_l (a +:+ _)).
  apply replace_no_match; [done | done | apply Hp |].
  rewrite <- app_assoc.
  rewrite <- (app_nil_l ((x +:+ m) +:+ _)).
  apply split_first_after_word; [done | by apply occurs_lt_tail | apply Hp |].
  apply split_first_none. by apply occurs_lt_tail.
Qed.

(** The same with one occurrence left. *)
Lemma replace_other_once p rep a x b :
  occurs "<" a = false →
  occurs "<" x = false →
  occurs "<" b = false →
  (∀ s, strip_prefix (String "<" p) (String "<" x +:+ s) = None) →
  replace (String "<" p) rep (a +:+ String "<" x +:+ b) =
  a +:+ String "<" x +:+ b.
Proof.
  intros Ha Hx Hb Hp.
  rewrite <- (app_nil_l (a +:+ _)).
  apply replace_no_match; [done | done | apply Hp |].
  apply split_first_none. by apply occurs_lt_tail.
Qed.

(** C10: [template] replaces the first occurrence of a placeholder only.
    In a string that holds the same placeholder twice, between texts
    without [<], the first occurrence becomes the inflected name and the
    second stays as it was written. The inflected names are taken to
    hold neither [<] nor [$], as names do. *)
Theorem template_replaces_first_occurrence_only
    (r : Relation) (ph : Placeholder) (pre mid post : string) :
  occurs "<" pre = false →
  occurs "<" mid = false →
  occurs "<" post = false →
  (∀ ph', occurs "<" (placeholder_value r ph') = false) →
  (∀ ph', occurs "$" (placeholder_value r ph') = false) →
  template r
    (pre +:+ placeholder_text ph +:+ mid +:+ placeholder_text ph +:+ post) =
  pre +:+ placeholder_value r ph +:+ mid +:+ placeholder_text ph +:+ post.
Proof.
  intros Hpre Hmid Hpost Hlt Hdollar.
  pose proof (Hlt PhSingular) as L1. pose proof (Hlt PhSingularCap) as L2.
  pose proof (Hlt PhPlural) as L3. pose proof (Hlt PhPluralCap) as L4.
  pose proof (Hdollar PhSingular) as D1.
  pose proof (Hdollar PhSingularCap) as D2.
  pose proof (Hdollar PhPlural) as D3.
  pose proof (Hdollar PhPluralCap) as D4.
  unfold template. cbn [placeholder_value] in *.
  destruct ph; cbn [placeholder_text].
  - rewrite (replace_first "<" "singular>") by done.
    set (v := singularize (_name r)) in *.
    rewrite <- (app_assoc v mid), <- (app_assoc pre (v +:+ mid)).
    assert (occurs "<" (pre +:+ v +:+ mid) = false) as Ha
      by (by rewrite !occurs_app, Hpre, Hmid, L1).
    rewrite !replace_other_once by done.
    by rewrite !app_assoc.
  - rewrite (replace_other_twice "singular>") by done.
    rewrite (replace_first "<" "Singular>") by done.
    set (v := capitalize (singularize (_name r))) in *.
    rewrite <- (app_assoc v mid), <- (app_assoc pre (v +:+ mid)).
    assert (occurs "<" (pre +:+ v +:+ mid) = false) as Ha
      by (by rewrite !occurs_app, Hpre, Hmid, L2).
    rewrite !replace_other_once by done.
    by rewrite !app_assoc.
  - rewrite (replace_other_twice "singular>") by done.
    rewrite (replace_other_twice "Singular>") by done.
    rewrite (replace_first "<" "plural>") by done.
    set (v := pluralize (singularize (_name r))) in *.
    rewrite <- (app_assoc v mid), <- (app_assoc pre (v +:+ mid)).
    assert (occurs "<" (pre +:+ v +:+ mid) = false) as Ha
      by (by rewrite !occurs_app, Hpre, Hmid, L3).
    rewrite !replace_other_once by done.
    by rewrite !app_assoc.
  - rewrite (replace_other_twice "singular>") by done.
    rewrite (replace_other_twice "Singular>") by done.
    rewrite (replace_other_twice "plural>") by done.
    by rewrite (replace_first "<" "Plural>") by done.
Qed.

End TemplateFacts.

(** * The belongs-to getters *)

Section BelongsToFacts.

Variables pluralize camelCase snakeCase : string → string.

Local Abbreviation inverse := (inverse pluralize camelCase).
Local Abbreviation foreignKey := (foreignKey snakeCase).

Lemma js_or_truthy a b : b ≠ "" → truthy (js_or a b) = true.
Proof.
  intros Hb. unfold js_or. destruct (truthy a) eqn:E; [done |].
  by apply truthy_Some_ne.
Qed.

Lemma js_or_undefined b : js_or None b = Some b.
Proof. reflexivity. Qed.

(** A getter whose slot holds a true value returns it and writes
    nothing. *)
Lemma inverse_cached r :
  truthy (_inverse r) = true → inverse r = (_inverse r, r).
Proof. unfold inverse. by intros ->. Qed.

Lemma primaryKey_cached r :
  truthy (_primaryKey r) = true → primaryKey r = (_primaryKey r, r).
Proof. unfold primaryKey. by intros ->. Qed.

Lemma foreignKey_cached r :
  truthy (_foreignKey r) = true → foreignKey r = (_foreignKey r, r).
Proof. unfold foreignKey. by intros ->. Qed.

(** Once a slot holds a true value, every later read returns it,
    whatever was changed in between. *)
Lemma read_after_each_cached getter slot cs r :
  (∀ c r', slot (apply_change c r') = slot r') →
  (∀ r', truthy (slot r') = true → getter r' = (slot r', r')) →
  truthy (slot r) = true →
  Forall (λ v, v = slot r) (read_after_each getter cs r).
Proof.
  intros Hchange Hget. revert r.
  induction cs as [|c cs IH]; intros r Hr; cbn [read_after_each]; [done |].
  rewrite Hget by (by rewrite Hchange).
  constructor; [apply Hchange |].
  rewrite <- (Hchange c r). apply IH. by rewrite Hchange.
Qed.

(** After its first read, the slot of a getter holds a true value. *)
Lemma inverse_slot r :
  pluralize (camelCase (__name__ (_modelClass r))) ≠ "" →
  truthy (_inverse (inverse r).2) = true ∧
  (inverse r).1 = _inverse (inverse r).2.
Proof.
  intros Hne. unfold inverse.
  destruct (truthy (_inverse r)) eqn:E; cbn; [done |].
  split; [by apply js_or_truthy | done].
Qed.

Lemma primaryKey_slot r :
  truthy (_primaryKey (primaryKey r).2) = true ∧
  (primaryKey r).1 = _primaryKey (primaryKey r).2.
Proof.
  unfold primaryKey.
  destruct (truthy (_primaryKey r)) eqn:E; cbn; [done |].
  split; [by apply js_or_truthy | done].
Qed.

Lemma foreignKey_slot r :
  snakeCase (_name r +:+ "_id") ≠ "" →
  truthy (_foreignKey (foreignKey r).2) = true ∧
  (foreignKey r).1 = _foreignKey (foreignKey r).2.
Proof.
  intros Hne. unfold foreignKey.
  destruct (truthy (_foreignKey r)) eqn:E; cbn; [done |].
  split; [by apply js_or_truthy | done].
Qed.

(** C5: a belongs-to relation built without options has no key or
    inverse computed at construction; the first read of [foreignKey]
    gives [snakeCase (name + "_id")], of [primaryKey] gives ["id"], of
    [inverse] gives the pluralized camel-cased name of the owning class.
    For every relation, whatever its options, the value of the first
    read is what every later read returns, also after the name, the
    classes and the options of the relation have been replaced. The
    library functions are taken to return non-empty names. *)
Theorem belongsTo_keys_default_lazy_locked
    (name : string) (modelClass relatedModel : ModelClass)
    (r : Relation) (cs : list Change) :
  snakeCase (name +:+ "_id") ≠ "" →
  snakeCase (_name r +:+ "_id") ≠ "" →
  pluralize (camelCase (__name__ (_modelClass r))) ≠ "" →
  let r0 := Relation_init name modelClass relatedModel None in
  (_foreignKey r0 = None ∧ _primaryKey r0 = None ∧ _inverse r0 = None) ∧
  ((foreignKey r0).1 = Some (snakeCase (name +:+ "_id")) ∧
   (primaryKey r0).1 = Some "id" ∧
   (inverse r0).1 = Some (pluralize (camelCase (__name__ modelClass)))) ∧
  (Forall (λ v, v = (foreignKey r).1)
     (read_after_each foreignKey cs (foreignKey r).2) ∧
   Forall (λ v, v = (primaryKey r).1)
     (read_after_each primaryKey cs (primaryKey r).2) ∧
   Forall (λ v, v = (inverse r).1)
     (read_after_each inverse cs (inverse r).2)).
Proof.
  intros Hfk0 Hfk Hinv r0. split; [done |]. split; [done |].
  destruct (foreignKey_slot r Hfk) as [Tf ->].
  destruct (primaryKey_slot r) as [Tp ->].
  destruct (inverse_slot r Hinv) as [Ti ->].
  split_and!.
  - by apply (read_after_each_cached foreignKey _foreignKey);
      [| apply foreignKey_cached |].
  - by apply (read_after_each_cached primaryKey _primaryKey);
      [| apply primaryKey_cached |].
  - by apply (read_after_each_cached inverse _inverse);
      [| apply inverse_cached |].
Qed.

End BelongsToFacts.

(** * The MySQL translator *)

Section TranslatorFacts.

Variable Translator_predicateFor : PredicateName → Predicate → Predicate.

Local Abbreviation MySQL := (MySQLTranslator_predicateFor Translator_predicateFor).

(** C9: the MySQL translator renders [contains] with
    [%s LIKE BINARY %s] and [iContains] with [%s LIKE %s], both on the
    value passed through the [like] and [contains] transforms; a
    predicate it has no method for is the base translator's. *)
Theorem mysql_contains_like_binary (p : Predicate) (name : PredicateName) :
  fragment (MySQL Contains p) = "%s LIKE BINARY %s" ∧
  valueTransforms (MySQL Contains p) =
    [NamedTransform "like"; NamedTransform "contains"] ∧
  fragment (MySQL IContains p) = "%s LIKE %s" ∧
  valueTransforms (MySQL IContains p) =
    [NamedTransform "like"; NamedTransform "contains"] ∧
  (if mysql_overrides name then True
   else MySQL name p = Translator_predicateFor name p).
Proof. split_and!; try done. by destruct name. Qed.

End TranslatorFacts.

(** * The store *)

Lemma lookup_snoc {A : Type} (l : list A) (x : A) :
  (l ++ [x]) !! length l = Some x.
Proof. by rewrite lookup_app_r, Nat.sub_diag by lia. Qed.

Lemma insert_snoc {A : Type} (l : list A) (x y : A) :
  <[length l := y]> (l ++ [x]) = l ++ [y].
Proof. by rewrite insert_app_r_alt, Nat.sub_diag by lia. Qed.

Lemma lookup_snoc_old {A : Type} (l : list A) (x : A) (i : nat) (y : A) :
  l !! i = Some y → (l ++ [x]) !! i = Some y.
Proof. apply lookup_app_l_Some. Qed.

Lemma prefix_snoc {A : Type} (l : list A) (x : A) : l `prefix_of` l ++ [x].
Proof. by apply prefix_app_r. Qed.

Lemma prefix_lookup {A : Type} (l k : list A) (i : nat) (x : A) :
  l `prefix_of` k → l !! i = Some x → k !! i = Some x.
Proof. intros [t ->]. apply lookup_app_l_Some. Qed.

Lemma bind_eq {A B : Type} (m : M A) (f : A → M B) (h : Heap) :
  (m ≫= f) h =
  match m h with
  | Ok a h' => f a h'
  | Throw e h' => Throw e h'
  | Diverge => Diverge
  end.
Proof. reflexivity. Qed.

Lemma ret_eq {A : Type} (a : A) (h : Heap) : (mret a : M A) h = Ok a h.
Proof. reflexivity. Qed.

(** Running a method on a store that is written out. *)
Ltac heap_simpl :=
  cbn [queries objects promises tasks adapterCalls emitted
       set_queries set_objects set_promises set_tasks set_adapterCalls
       set_emitted].

Ltac exec1 :=
  first
  [ rewrite bind_eq
  | rewrite ret_eq
  | progress unfold get_query, set_query, new_query, new_promise, new_object,
      get_object, object_set, emit, schedule, throw, diverge
  | progress heap_simpl
  | rewrite lookup_snoc
  | rewrite insert_snoc
  | erewrite lookup_snoc_old by eassumption
  | match goal with
    | H : ?l !! ?i = Some _ |- context [?l !! ?i] => rewrite H
    | H : ?l !! ?i = None |- context [?l !! ?i] => rewrite H
    end ].

Ltac exec := repeat exec1.

#[global] Instance preserves_refl : Reflexive preserves.
Proof. intros h. by unfold preserves. Qed.

#[global] Instance preserves_trans : Transitive preserves.
Proof.
  intros h1 h2 h3 (?&?&?&?&?&?) (?&?&?&?&?&?).
  unfold preserves. split_and!; try (by etrans); congruence.
Qed.

Lemma preserves_grown this r' os ev h : preserves h (grown this r' os ev h).
Proof.
  unfold preserves, grown; cbn.
  split_and!; try done; by apply prefix_app_r.
Qed.

(** A query of the store with its objects keeps its state in every
    store that preserves that store. *)
Lemma preserves_state_of h h' q :
  preserves h h' → live h q → state_of h' q = state_of h q.
Proof.
  intros (Hq & Ho & Hp & _) (r & Hr & Hobj & Hprom).
  unfold state_of. rewrite Hr, (prefix_lookup _ _ _ _ Hq Hr). cbn.
  f_equal. f_equal; [f_equal |].
  - destruct (_joinedRelations r) as [o|]; cbn; [|done].
    destruct (Hobj o eq_refl) as [m Hm].
    by rewrite Hm, (prefix_lookup _ _ _ _ Ho Hm).
  - destruct (_promise r) as [p|]; cbn; [|done].
    destruct (Hprom p eq_refl) as [s Hs].
    by rewrite Hs, (prefix_lookup _ _ _ _ Hp Hs).
Qed.

Lemma preserves_live h h' q : preserves h h' → live h q → live h' q.
Proof.
  intros (Hq & Ho & Hp & _) (r & Hr & Hobj & Hprom).
  exists r. split_and!.
  - by eapply prefix_lookup.
  - intros o Ho'. destruct (Hobj o Ho') as [m Hm]. exists m.
    by eapply prefix_lookup.
  - intros p Hp'. destruct (Hprom p Hp') as [s Hs]. exists s.
    by eapply prefix_lookup.
Qed.

Lemma live_lt h q : live h q → q < length (queries h).
Proof. intros (r & Hr & _). by eapply lookup_lt_Some. Qed.

(** * Duplication *)

(** The three ways in which [_dup] runs on a query of the store. *)
Lemma dup_cases h this r :
  queries h !! this = Some r →
  (_dup this h = Ok (length (queries h)) (dup_heap this r h) ∧
   (__identity__ r = ModelQuery →
    ∀ o, _joinedRelations r = Some o → is_Some (objects h !! o))) ∨
  (∃ e h' o, _dup this h = Throw e h' ∧ preserves h h' ∧
             __identity__ r = ModelQuery ∧ _joinedRelations r = Some o ∧
             objects h !! o = None).
Proof.
  intros Hq. destruct h as [Q O P T C E]. cbn in Hq.
  unfold _dup, dup_heap, grown, clone_objects, clone_ref, joined, dup_of.
  exec. destruct (__identity__ r) eqn:Hc; unfold _take.
  - left. unfold BaseQuery_take. exec. cbn. by rewrite app_nil_r.
  - unfold ModelQuery_take, BaseQuery_take, Join_take. exec.
    destruct (_joinedRelations r) as [o|] eqn:Ho; unfold _clone.
    + destruct (O !! o) as [m|] eqn:Hm; exec.
      * left. cbn. rewrite Hm. split; [done |]. intros _ ? [= <-]. eauto.
      * right. do 3 eexists. split; [done |]. split; [|done].
        unfold preserves; cbn. split_and!; try done; by apply prefix_app_r.
    + left. exec. cbn. by rewrite app_nil_r.
Qed.

(** [_dup] on a query of the store whose joined-relations object, if
    any, is in the store: the copy is a new query. *)
Lemma dup_Ok h this r :
  queries h !! this = Some r →
  (∀ o, _joinedRelations r = Some o → is_Some (objects h !! o)) →
  _dup this h = Ok (length (queries h)) (dup_heap this r h).
Proof.
  intros Hq Hobj.
  destruct (dup_cases _ _ _ Hq) as [[? _]|(e & h' & o & _ & _ & _ & Ho & Hn)];
    [done |].
  destruct (Hobj o Ho) as [m Hm]. congruence.
Qed.

Lemma dup_no_query h this :
  queries h !! this = None → _dup this h = Throw (TypeError "not a query") h.
Proof.
  intros Hq. destruct h as [Q O P T C E]. cbn in Hq. unfold _dup. by exec.
Qed.

(** However [_dup] ends, the store it leaves preserves the store it
    found. *)
Lemma dup_preserves h this h' :
  final_heap (_dup this h) = Some h' → preserves h h'.
Proof.
  destruct (queries h !! this) as [r|] eqn:Hq.
  - destruct (dup_cases _ _ _ Hq) as [[-> _]|(e & h'' & o & -> & Hp & _)].
    + intros [= <-]. apply preserves_grown.
    + by intros [= <-].
  - rewrite dup_no_query by done. by intros [= <-].
Qed.

Lemma dup_not_Diverge h this : _dup this h ≠ Diverge.
Proof.
  destruct (queries h !! this) as [r|] eqn:Hq.
  - by destruct (dup_cases _ _ _ Hq) as [[-> _]|(e & h'' & o & -> & _)].
  - by rewrite dup_no_query.
Qed.

(** What [_dup] returns is the place after the last query of the store
    it found. *)
Lemma dup_returns h this dup h' :
  _dup this h = Ok dup h' →
  ∃ r, queries h !! this = Some r ∧
       dup = length (queries h) ∧ h' = dup_heap this r h.
Proof.
  destruct (queries h !! this) as [r|] eqn:Hq.
  - destruct (dup_cases _ _ _ Hq) as [[-> _]|(e & h'' & o & -> & _)];
      [|done].
    intros [= <- <-]. eauto.
  - by rewrite dup_no_query.
Qed.

(** The copy in the store after [_dup]. *)
Lemma dup_heap_lookup h this r :
  queries (dup_heap this r h) !! length (queries h) =
    Some (dup_of r (length (promises h)) (clone_ref h r)).
Proof. unfold dup_heap, grown; cbn. apply lookup_snoc. Qed.

Lemma dup_of_executed r p o : _executed (dup_of r p o) = false.
Proof. unfold dup_of. by destruct (__identity__ r). Qed.

Lemma dup_of_promise r p o : _promise (dup_of r p o) = Some p.
Proof. unfold dup_of. by destruct (__identity__ r). Qed.

Lemma dup_of_identity r p o : __identity__ (dup_of r p o) = __identity__ r.
Proof. unfold dup_of. by destruct (__identity__ r). Qed.

Lemma dup_heap_promise h this r :
  promises (dup_heap this r h) !! length (promises h) = Some None.
Proof. unfold dup_heap, grown; cbn. apply lookup_snoc. Qed.

(** * Table aliases *)

Lemma string_length_app (a b : string) :
  String.length (a +:+ b) = String.length a + String.length b.
Proof.
  induction a as [|x a IH]; [done |].
  rewrite JsStringFacts.app_cons. cbn. by rewrite IH.
Qed.

Lemma candidate_succ name k :
  candidate name (S k) = name +:+ "_j" +:+ pretty (S k).
Proof. reflexivity. Qed.

(** Different rounds try different names. *)
Lemma candidate_inj name : Inj (=) (=) (candidate name).
Proof.
  intros [|i] [|j] H; unfold candidate in H.
  - done.
  - apply (f_equal String.length) in H.
    rewrite !string_length_app in H. cbn in H. lia.
  - apply (f_equal String.length) in H.
    rewrite !string_length_app in H. cbn in H. lia.
  - apply String.app_inj in H. apply (String.app_inj "_j") in H.
    by apply (inj pretty) in H.
Qed.

(** The search goes through the candidates in order and stops at the
    first that is not in use. *)
Lemma alias_search_Some rounds used name k a :
  alias_search rounds used name (candidate name k) (k + 1) = Some a →
  ∃ j, k ≤ j < k + rounds ∧ a = candidate name j ∧ used a = false ∧
       ∀ i, k ≤ i < j → used (candidate name i) = true.
Proof.
  revert k. induction rounds as [|rounds IH]; intros k; cbn [alias_search];
    [done |].
  destruct (used (candidate name k)) eqn:Hu.
  - replace (name +:+ "_j" +:+ pretty (k + 1))
      with (candidate name (S k)) by (by rewrite Nat.add_1_r).
    replace (k + 1 + 1) with (S k + 1) by lia.
    intros (j & Hj & -> & Hf & Hbefore)%IH.
    exists j. split; [lia |]. split; [done |]. split; [done |].
    intros i Hi. destruct (decide (i = k)) as [->|]; [done |].
    apply Hbefore. lia.
  - intros [= <-]. exists k. split; [lia |]. split; [done |].
    split; [done |]. intros i Hi. lia.
Qed.

Lemma alias_search_None rounds used name k :
  alias_search rounds used name (candidate name k) (k + 1) = None →
  ∀ i, k ≤ i < k + rounds → used (candidate name i) = true.
Proof.
  revert k. induction rounds as [|rounds IH]; intros k; cbn [alias_search].
  - intros _ i Hi. lia.
  - destruct (used (candidate name k)) eqn:Hu; [|done].
    replace (name +:+ "_j" +:+ pretty (k + 1))
      with (candidate name (S k)) by (by rewrite Nat.add_1_r).
    replace (k + 1 + 1) with (S k + 1) by lia.
    intros H i Hi. destruct (decide (i = k)) as [->|]; [done |].
    apply (IH _ H). lia.
Qed.

(** More rounds than names in use: the search finds a name. *)
Lemma alias_search_enough rounds used name (names : list string) :
  (∀ s, used s = true → s ∈ names) →
  length names < rounds →
  is_Some (alias_search rounds used name name 1).
Proof.
  intros Hused Hlen.
  destruct (alias_search rounds used name name 1) as [a|] eqn:E; [eauto |].
  exfalso.
  pose proof (alias_search_None rounds used name 0 E) as Hall.
  assert (candidate name <$> seq 0 rounds ⊆+ names) as Hsub.
  { apply NoDup_submseteq.
    - pose proof (candidate_inj name). apply (NoDup_fmap_2 _), NoDup_seq.
    - intros s (i & -> & Hi%elem_of_seq)%list_elem_of_fmap.
      apply Hused, Hall. lia. }
  apply submseteq_length in Hsub.
  rewrite length_fmap, length_seq in Hsub. lia.
Qed.

(** The names in use in a query are its table and the aliases of its
    joined relations. *)
Lemma in_query_spec model m name :
  in_query model m name = true ↔
  name = tableName model ∨
  ∃ key joinDetails, m !! key = Some joinDetails ∧ as_ joinDetails = name.
Proof.
  unfold in_query, any. rewrite orb_true_iff, String.eqb_eq.
  rewrite existsb_exists. split.
  - intros [?|([key jd] & Hin & Heq)]; [by left | right].
    apply list_elem_of_In, elem_of_map_to_list in Hin.
    apply String.eqb_eq in Heq. eauto.
  - intros [?|(key & jd & Hm & Heq)]; [by left | right].
    exists (key, jd). split.
    + by apply list_elem_of_In, elem_of_map_to_list.
    + by apply String.eqb_eq.
Qed.

Lemma in_query_names model m name :
  in_query model m name = true →
  name ∈ tableName model :: ((λ kv, as_ kv.2) <$> map_to_list m).
Proof.
  intros [->|(key & jd & Hm & <-)]%in_query_spec; [by left | right].
  apply list_elem_of_fmap. exists (key, jd). split; [done |].
  by apply elem_of_map_to_list.
Qed.

(** [_uniqueTableAlias] never runs out of rounds. *)
Lemma alias_search_total model m name :
  is_Some (alias_search (S (S (size m))) (in_query model m) name name 1).
Proof.
  eapply alias_search_enough; [apply in_query_names |].
  cbn. rewrite length_fmap, length_map_to_list. lia.
Qed.

(** The alias found: free in the query, and the first free candidate. *)
Lemma alias_search_first model m name a :
  alias_search (S (S (size m))) (in_query model m) name name 1 = Some a →
  in_query model m a = false ∧
  ∃ j, a = candidate name j ∧
       ∀ i, i < j → in_query model m (candidate name i) = true.
Proof.
  intros (j & _ & -> & Hf & Hbefore)%(alias_search_Some _ _ _ 0).
  split; [done |]. exists j. split; [done |].
  intros i Hi. apply Hbefore. lia.
Qed.

(** * Joins *)

(** [Join#join] on a query of the store. *)
Lemma Join_join_cases h this arguments r :
  queries h !! this = Some r →
  (Join_join this arguments h =
     Ok (length (queries h))
       (grown this
          (set_joins (_joins (dup_of r (length (promises h)) (clone_ref h r))
                      ++ [arguments])
             (dup_of r (length (promises h)) (clone_ref h r)))
          (clone_objects h r) (EvDup (length (queries h))) h) ∧
   (__identity__ r = ModelQuery →
    ∀ o, _joinedRelations r = Some o → is_Some (objects h !! o))) ∨
  (∃ e h', Join_join this arguments h = Throw e h' ∧ preserves h h').
Proof.
  intros Hq. unfold Join_join. rewrite bind_eq.
  destruct (dup_cases _ _ _ Hq) as [[-> Hobj]|(e & h' & o & -> & Hp & _)];
    [left | right; eauto].
  split; [|done]. destruct h as [Q O P T C E].
  unfold dup_heap, grown. by exec.
Qed.

Lemma Join_join_no_query h this arguments :
  queries h !! this = None →
  Join_join this arguments h = Throw (TypeError "not a query") h.
Proof.
  intros Hq. unfold Join_join. by rewrite bind_eq, dup_no_query.
Qed.

(** [_tableInQuery] reads the store and leaves it as it is. *)
Lemma tableInQuery_cases h this name :
  (∃ b, _tableInQuery this name h = Ok b h) ∨
  (∃ e, _tableInQuery this name h = Throw e h).
Proof.
  destruct h as [Q O P T C E]. unfold _tableInQuery.
  destruct (Q !! this) as [r|] eqn:Hq; exec; [|by eauto].
  destruct (_model r) as [mc|]; cbn [from_option]; exec; [|by eauto].
  destruct (String.eqb name (tableName mc)); cbn [orb]; exec; [by eauto |].
  destruct (_joinedRelations r) as [o|]; cbn [from_option]; exec;
    [|by eauto].
  destruct (O !! o) as [m|] eqn:Hm; exec; by eauto.
Qed.

Lemma tableInQuery_Ok h this r mc name :
  queries h !! this = Some r →
  _model r = Some mc →
  (∀ o, _joinedRelations r = Some o → is_Some (objects h !! o)) →
  _tableInQuery this name h = Ok (in_query mc (default ∅ (joined h r)) name) h.
Proof.
  intros Hq Hmc Hobj. destruct h as [Q O P T C E]. cbn in Hq, Hobj.
  unfold _tableInQuery, in_query, joined. exec. rewrite Hmc.
  cbn [from_option]. exec.
  destruct (String.eqb name (tableName mc)); cbn [orb]; exec; [done |].
  destruct (_joinedRelations r) as [o|]; cbn [from_option mbind option_bind];
    exec; [|done].
  destruct (Hobj o eq_refl) as [m Hm]. cbn in Hm. by exec.
Qed.

(** The loop of [_uniqueTableAlias] computes [alias_search]. *)
Lemma uniqueTableAlias_loop_Ok h this r mc rounds name alias n :
  queries h !! this = Some r →
  _model r = Some mc →
  (∀ o, _joinedRelations r = Some o → is_Some (objects h !! o)) →
  uniqueTableAlias_loop rounds this name alias n h =
    match alias_search rounds (in_query mc (default ∅ (joined h r)))
            name alias n with
    | Some a => Ok a h
    | None => Diverge
    end.
Proof.
  intros Hq Hmc Hobj. revert alias n.
  induction rounds as [|rounds IH]; intros alias n; cbn; [done |].
  rewrite bind_eq, (tableInQuery_Ok _ _ _ _ _ Hq Hmc Hobj).
  destruct (in_query mc _ alias); [apply IH | done].
Qed.

Lemma names_in_query_Ok h this r :
  queries h !! this = Some r →
  (∀ o, _joinedRelations r = Some o → is_Some (objects h !! o)) →
  names_in_query this h = Ok (S (size (default ∅ (joined h r)))) h.
Proof.
  intros Hq Hobj. destruct h as [Q O P T C E]. cbn in Hq, Hobj.
  unfold names_in_query, joined. exec.
  destruct (_joinedRelations r) as [o|]; cbn [from_option mbind option_bind];
    exec; [|done].
  destruct (Hobj o eq_refl) as [m Hm]. cbn in Hm. by exec.
Qed.

(** [_uniqueTableAlias] returns: the loop always has rounds left. *)
Lemma uniqueTableAlias_Ok h this r mc name :
  queries h !! this = Some r →
  _model r = Some mc →
  (∀ o, _joinedRelations r = Some o → is_Some (objects h !! o)) →
  ∃ a, alias_search (S (S (size (default ∅ (joined h r)))))
         (in_query mc (default ∅ (joined h r))) name name 1 = Some a ∧
       _uniqueTableAlias this name h = Ok a h.
Proof.
  intros Hq Hmc Hobj.
  destruct (alias_search_total mc (default ∅ (joined h r)) name) as [a Ha].
  exists a. split; [done |].
  unfold _uniqueTableAlias.
  rewrite bind_eq, (names_in_query_Ok _ _ _ Hq Hobj).
  by rewrite (uniqueTableAlias_loop_Ok _ _ _ _ _ _ _ _ Hq Hmc Hobj), Ha.
Qed.

(** In every store, [_uniqueTableAlias] returns or throws, and leaves
    the store as it is. *)
Lemma uniqueTableAlias_cases h this name :
  (∃ a, _uniqueTableAlias this name h = Ok a h) ∨
  (∃ e, _uniqueTableAlias this name h = Throw e h).
Proof.
  destruct (queries h !! this) as [r|] eqn:Hq.
  - destruct (decide (is_Some (_joinedRelations r ≫= λ o,
        match objects h !! o with None => Some () | Some _ => None end)))
      as [[[] Hd]|Hd].
    + right. destruct (_joinedRelations r) as [o|] eqn:Ho; [|done].
      cbn in Hd. destruct (objects h !! o) as [m|] eqn:Hm; [done |].
      destruct h as [Q O P T C E]. cbn in Hq, Hm.
      unfold _uniqueTableAlias, names_in_query. exec. rewrite Ho.
      cbn [from_option]. exec. eauto.
    + assert (∀ o, _joinedRelations r = Some o → is_Some (objects h !! o))
        as Hobj.
      { intros o Ho. rewrite Ho in Hd. cbn in Hd.
        destruct (objects h !! o); [eauto |]. exfalso. apply Hd. eauto. }
      destruct (_model r) as [mc|] eqn:Hmc.
      * destruct (uniqueTableAlias_Ok _ _ _ _ name Hq Hmc Hobj)
          as (a & _ & ->). eauto.
      * right. unfold _uniqueTableAlias.
        rewrite bind_eq, (names_in_query_Ok _ _ _ Hq Hobj).
        cbn [uniqueTableAlias_loop]. rewrite bind_eq.
        destruct h as [Q O P T C E]. cbn in Hq.
        unfold _tableInQuery. exec. rewrite Hmc. cbn [from_option]. exec.
        eauto.
  - right. destruct h as [Q O P T C E]. cbn in Hq.
    unfold _uniqueTableAlias, names_in_query. exec. eauto.
Qed.

Lemma preserves_lengths h h' :
  preserves h h' →
  length (queries h) ≤ length (queries h') ∧
  length (objects h) ≤ length (objects h').
Proof. intros (Hq & Ho & _). split; by apply prefix_length. Qed.

(** Deriving from a derived query derives from the first query. *)
Lemma derives_bind h (m : M nat) (f : nat → M nat) :
  derives h (m h) →
  (∀ q' h', m h = Ok q' h' → derives h' (f q' h')) →
  derives h ((m ≫= f) h).
Proof.
  intros Hm Hf. rewrite bind_eq.
  destruct (m h) as [q' h'| |] eqn:E; [|done..].
  destruct Hm as (Hp & Hq' & Hfresh).
  specialize (Hf q' h' eq_refl).
  destruct (f q' h') as [q'' h''| |]; cbn [derives] in *;
    [|by etrans |done].
  destruct Hf as (Hp' & Hq'' & Hfresh').
  destruct (preserves_lengths _ _ Hp) as [Hlq Hlo].
  split; [by etrans |]. split; [lia |].
  intros r' o' Hr' Ho'. specialize (Hfresh' r' o' Hr' Ho'). lia.
Qed.

Lemma derives_dup h this : derives h (_dup this h).
Proof.
  destruct (queries h !! this) as [r|] eqn:Hq.
  - destruct (dup_cases _ _ _ Hq) as [[-> _]|(e & h' & o & -> & Hp & _)];
      [|done].
    cbn [derives]. split; [apply preserves_grown |]. split; [done |].
    intros r' o'. rewrite dup_heap_lookup. intros [= <-].
    unfold dup_of, clone_ref. destruct (__identity__ r); [done |].
    cbn. destruct (_joinedRelations r); cbn; [|done]. by intros [= <-].
  - by rewrite dup_no_query.
Qed.

(** The end of [_joinRelation]: the join, and the entry written into the
    joined-relations object of the new query. *)
Lemma joinRelation_tail_derives h this arguments name joinDetails :
  derives h
    ((dup ← Join_join this arguments;
      d ← get_query dup;
      match _joinedRelations d with
      | Some o => object_set o name joinDetails
      | None => throw (TypeError "_joinedRelations is undefined")
      end;;
      mret dup) h).
Proof.
  destruct (queries h !! this) as [r|] eqn:Hq;
    [|by rewrite bind_eq, Join_join_no_query].
  rewrite bind_eq.
  destruct (Join_join_cases h this arguments r Hq)
    as [[-> Hobj]|(e & h' & -> & Hp)]; [|done].
  destruct h as [Q O P T C E]. unfold grown. cbn in Hq, Hobj. exec.
  unfold dup_of, clone_ref, clone_objects, joined.
  destruct (__identity__ r) eqn:Hc; cbn [_joinedRelations set_joins].
  - exec. cbn. unfold preserves; cbn.
    split_and!; try done; by apply prefix_app_r.
  - destruct (_joinedRelations r) as [o|] eqn:Ho; cbn [mbind option_bind].
    + destruct (Hobj eq_refl o eq_refl) as [m Hm]. heap_simpl.
      cbn [mbind option_bind]. rewrite Hm.
      change (option_list (Some m)) with [m]. exec.
      cbn [derives]. heap_simpl. split; [|split; [done |]].
      * unfold preserves; cbn.
        split_and!; try done; by apply prefix_app_r.
      * intros r' o'. rewrite lookup_snoc. intros [= <-]. cbn.
        by intros [= <-].
    + exec. cbn. unfold preserves; cbn.
      split_and!; try done; by apply prefix_app_r.
Qed.

(** [_joinRelation] derives a query. *)
Lemma joinRelation_derives h this name through relation :
  derives h (_joinRelation this name through relation h).
Proof.
  unfold _joinRelation. rewrite bind_eq.
  destruct (queries h !! this) as [r|] eqn:Hq; unfold get_query at 1;
    rewrite Hq; [|done].
  rewrite bind_eq.
  assert (∀ k : option JoinDetails → M nat,
    (∀ v, derives h (k v h)) →
    derives h
      (match
         (if truthy through then
            match _joinedRelations r with
            | Some o => m ← get_object o; mret (m !! default "" through)
            | None => throw (TypeError "_joinedRelations is undefined")
            end
          else mret None) h
       with
       | Ok a h' => k a h'
       | Throw e h' => Throw e h'
       | Diverge => Diverge
       end)) as Hthrough.
  { intros k Hk. destruct (truthy through); [|by rewrite ret_eq].
    destruct (_joinedRelations r) as [o|]; [|done].
    rewrite bind_eq. unfold get_object.
    destruct (objects h !! o); [by rewrite ret_eq | done]. }
  apply Hthrough. intros v. rewrite bind_eq.
  destruct (tableInQuery_cases h this (tableName (relatedModelClass relation)))
    as [[b ->]|[e ->]]; [|done].
  rewrite bind_eq. destruct b.
  - rewrite bind_eq.
    destruct (uniqueTableAlias_cases h this (_name relation))
      as [[a ->]|[e ->]]; [|done].
    rewrite ret_eq. apply joinRelation_tail_derives.
  - rewrite ret_eq. apply joinRelation_tail_derives.
Qed.

(** [_joinRelation] on a model query with a model and a
    joined-relations object: it returns, and this is the store it
    leaves. *)
Lemma joinRelation_Ok h this r mc o m name through relation :
  queries h !! this = Some r →
  __identity__ r = ModelQuery →
  _model r = Some mc →
  _joinedRelations r = Some o →
  objects h !! o = Some m →
  ∃ alias, join_alias mc m relation = Some alias ∧
    _joinRelation this name through relation h =
      Ok (length (queries h))
        (joinRelation_heap this r mc m name through relation alias h).
Proof.
  intros Hq Hc Hmc Ho Hm.
  assert (∀ o', _joinedRelations r = Some o' → is_Some (objects h !! o'))
    as Hobj by (intros ? [= <-]%(eq_trans (eq_sym Ho)); eauto).
  assert (joined h r = Some m) as Hj by (unfold joined; by rewrite Ho).
  unfold _joinRelation, join_alias, joinRelation_heap, join_descriptor,
    join_argument, through_table.
  set (joinTable := tableName (relatedModelClass relation)).
  assert (∃ alias,
    (if in_query mc m joinTable then
       alias_search (S (S (size m))) (in_query mc m)
         (_name relation) (_name relation) 1
     else Some joinTable) = Some alias ∧
    (if in_query mc m joinTable then
       alias ← _uniqueTableAlias this (_name relation);
       mret (VAlias joinTable alias, alias)
     else mret (VString joinTable, joinTable)) h =
    Ok (if in_query mc m joinTable then VAlias joinTable alias
        else VString joinTable, alias) h) as (alias & Halias & Hchoice).
  { destruct (in_query mc m joinTable); [|by eauto].
    destruct (uniqueTableAlias_Ok _ _ _ _ (_name relation) Hq Hmc Hobj)
      as (a & Ha & Hu). rewrite Hj in Ha. cbn in Ha.
    exists a. split; [done |]. by rewrite bind_eq, Hu. }
  exists alias. split; [done |].
  rewrite bind_eq. unfold get_query at 1. rewrite Hq.
  rewrite bind_eq.
  assert ((if truthy through then
             match _joinedRelations r with
             | Some o => m ← get_object o; mret (m !! default "" through)
             | None => throw (TypeError "_joinedRelations is undefined")
             end
           else mret None) h =
          Ok (if truthy through then m !! default "" through else None) h)
    as ->.
  { destruct (truthy through); [|done]. rewrite Ho, bind_eq.
    unfold get_object. by rewrite Hm. }
  rewrite bind_eq, (tableInQuery_Ok _ _ _ _ _ Hq Hmc Hobj), Hj.
  cbn [default from_option]. change (id m) with m.
  rewrite bind_eq, Hchoice.
  rewrite bind_eq.
  destruct (Join_join_cases h this
    [if in_query mc m joinTable then VAlias joinTable alias
     else VString joinTable; VString "inner";
     VCondition (JoinCondition relation
       (from_option as_ (tableName (modelClass relation))
          (if truthy through then m !! default "" through else None))
       alias)] r Hq)
    as [[-> _]|(e & h' & Hthrow & _)].
  - destruct h as [Q O P T C E]. unfold grown. cbn in *. exec.
    unfold dup_of, clone_ref, clone_objects. rewrite Hc, Ho, Hj.
    cbn. exec. by cbn.
  - exfalso. unfold Join_join in Hthrow.
    rewrite bind_eq, (dup_Ok _ _ _ Hq Hobj) in Hthrow.
    destruct h as [Q O P T C E]. unfold dup_heap, grown in Hthrow.
    revert Hthrow. by exec.
Qed.

(** * Chaining operations derive queries *)

Lemma derives_weaken h0 h o :
  preserves h0 h → derives h o → derives h0 o.
Proof.
  intros Hp. destruct (preserves_lengths _ _ Hp) as [Hlq Hlo].
  destruct o as [q' h'| |]; cbn [derives]; [|by etrans |done].
  intros (Hp' & Hq' & Hfresh). split; [by etrans |]. split; [lia |].
  intros r' o' Hr' Ho'. specialize (Hfresh r' o' Hr' Ho'). lia.
Qed.

Lemma get_query_cases h q :
  (∃ r, queries h !! q = Some r ∧ get_query q h = Ok r h) ∨
  (∃ e, get_query q h = Throw e h).
Proof.
  unfold get_query. destruct (queries h !! q) as [r|]; eauto.
Qed.

Lemma dup_of_joinedRelations (r : Query) (p : nat) (o : option nat)
    (o' : nat) :
  _joinedRelations (dup_of r p (o ≫= λ _ : nat, Some o')) = Some o' ∨
  _joinedRelations (dup_of r p (o ≫= λ _ : nat, Some o')) = None.
Proof.
  unfold dup_of. destruct (__identity__ r); [by right |].
  destruct o; [by left | by right].
Qed.

Lemma Join_join_derives h this arguments :
  derives h (Join_join this arguments h).
Proof.
  destruct (queries h !! this) as [r|] eqn:Hq;
    [|by rewrite Join_join_no_query].
  destruct (Join_join_cases h this arguments r Hq)
    as [[-> _]|(e & h' & -> & Hp)]; [|done].
  cbn [derives]. split; [apply preserves_grown |]. split; [done |].
  intros r' o'. unfold grown; cbn [queries]. rewrite lookup_snoc.
  intros [= <-]. cbn [_joinedRelations set_joins]. unfold clone_ref.
  destruct (dup_of_joinedRelations r (length (promises h))
              (_joinedRelations r) (length (objects h))) as [-> | ->];
    [by intros [= <-] | done].
Qed.

Section ChainFacts.

Variable mixinInit : QueryClass → QueryClass → Query → Query.
Variable _create_super : list JsValue → Query → Query.
Variable _lookupRelation : Query → string → Error + Relation.
Variable _associationForEach : JsValue → Error + list string.

(** The [init] of a mixin is called without arguments: it puts no
    object of the store into the new query. *)
Hypothesis mixinInit_joinedRelations :
  ∀ current type, _joinedRelations (mixinInit current type (blank type)) = None.

Lemma joinAssociation_each_derives h0 h this assocs dup through :
  derives h0 (Ok dup h) →
  derives h0 (joinAssociation_each _lookupRelation this assocs dup through h).
Proof.
  revert h dup through.
  induction assocs as [|assoc rest IH]; intros h dup through Hd;
    cbn [joinAssociation_each]; [done |].
  pose proof Hd as (Hp & _).
  rewrite bind_eq.
  destruct (get_query_cases h this) as [(r & Hq & ->)|[e ->]]; [|done].
  rewrite bind_eq.
  destruct (_lookupRelation r assoc) as [e|relation]; [done |].
  rewrite ret_eq, bind_eq.
  pose proof (joinRelation_derives h dup assoc through relation) as Hj.
  destruct (_joinRelation dup assoc through relation h) as [dup' h'| |] eqn:E;
    [apply IH | |]; by apply (derives_weaken h0 h).
Qed.

Lemma joinAssociation_derives h this association :
  derives h
    (_joinAssociation _lookupRelation _associationForEach this association h).
Proof.
  unfold _joinAssociation. rewrite bind_eq.
  pose proof (derives_dup h this) as Hd.
  destruct (_dup this h) as [dup h'| |] eqn:E; [|done..].
  destruct (_associationForEach association) as [e|assocs]; [by destruct Hd |].
  by apply joinAssociation_each_derives.
Qed.

Lemma join_derives h this arguments :
  derives h (join _lookupRelation _associationForEach this arguments h).
Proof.
  unfold join. destruct arguments as [|a [|b rest]];
    [apply Join_join_derives | apply joinAssociation_derives
    | apply Join_join_derives].
Qed.

Lemma spawn_derives h this type arguments :
  derives h (_spawn mixinInit _create_super this type arguments h).
Proof.
  unfold _spawn. destruct h as [Q O P T C E].
  destruct (Q !! this) as [r|] eqn:Hq; exec; [|done].
  pose proof (mixinInit_joinedRelations (__identity__ r) type) as Hinit.
  set (b := mixinInit (__identity__ r) type (blank type)) in *.
  destruct (__identity__ r) eqn:Hc; unfold _take.
  - unfold BaseQuery_take. exec. destruct type; unfold _create; exec.
    + cbn [derives]. heap_simpl. split; [|split; [done |]].
      * unfold preserves; cbn. split_and!; try done; by apply prefix_app_r.
      * intros r' o'. rewrite lookup_snoc. intros [= <-]. cbn. by rewrite Hinit.
    + cbn [derives]. heap_simpl. split; [|split; [done |]].
      * unfold preserves; cbn. split_and!; try done; by apply prefix_app_r.
      * intros r' o'. rewrite lookup_snoc. intros [= <-]. cbn.
        by intros [= <-].
  - unfold ModelQuery_take, BaseQuery_take, Join_take. exec.
    destruct (_joinedRelations r) as [o|] eqn:Ho; unfold _clone.
    + destruct (O !! o) as [m|] eqn:Hm; exec.
      * destruct type; unfold _create; exec.
        -- cbn [derives]. heap_simpl. split; [|split; [done |]].
           ++ unfold preserves; cbn.
              split_and!; try done; by apply prefix_app_r.
           ++ intros r' o'. rewrite lookup_snoc. intros [= <-]. cbn.
              by intros [= <-].
        -- rewrite <- (assoc_L (++) O [m] [∅]).
           replace (length (O ++ [m])) with (S (length O))
             by (rewrite length_app; cbn; lia).
           cbn [derives]. heap_simpl. split; [|split; [done |]].
           ++ unfold preserves; cbn.
              split_and!; try done; by apply prefix_app_r.
           ++ intros r' o'. rewrite lookup_snoc. intros [= <-]. cbn.
              intros [= <-]. lia.
      * cbn [derives]. unfold preserves; cbn.
        split_and!; try done; by apply prefix_app_r.
    + exec. destruct type; unfold _create; exec.
      * cbn [derives]. heap_simpl. split; [|split; [done |]].
        -- unfold preserves; cbn.
           split_and!; try done; by apply prefix_app_r.
        -- intros r' o'. rewrite lookup_snoc. by intros [= <-].
      * cbn [derives]. heap_simpl. split; [|split; [done |]].
        -- unfold preserves; cbn.
           split_and!; try done; by apply prefix_app_r.
        -- intros r' o'. rewrite lookup_snoc. intros [= <-]. cbn.
           by intros [= <-].
Qed.

Lemma run_op_derives op h q :
  derives h
    (run_op mixinInit _create_super _lookupRelation _associationForEach
       op q h).
Proof.
  destruct op; cbn [run_op];
    [apply join_derives | apply joinAssociation_derives
    | apply derives_dup | apply derives_dup | apply spawn_derives].
Qed.

End ChainFacts.

(** * Immutability of queries *)

Section Immutability.

Variable render : option ModelClass → list (list JsValue) → Error + Statement.
Variable mixinInit : QueryClass → QueryClass → Query → Query.
Variable _create_super : list JsValue → Query → Query.
Variable _lookupRelation : Query → string → Error + Relation.
Variable _associationForEach : JsValue → Error + list string.

(** The statement of a query is a function of its properties. *)
Lemma statement_same_query h h' q :
  queries h' !! q = queries h !! q →
  result (statement render q h') = result (statement render q h).
Proof.
  intros Hq. unfold statement, _statement. rewrite !bind_eq.
  unfold get_query. rewrite Hq.
  destruct (queries h !! q) as [r|]; [|done].
  destruct (__identity__ r); [done |].
  by destruct (render (_model r) (_joins r)).
Qed.

(** Writing into an object that was not in the store [h] leaves the
    state of the queries of [h] as it is. *)
Lemma object_set_new h h' h'' q o' key v :
  preserves h h' → live h q →
  length (objects h) ≤ o' →
  object_set o' key v h' = Ok () h'' →
  state_of h'' q = state_of h q.
Proof.
  intros Hp Hl Ho' Hset.
  rewrite <- (preserves_state_of h h' q Hp Hl).
  apply (preserves_live _ _ _ Hp) in Hl as Hl'.
  destruct Hl as (r & Hr & Hobj & _).
  destruct Hp as (Hq & _).
  pose proof (prefix_lookup _ _ _ _ Hq Hr) as Hr'.
  unfold object_set in Hset.
  destruct (objects h' !! o') as [m|]; [|done].
  injection Hset as <-. unfold state_of. cbn. rewrite Hr'. cbn.
  do 3 f_equal. destruct (_joinedRelations r) as [o|] eqn:E; [|done].
  cbn. apply list_lookup_insert_ne.
  destruct (Hobj o eq_refl) as [m' Hm']. apply lookup_lt_Some in Hm'. lia.
Qed.

End Immutability.

(** * Dispatch of [join] *)

Section JoinDispatch.

Variable _lookupRelation : Query → string → Error + Relation.
Variable _associationForEach : JsValue → Error + list string.

(** C6: [join] with exactly one argument joins by association name;
    with two or more arguments it is the superclass join, whatever the
    first argument is and whether or not it names an association. *)
Theorem join_dispatches_on_argument_count
    (this : nat) (association a b : JsValue) (rest : list JsValue) :
  join _lookupRelation _associationForEach this [association] =
    _joinAssociation _lookupRelation _associationForEach this association ∧
  join _lookupRelation _associationForEach this (a :: b :: rest) =
    Join_join this (a :: b :: rest).
Proof. split; reflexivity. Qed.

End JoinDispatch.

(** In the example, [author] names an association of the articles. With
    one argument it is joined as the association, on the users table;
    with three arguments it is joined as a table called [author], and no
    association is recorded. *)
Lemma join_author_one_and_three_arguments :
  ∃ q1 h1 r1 q3 h3 r3,
    join Blog._lookupRelation Blog._associationForEach 0
      [VString "author"] Blog.articles_heap = Ok q1 h1 ∧
    queries h1 !! q1 = Some r1 ∧
    _joins r1 = [[VString "users"; VString "inner";
                  VCondition (JoinCondition Blog.author "articles" "users")]] ∧
    joined h1 r1 = Some Blog.author_joined ∧
    join Blog._lookupRelation Blog._associationForEach 0
      [VString "author"; VString "inner"; VCondition (RawCondition "on")]
      Blog.articles_heap = Ok q3 h3 ∧
    queries h3 !! q3 = Some r3 ∧
    _joins r3 = [[VString "author"; VString "inner";
                  VCondition (RawCondition "on")]] ∧
    joined h3 r3 = Some ∅.
Proof.
  do 6 eexists.
  split; [vm_compute; reflexivity |].
  split; [vm_compute; reflexivity |].
  split; [vm_compute; reflexivity |].
  split; [vm_compute; reflexivity |].
  split; [vm_compute; reflexivity |].
  split; [vm_compute; reflexivity |].
  split; vm_compute; reflexivity.
Qed.

(** * Statements and execution *)

Section Execution.

Variable render : option ModelClass → list (list JsValue) → Error + Statement.

(** C8: on a query of the abstract base class, reading [statement]
    throws the error of [BaseQuery#_statement]; the error reaches the
    caller, also through the shortcuts [sql] and [args], and the store
    is left as it was. *)
Theorem base_statement_throws (h : Heap) (q : nat) (r : Query) :
  queries h !! q = Some r →
  __identity__ r = BaseQuery →
  statement render q h =
    Throw (JsError "BaseQuery cannot be used directly.") h ∧
  BaseQuery_sql render q h =
    Throw (JsError "BaseQuery cannot be used directly.") h ∧
  BaseQuery_args render q h =
    Throw (JsError "BaseQuery cannot be used directly.") h.
Proof.
  intros Hq Hc.
  assert (statement render q h =
          Throw (JsError "BaseQuery cannot be used directly.") h) as Hs.
  { unfold statement, _statement. rewrite bind_eq. unfold get_query.
    by rewrite Hq, Hc. }
  unfold BaseQuery_sql, BaseQuery_args. by rewrite !bind_eq, Hs.
Qed.

Lemma statement_Ok h q r stmt :
  queries h !! q = Some r →
  __identity__ r = ModelQuery →
  render (_model r) (_joins r) = inr stmt →
  statement render q h = Ok stmt h.
Proof.
  intros Hq Hc Hr. unfold statement, _statement. rewrite bind_eq.
  unfold get_query. by rewrite Hq, Hc, Hr.
Qed.

(** A statement that was rendered came from a concrete query. *)
Lemma statement_Ok_inv h q stmt :
  result (statement render q h) = Some (inr stmt) →
  ∃ r, queries h !! q = Some r ∧ __identity__ r = ModelQuery ∧
       render (_model r) (_joins r) = inr stmt.
Proof.
  unfold statement, _statement. rewrite bind_eq. unfold get_query.
  destruct (queries h !! q) as [r|]; [|done].
  destruct (__identity__ r) eqn:Hc; [done |].
  destruct (render (_model r) (_joins r)) as [e|s] eqn:E; [done |].
  cbn. intros [= <-]. eauto.
Qed.

(** The first [execute] of a query whose statement renders: the flag is
    set and the chain is scheduled. *)
Lemma execute_first h q r stmt :
  queries h !! q = Some r →
  _executed r = false →
  __identity__ r = ModelQuery →
  render (_model r) (_joins r) = inr stmt →
  execute render q h =
    Ok (returned r)
      (set_tasks (tasks h ++ [Scheduled q stmt (_promise r)])
         (set_queries (<[q := set_executed true r]> (queries h)) h)).
Proof.
  intros Hq He Hc Hr. destruct h as [Q O P T C E]. cbn in Hq.
  pose proof (lookup_lt_Some _ _ _ Hq) as Hlt.
  unfold execute, BluebirdPromise_method, _execute, statement, _statement,
    returned.
  exec. rewrite He. cbn [negb]. exec.
  rewrite list_lookup_insert_eq by done. cbn [__identity__ set_executed].
  rewrite Hc. cbn [_model _joins set_executed]. rewrite Hr. exec.
  rewrite list_lookup_insert_eq by done. exec.
  rewrite list_lookup_insert_eq by done. cbn [_promise set_executed].
  by destruct (_promise r).
Qed.

(** The first [execute] of a query whose statement does not render:
    the flag is set, and the promise handed back is rejected at once. *)
Lemma execute_first_throws h q r :
  queries h !! q = Some r →
  _executed r = false →
  ∀ e, result (statement render q h) = Some (inl e) →
  execute render q h =
    Ok (RejectedWith e)
      (set_queries (<[q := set_executed true r]> (queries h)) h).
Proof.
  intros Hq He e. destruct h as [Q O P T C E]. cbn in Hq.
  pose proof (lookup_lt_Some _ _ _ Hq) as Hlt.
  unfold execute, BluebirdPromise_method, _execute, statement, _statement.
  exec. rewrite He. cbn [negb]. exec.
  rewrite list_lookup_insert_eq by done. cbn [__identity__ set_executed].
  destruct (__identity__ r).
  - exec. cbn. by intros [= <-].
  - cbn [_model _joins set_executed].
    destruct (render (_model r) (_joins r)) as [e'|s]; exec; cbn; [|done].
    by intros [= <-].
Qed.

(** Every later [execute]: nothing happens. *)
Lemma execute_again h q r :
  queries h !! q = Some r →
  _executed r = true →
  execute render q h = Ok (returned r) h.
Proof.
  intros Hq He. destruct h as [Q O P T C E]. cbn in Hq.
  unfold execute, BluebirdPromise_method, returned.
  exec. rewrite He. cbn [negb]. exec.
  by destruct (_promise r).
Qed.

Lemma execute_no_query h q :
  queries h !! q = None →
  execute render q h = Ok (RejectedWith (TypeError "not a query")) h.
Proof.
  intros Hq. destruct h as [Q O P T C E]. cbn in Hq.
  unfold execute, BluebirdPromise_method. by exec.
Qed.

End Execution.

(** The abstract query of the example cannot be rendered. *)
Lemma base_statement_throws_witness :
  statement Blog.render 0 Blog.base_heap =
    Throw (JsError "BaseQuery cannot be used directly.") Blog.base_heap ∧
  BaseQuery_sql Blog.render 0 Blog.base_heap =
    Throw (JsError "BaseQuery cannot be used directly.") Blog.base_heap ∧
  BaseQuery_args Blog.render 0 Blog.base_heap =
    Throw (JsError "BaseQuery cannot be used directly.") Blog.base_heap.
Proof.
  apply (base_statement_throws Blog.render Blog.base_heap 0
           {| __identity__ := BaseQuery; _adapter := Some 0;
              _executed := false; _promise := Some 0;
              _model := None; _joins := [];
              _joinedRelations := None |}).
  - reflexivity.
  - reflexivity.
Defined.

(** * Cloning *)

Section Clone.

Variable render : option ModelClass → list (list JsValue) → Error + Statement.

Lemma dup_of_render r p o stmt :
  __identity__ r = ModelQuery →
  render (_model r) (_joins r) = inr stmt →
  render (_model (dup_of r p o)) (_joins (dup_of r p o)) = inr stmt.
Proof. intros Hc Hr. unfold dup_of. by rewrite Hc. Qed.

(** The copy has the statement of the query it was made from. *)
Lemma statement_of_dup h q r :
  queries h !! q = Some r →
  result (statement render (length (queries h)) (dup_heap q r h)) =
  result (statement render q h).
Proof.
  intros Hq. unfold statement, _statement. rewrite !bind_eq.
  unfold get_query. rewrite dup_heap_lookup, Hq.
  rewrite dup_of_identity. unfold dup_of.
  destruct (__identity__ r); [done |]. cbn [_model _joins].
  by destruct (render (_model r) (_joins r)).
Qed.

Lemma statement_result h q : result (statement render q h) ≠ None.
Proof.
  unfold statement, _statement. rewrite bind_eq. unfold get_query.
  destruct (queries h !! q) as [r|]; [|done].
  destruct (__identity__ r); [done |].
  by destruct (render (_model r) (_joins r)).
Qed.

(** C7, as the code has it: [clone] on a query that has an adapter and
    whose statement renders returns a new query with the same adapter,
    whose executed flag is false and whose promise is new and pending,
    whatever the state of the query it was called on, which stays as it
    is. Executing the clone is a first execution: it hands back that
    pending promise and schedules a chain which, when it runs, calls the
    adapter with the statement of the query; and what the adapter
    answers then is what the promise of the clone is settled with. *)
Theorem clone_resets_cached_result
    (h : Heap) (q a : nat) (r : Query) (stmt : Statement) (s : Settlement) :
  live h q →
  queries h !! q = Some r →
  __identity__ r = ModelQuery →
  _adapter r = Some a →
  render (_model r) (_joins r) = inr stmt →
  ∃ q' h' r' p',
    clone q h = Ok q' h' ∧
    queries h !! q' = None ∧
    queries h' !! q' = Some r' ∧
    _adapter r' = Some a ∧
    _executed r' = false ∧
    _promise r' = Some p' ∧
    promises h !! p' = None ∧
    promises h' !! p' = Some None ∧
    adapterCalls h' = adapterCalls h ∧
    state_of h' q = state_of h q ∧
    ∃ h'',
      execute render q' h' = Ok (Follows p') h'' ∧
      adapterCalls h'' = adapterCalls h ∧
      adapterCalls (run_chain (length (tasks h')) h'') =
        adapterCalls h ++ [(q', stmt)] ∧
      observe (adapter_settles (length (tasks h')) s
                 (run_chain (length (tasks h')) h''))
        (Follows p') = Some s.
Proof.
  intros Hl Hr Hc Ha Hrender.
  assert (∀ o, _joinedRelations r = Some o → is_Some (objects h !! o))
    as Hobj.
  { destruct Hl as (r0 & Hr0 & Hobj & _).
    by assert (r0 = r) as -> by congruence. }
  exists (length (queries h)), (dup_heap q r h),
    (dup_of r (length (promises h)) (clone_ref h r)), (length (promises h)).
  split; [by apply dup_Ok |].
  split; [by apply lookup_ge_None |].
  split; [apply dup_heap_lookup |].
  split; [unfold dup_of; by rewrite Hc |].
  split; [apply dup_of_executed |].
  split; [apply dup_of_promise |].
  split; [by apply lookup_ge_None |].
  split; [apply dup_heap_promise |].
  split; [done |].
  split; [apply preserves_state_of; [apply preserves_grown | done] |].
  eexists. split.
  { rewrite (execute_first render _ _ _ stmt (dup_heap_lookup h q r)).
    - unfold returned. by rewrite dup_of_promise.
    - apply dup_of_executed.
    - by rewrite dup_of_identity.
    - by apply dup_of_render. }
  split; [done |].
  unfold run_chain. heap_simpl. cbn [tasks dup_heap grown].
  rewrite lookup_snoc. heap_simpl.
  split; [by cbn [adapterCalls dup_heap grown] |].
  unfold adapter_settles. heap_simpl. rewrite insert_snoc, lookup_snoc.
  unfold settle. heap_simpl.
  cbn [promises dup_heap grown]. rewrite lookup_snoc.
  unfold observe. heap_simpl. by rewrite insert_snoc, lookup_snoc.
Qed.

End Clone.

(** The articles query of the example, executed and settled, and then
    cloned: the clone is the query 1 with the pending promise 1; its
    execution sends the statement to the adapter once more, and the
    second answer is the outcome of the clone. *)
Lemma clone_resets_cached_result_witness :
  let settled :=
    adapter_settles 0 (Fulfilled {| rows := []; fields := [] |})
      (run_chain 0 (run Blog.render [CallExecute 0] Blog.articles_heap).2) in
  let stmt := {| sql := "SELECT * FROM articles"; args := [] |} in
  let s := Fulfilled {| rows := [["1"]]; fields := ["id"] |} in
  promises settled !! 0 =
    Some (Some (Fulfilled {| rows := []; fields := [] |})) ∧
  ∃ q' h' r' p',
    clone 0 settled = Ok q' h' ∧
    queries settled !! q' = None ∧
    queries h' !! q' = Some r' ∧
    _adapter r' = Some 0 ∧
    _executed r' = false ∧
    _promise r' = Some p' ∧
    promises settled !! p' = None ∧
    promises h' !! p' = Some None ∧
    adapterCalls h' = adapterCalls settled ∧
    state_of h' 0 = state_of settled 0 ∧
    ∃ h'',
      execute Blog.render q' h' = Ok (Follows p') h'' ∧
      adapterCalls h'' = adapterCalls settled ∧
      adapterCalls (run_chain (length (tasks h')) h'') =
        adapterCalls settled ++ [(q', stmt)] ∧
      observe (adapter_settles (length (tasks h')) s
                 (run_chain (length (tasks h')) h''))
        (Follows p') = Some s.
Proof.
  intros settled stmt s. split; [reflexivity |].
  apply (clone_resets_cached_result Blog.render settled 0 0
           {| __identity__ := ModelQuery; _adapter := Some 0;
              _executed := true; _promise := Some 0;
              _model := Some Blog.Article; _joins := [];
              _joinedRelations := Some 0 |} stmt s).
  - eexists. split; [reflexivity |]. split.
    + intros o [= <-]. eexists. reflexivity.
    + intros p [= <-]. eexists. reflexivity.
  - reflexivity.
  - reflexivity.
  - reflexivity.
  - reflexivity.
Defined.

(** * Cloning a query that cannot be rendered *)

(** In a store of abstract queries in which nothing is scheduled, no
    action schedules anything or reaches the adapter. *)
Lemma abstract_store_step render a h :
  Forall (λ r, __identity__ r = BaseQuery) (queries h) →
  tasks h = [] →
  Forall (λ r, __identity__ r = BaseQuery) (queries (step render a h).2) ∧
  tasks (step render a h).2 = [] ∧
  adapterCalls (step render a h).2 = adapterCalls h.
Proof.
  intros Hall Htasks.
  assert (∀ q, Forall (λ r, __identity__ r = BaseQuery)
                 (queries (match execute render q h with
                           | Ok _ h' | Throw _ h' => h'
                           | Diverge => h
                           end)) ∧
               tasks (match execute render q h with
                      | Ok _ h' | Throw _ h' => h'
                      | Diverge => h
                      end) = [] ∧
               adapterCalls (match execute render q h with
                             | Ok _ h' | Throw _ h' => h'
                             | Diverge => h
                             end) = adapterCalls h) as Hexec.
  { intros q. destruct (queries h !! q) as [r|] eqn:Hq.
    - destruct (_executed r) eqn:He.
      + by rewrite (execute_again render h q r Hq He).
      + assert (__identity__ r = BaseQuery) as Hc.
        { rewrite Forall_lookup in Hall. by apply (Hall q). }
        rewrite (execute_first_throws render h q r Hq He
                   (JsError "BaseQuery cannot be used directly.")).
        * cbn [queries set_queries tasks adapterCalls].
          split; [| done]. by apply Forall_insert.
        * unfold statement, _statement. rewrite bind_eq.
          unfold get_query. by rewrite Hq, Hc.
    - by rewrite (execute_no_query render h q Hq). }
  destruct a as [q|q|i|i s]; cbn [step].
  - specialize (Hexec q). by destruct (execute render q h).
  - specialize (Hexec q). unfold then_. by destruct (execute render q h).
  - unfold run_chain. by rewrite Htasks.
  - unfold adapter_settles. by rewrite Htasks.
Qed.

Lemma abstract_store_run render acts h :
  Forall (λ r, __identity__ r = BaseQuery) (queries h) →
  tasks h = [] →
  adapterCalls (run render acts h).2 = adapterCalls h.
Proof.
  revert h. induction acts as [|a acts IH]; intros h Hall Htasks; [done |].
  cbn [run].
  destruct (abstract_store_step render a h Hall Htasks) as (Hall' & Ht' & Hc').
  destruct (step render a h) as [o h1]. cbn [snd] in *.
  specialize (IH h1 Hall' Ht').
  destruct (run render acts h1) as [rs h2]. cbn [snd] in *. congruence.
Qed.

(** C7 fails on the code: the abstract query of the example has an
    adapter; its clone is not executed and has a new pending promise,
    but executing the clone does not contact the adapter. The statement
    throws, [execute] hands back a rejected promise, nothing is
    scheduled, and whatever is done afterwards the adapter is not
    called. *)
Lemma clone_unrenderable_counterexample :
  ∃ q' h' h'',
    clone 0 Blog.base_heap = Ok q' h' ∧
    _adapter <$> queries h' !! q' = Some (Some 0) ∧
    _executed <$> queries h' !! q' = Some false ∧
    execute Blog.render q' h' =
      Ok (RejectedWith (JsError "BaseQuery cannot be used directly.")) h'' ∧
    tasks h'' = [] ∧
    ∀ more, adapterCalls (run Blog.render more h'').2 = [].
Proof.
  do 3 eexists.
  split; [reflexivity |]. split; [reflexivity |]. split; [reflexivity |].
  split; [reflexivity |]. split; [reflexivity |].
  intros more. rewrite abstract_store_run; [reflexivity | | reflexivity].
  repeat constructor.
Qed.

(** * Joining relations: aliases *)

Lemma join_alias_free mc m relation a :
  join_alias mc m relation = Some a → in_query mc m a = false.
Proof.
  unfold join_alias.
  destruct (in_query mc m (tableName (relatedModelClass relation))) eqn:E.
  - intros Ha. by destruct (alias_search_first _ _ _ _ Ha) as [? _].
  - by intros [= <-].
Qed.

(** The alias that joins a table already in the query is the first
    candidate for the name of the relation that is free. *)
Lemma join_alias_candidate mc m relation a :
  in_query mc m (tableName (relatedModelClass relation)) = true →
  join_alias mc m relation = Some a →
  ∃ j, a = candidate (_name relation) j ∧
       ∀ i, i < j → in_query mc m (candidate (_name relation) i) = true.
Proof.
  unfold join_alias. intros -> Ha.
  by destruct (alias_search_first _ _ _ _ Ha) as [_ ?].
Qed.

(** The new query in the store that [_joinRelation] leaves. *)
Lemma joinRelation_heap_query this r mc m name through relation a h :
  queries (joinRelation_heap this r mc m name through relation a h)
    !! length (queries h) =
  Some (set_joins (_joins r ++ [join_descriptor mc m through relation a])
          (dup_of r (length (promises h)) (Some (length (objects h))))).
Proof. unfold joinRelation_heap, grown; cbn. apply lookup_snoc. Qed.

Lemma joinRelation_heap_object this r mc m name through relation a h :
  objects (joinRelation_heap this r mc m name through relation a h)
    !! length (objects h) =
  Some (<[name := {| as_ := a; relation := relation |}]> m).
Proof. unfold joinRelation_heap, grown; cbn. apply lookup_snoc. Qed.

(** The name under which a relation is joined is what the join
    clause names: the table itself, or the alias given to the table. *)
Lemma join_argument_names mc m relation a :
  join_alias mc m relation = Some a →
  join_argument mc m relation a = VString a ∨
  join_argument mc m relation a =
    VAlias (tableName (relatedModelClass relation)) a.
Proof.
  unfold join_alias, join_argument.
  destruct (in_query mc m (tableName (relatedModelClass relation)));
    [by right |].
  intros [= <-]. by left.
Qed.

(** C3, as the code has it: joining a segment that the joined-relations
    object of a model query already records is not suppressed. It
    appends one join clause to the joins of the query, under a name that
    is neither the table of the model nor an alias recorded for a
    joined relation, and so not the alias recorded for the segment; the
    joined-relations object of the new query has an entry for the same
    segments as before, one for each; and the query that was joined
    keeps its joins and its joined relations. *)
Theorem rejoining_appends_join_under_new_alias
    (h : Heap) (q : nat) (r : Query) (mc : ModelClass) (o : nat)
    (m : gmap string JoinDetails) (name : string) (jd : JoinDetails)
    (through : option string) (relation : Relation) :
  queries h !! q = Some r →
  __identity__ r = ModelQuery →
  _model r = Some mc →
  _joinedRelations r = Some o →
  objects h !! o = Some m →
  m !! name = Some jd →
  ∃ q' h' r' o' m' a,
    _joinRelation q name through relation h = Ok q' h' ∧
    queries h' !! q' = Some r' ∧
    _joins r' = _joins r ++ [join_descriptor mc m through relation a] ∧
    (join_argument mc m relation a = VString a ∨
     join_argument mc m relation a =
       VAlias (tableName (relatedModelClass relation)) a) ∧
    a ≠ tableName mc ∧
    (∀ key joinDetails, m !! key = Some joinDetails → as_ joinDetails ≠ a) ∧
    a ≠ as_ jd ∧
    _joinedRelations r' = Some o' ∧
    objects h' !! o' = Some m' ∧
    dom m' = dom m ∧
    queries h' !! q = Some r ∧
    objects h' !! o = Some m.
Proof.
  intros Hq Hc Hmc Ho Hm Hname.
  destruct (joinRelation_Ok h q r mc o m name through relation
              Hq Hc Hmc Ho Hm) as (a & Ha & Hj).
  pose proof (join_alias_free _ _ _ _ Ha) as Hfree.
  assert (∀ key joinDetails, m !! key = Some joinDetails →
                             as_ joinDetails ≠ a) as Hrecorded.
  { intros key joinDetails Hkey <-. apply not_true_iff_false in Hfree.
    apply Hfree. apply in_query_spec. right. eauto. }
  eexists _, _, _, (length (objects h)), _, a.
  split; [exact Hj |].
  split; [apply joinRelation_heap_query |].
  split; [unfold dup_of; by rewrite Hc |].
  split; [by apply join_argument_names |].
  split.
  { intros ->. apply not_true_iff_false in Hfree. apply Hfree.
    apply in_query_spec. by left. }
  split; [done |].
  split; [intros ->; by destruct (Hrecorded _ _ Hname) |].
  split; [unfold dup_of; by rewrite Hc |].
  split; [apply joinRelation_heap_object |].
  split.
  { apply dom_insert_lookup_L. eauto. }
  unfold joinRelation_heap, grown; cbn.
  split; by apply lookup_app_l_Some.
Qed.

(** C4, as the code has it: a relation whose table is already in the
    query is joined under the first of [name], [name_j1], [name_j2], ...
    that is not in use, where [name] is the name of the relation; and
    two different associations joined one after the other are recorded
    under two different names. *)
Theorem alias_is_first_free_candidate
    (h : Heap) (q : nat) (r : Query) (mc : ModelClass) (o : nat)
    (m : gmap string JoinDetails) (name1 name2 : string)
    (through1 through2 : option string) (relation1 relation2 : Relation) :
  queries h !! q = Some r →
  __identity__ r = ModelQuery →
  _model r = Some mc →
  _joinedRelations r = Some o →
  objects h !! o = Some m →
  name1 ≠ name2 →
  ∃ q1 h1 a1 q2 h2 r2 o2 m2 a2,
    _joinRelation q name1 through1 relation1 h = Ok q1 h1 ∧
    join_alias mc m relation1 = Some a1 ∧
    in_query mc m a1 = false ∧
    (in_query mc m (tableName (relatedModelClass relation1)) = true →
     ∃ j, a1 = candidate (_name relation1) j ∧
          ∀ i, i < j → in_query mc m (candidate (_name relation1) i) = true) ∧
    (in_query mc m (tableName (relatedModelClass relation1)) = false →
     a1 = tableName (relatedModelClass relation1)) ∧
    _joinRelation q1 name2 through2 relation2 h1 = Ok q2 h2 ∧
    queries h2 !! q2 = Some r2 ∧
    _joinedRelations r2 = Some o2 ∧
    objects h2 !! o2 = Some m2 ∧
    m2 !! name1 = Some {| as_ := a1; relation := relation1 |} ∧
    m2 !! name2 = Some {| as_ := a2; relation := relation2 |} ∧
    a1 ≠ a2.
Proof.
  intros Hq Hc Hmc Ho Hm Hne.
  destruct (joinRelation_Ok h q r mc o m name1 through1 relation1
              Hq Hc Hmc Ho Hm) as (a1 & Ha1 & Hj1).
  set (h1 := joinRelation_heap q r mc m name1 through1 relation1 a1 h) in *.
  set (r1 := set_joins
               (_joins r ++ [join_descriptor mc m through1 relation1 a1])
               (dup_of r (length (promises h)) (Some (length (objects h))))).
  set (m1 := <[name1 := {| as_ := a1; relation := relation1 |}]> m).
  assert (queries h1 !! length (queries h) = Some r1) as Hq1
    by apply joinRelation_heap_query.
  assert (objects h1 !! length (objects h) = Some m1) as Hm1
    by apply joinRelation_heap_object.
  assert (__identity__ r1 = ModelQuery) as Hc1
    by (unfold r1, dup_of; by rewrite Hc).
  assert (_model r1 = Some mc) as Hmc1
    by (unfold r1, dup_of; by rewrite Hc).
  assert (_joinedRelations r1 = Some (length (objects h))) as Ho1
    by (unfold r1, dup_of; by rewrite Hc).
  destruct (joinRelation_Ok h1 (length (queries h)) r1 mc
              (length (objects h)) m1 name2 through2 relation2
              Hq1 Hc1 Hmc1 Ho1 Hm1) as (a2 & Ha2 & Hj2).
  pose proof (join_alias_free _ _ _ _ Ha1) as Hfree1.
  pose proof (join_alias_free _ _ _ _ Ha2) as Hfree2.
  eexists _, h1, a1, _, _, _, (length (objects h1)), _, a2.
  split; [exact Hj1 |]. split; [done |]. split; [done |].
  split; [intros Hin; by apply join_alias_candidate |].
  split.
  { intros Hin. unfold join_alias in Ha1. rewrite Hin in Ha1. congruence. }
  split; [exact Hj2 |].
  split; [apply joinRelation_heap_query |].
  split; [unfold dup_of; by rewrite Hc1 |].
  split; [apply joinRelation_heap_object |].
  split; [unfold m1; by rewrite lookup_insert_ne, lookup_insert_eq |].
  split; [by rewrite lookup_insert_eq |].
  intros <-. apply not_true_iff_false in Hfree2. apply Hfree2.
  apply in_query_spec. right.
  exists name1, {| as_ := a1; relation := relation1 |}.
  split; [apply lookup_insert_eq | done].
Qed.

(** ** The articles of the example, joined *)

(** A name with the suffix [_j1], [_j2], ... holds an underscore. *)
Lemma suffixed_has_underscore (base s : string) :
  JsString.occurs "_" (base +:+ "_j" +:+ s) = true.
Proof. by rewrite JsStringFacts.occurs_app, orb_true_r. Qed.

(** C3 fails on the code: joining the author of the articles a second
    time, on the query that the first join returned, adds a second join
    clause to the statement and a second name, [author], for the users
    table; the alias that the first join recorded, [users], is not
    reused but replaced. *)
Lemma rejoining_same_association_counterexample :
  ∃ q1 h1 q2 h2 r1 r2 m1 m2,
    join Blog._lookupRelation Blog._associationForEach 0
      [VString "author"] Blog.articles_heap = Ok q1 h1 ∧
    join Blog._lookupRelation Blog._associationForEach q1
      [VString "author"] h1 = Ok q2 h2 ∧
    queries h1 !! q1 = Some r1 ∧
    queries h2 !! q2 = Some r2 ∧
    length (_joins r1) = 1 ∧
    length (_joins r2) = 2 ∧
    joined h1 r1 = Some m1 ∧
    joined h2 r2 = Some m2 ∧
    as_ <$> m1 !! "author" = Some "users" ∧
    as_ <$> m2 !! "author" = Some "author" ∧
    result (statement Blog.render q1 h1) =
      Some (inr {| sql := "SELECT * FROM articles JOIN users";
                   args := [] |}) ∧
    result (statement Blog.render q2 h2) =
      Some (inr {| sql := "SELECT * FROM articles JOIN users JOIN users author";
                   args := [] |}).
Proof.
  do 8 eexists.
  split; [vm_compute; reflexivity |].
  split; [vm_compute; reflexivity |].
  split; [vm_compute; reflexivity |].
  split; [vm_compute; reflexivity |].
  split_and!; vm_compute; reflexivity.
Qed.

(** C4 fails on the code: the author and the editor of an article are
    both users; joined one after the other they are joined as [users]
    and as [editor], and neither name has the form [name_j1],
    [name_j2], ... *)
Lemma aliases_without_suffix_counterexample :
  ∃ q1 h1 q2 h2 r2 m2,
    join Blog._lookupRelation Blog._associationForEach 0
      [VString "author"] Blog.articles_heap = Ok q1 h1 ∧
    join Blog._lookupRelation Blog._associationForEach q1
      [VString "editor"] h1 = Ok q2 h2 ∧
    queries h2 !! q2 = Some r2 ∧
    joined h2 r2 = Some m2 ∧
    as_ <$> m2 !! "author" = Some "users" ∧
    as_ <$> m2 !! "editor" = Some "editor" ∧
    (∀ base (k : nat), "users" ≠ base +:+ "_j" +:+ pretty k) ∧
    (∀ base (k : nat), "editor" ≠ base +:+ "_j" +:+ pretty k).
Proof.
  do 6 eexists.
  split; [vm_compute; reflexivity |].
  split; [vm_compute; reflexivity |].
  split; [vm_compute; reflexivity |].
  split; [vm_compute; reflexivity |].
  split; [vm_compute; reflexivity |].
  split; [vm_compute; reflexivity |].
  split; intros base k H;
    apply (f_equal (JsString.occurs "_")) in H;
    by rewrite suffixed_has_underscore in H.
Qed.

(** ** The theorems at the example *)

(** [template] on a name with the placeholder twice. *)
Lemma template_replaces_first_occurrence_only_witness :
  template Blog.singularize Blog.pluralize Blog.capitalize Blog.author
    "<Singular>And<Singular>" = "AuthorAnd<Singular>".
Proof.
  apply (template_replaces_first_occurrence_only
           Blog.singularize Blog.pluralize Blog.capitalize
           Blog.author PhSingularCap "" "And" "").
  - reflexivity.
  - reflexivity.
  - reflexivity.
  - intros []; reflexivity.
  - intros []; reflexivity.
Defined.

(** The author relation of the example: its keys and inverse by default,
    and after it has been rewired. *)
Lemma belongsTo_keys_default_lazy_locked_witness :
  let r0 := Relation_init "author" Blog.Article Blog.User None in
  (_foreignKey r0 = None ∧ _primaryKey r0 = None ∧ _inverse r0 = None) ∧
  ((foreignKey Blog.snakeCase r0).1 = Some "author_id" ∧
   (primaryKey r0).1 = Some "id" ∧
   (inverse Blog.pluralize Blog.camelCase r0).1 = Some "articles") ∧
  (Forall (λ v, v = (foreignKey Blog.snakeCase Blog.author).1)
     (read_after_each (foreignKey Blog.snakeCase) [Blog.rewire]
        (foreignKey Blog.snakeCase Blog.author).2) ∧
   Forall (λ v, v = (primaryKey Blog.author).1)
     (read_after_each primaryKey [Blog.rewire] (primaryKey Blog.author).2) ∧
   Forall (λ v, v = (inverse Blog.pluralize Blog.camelCase Blog.author).1)
     (read_after_each (inverse Blog.pluralize Blog.camelCase) [Blog.rewire]
        (inverse Blog.pluralize Blog.camelCase Blog.author).2)).
Proof.
  apply (belongsTo_keys_default_lazy_locked
           Blog.pluralize Blog.camelCase Blog.snakeCase
           "author" Blog.Article Blog.User Blog.author [Blog.rewire]).
  - discriminate.
  - discriminate.
  - discriminate.
Defined.

(** Joining the author again on the articles with their author. *)
Lemma rejoining_appends_join_under_new_alias_witness :
  ∃ q' h' r' o' m' a,
    _joinRelation 2 "author" None Blog.author Blog.authored_heap = Ok q' h' ∧
    queries h' !! q' = Some r' ∧
    _joins r' =
      _joins Blog.authored_query ++
      [join_descriptor Blog.Article Blog.author_joined None Blog.author a] ∧
    (join_argument Blog.Article Blog.author_joined Blog.author a =
       VString a ∨
     join_argument Blog.Article Blog.author_joined Blog.author a =
       VAlias (tableName (relatedModelClass Blog.author)) a) ∧
    a ≠ tableName Blog.Article ∧
    (∀ key joinDetails, Blog.author_joined !! key = Some joinDetails →
                        as_ joinDetails ≠ a) ∧
    a ≠ "users" ∧
    _joinedRelations r' = Some o' ∧
    objects h' !! o' = Some m' ∧
    dom m' = dom Blog.author_joined ∧
    queries h' !! 2 = Some Blog.authored_query ∧
    objects h' !! 2 = Some Blog.author_joined.
Proof.
  apply (rejoining_appends_join_under_new_alias Blog.authored_heap 2
           Blog.authored_query Blog.Article 2 Blog.author_joined "author"
           {| as_ := "users"; relation := Blog.author |} None Blog.author).
  - vm_compute; reflexivity.
  - reflexivity.
  - reflexivity.
  - reflexivity.
  - vm_compute; reflexivity.
  - vm_compute; reflexivity.
Defined.

(** Joining the author and then the editor of the articles. *)
Lemma alias_is_first_free_candidate_witness :
  ∃ q1 h1 a1 q2 h2 r2 o2 m2 a2,
    _joinRelation 0 "author" None Blog.author Blog.articles_heap = Ok q1 h1 ∧
    join_alias Blog.Article ∅ Blog.author = Some a1 ∧
    in_query Blog.Article ∅ a1 = false ∧
    (in_query Blog.Article ∅ (tableName (relatedModelClass Blog.author)) = true →
     ∃ j, a1 = candidate (_name Blog.author) j ∧
          ∀ i, i < j →
               in_query Blog.Article ∅ (candidate (_name Blog.author) i) = true) ∧
    (in_query Blog.Article ∅ (tableName (relatedModelClass Blog.author)) = false →
     a1 = tableName (relatedModelClass Blog.author)) ∧
    _joinRelation q1 "editor" None Blog.editor h1 = Ok q2 h2 ∧
    queries h2 !! q2 = Some r2 ∧
    _joinedRelations r2 = Some o2 ∧
    objects h2 !! o2 = Some m2 ∧
    m2 !! "author" = Some {| as_ := a1; relation := Blog.author |} ∧
    m2 !! "editor" = Some {| as_ := a2; relation := Blog.editor |} ∧
    a1 ≠ a2.
Proof.
  apply (alias_is_first_free_candidate Blog.articles_heap 0
           {| __identity__ := ModelQuery; _adapter := Some 0;
              _executed := false; _promise := Some 0;
              _model := Some Blog.Article; _joins := [];
              _joinedRelations := Some 0 |}
           Blog.Article 0 ∅ "author" "editor" None None
           Blog.author Blog.editor).
  - reflexivity.
  - reflexivity.
  - reflexivity.
  - reflexivity.
  - reflexivity.
  - discriminate.
Defined.

(** * Execution happens once *)

Lemma insert_split {A : Type} (l : list A) (i : nat) (t t' : A) :
  l !! i = Some t →
  ∃ l1 l2, l = l1 ++ t :: l2 ∧ <[i := t']> l = l1 ++ t' :: l2.
Proof.
  intros Hi. exists (take i l), (drop (S i) l). split.
  - by rewrite take_drop_middle.
  - apply insert_take_drop. by eapply lookup_lt_Some.
Qed.

(** Replacing a task that is not a scheduled chain of [q] by another
    such task leaves the scheduled chains of [q] as they are. *)
Lemma scheduled_insert_other q (T : list Task) i t t' :
  T !! i = Some t →
  is_scheduled_for q t = false →
  is_scheduled_for q t' = false →
  filter (λ t, is_scheduled_for q t = true) (<[i := t']> T) =
  filter (λ t, is_scheduled_for q t = true) T.
Proof.
  intros Hi Ht Ht'.
  destruct (insert_split T i t t' Hi) as (l1 & l2 & -> & ->).
  rewrite !filter_app, !filter_cons.
  destruct (decide (is_scheduled_for q t' = true)); [congruence |].
  destruct (decide (is_scheduled_for q t = true)); [congruence | done].
Qed.

(** A scheduled chain of [q] that starts is no longer scheduled. *)
Lemma scheduled_insert_started q (T : list Task) i t t' :
  T !! i = Some t →
  is_scheduled_for q t = true →
  is_scheduled_for q t' = false →
  ∃ l1 l2,
    filter (λ t, is_scheduled_for q t = true) T = l1 ++ t :: l2 ∧
    filter (λ t, is_scheduled_for q t = true) (<[i := t']> T) = l1 ++ l2.
Proof.
  intros Hi Ht Ht'.
  destruct (insert_split T i t t' Hi) as (l1 & l2 & -> & ->).
  exists (filter (λ t, is_scheduled_for q t = true) l1),
    (filter (λ t, is_scheduled_for q t = true) l2).
  rewrite !filter_app, !filter_cons.
  destruct (decide (is_scheduled_for q t' = true)); [congruence |].
  destruct (decide (is_scheduled_for q t = true)); [done | congruence].
Qed.

Lemma is_scheduled_for_inv q t :
  is_scheduled_for q t = true → ∃ s p, t = Scheduled q s p.
Proof.
  destruct t as [q' s p| |]; cbn; [|done..].
  intros ->%Nat.eqb_eq. eauto.
Qed.

(** The state of an execution depends on the query, its scheduled
    chains and its adapter calls only. *)
Lemma execution_state_same q r stmt h h' :
  queries h' !! q = queries h !! q →
  scheduled_for q h' = scheduled_for q h →
  calls_of q h' = calls_of q h →
  execution_state q r stmt h → execution_state q r stmt h'.
Proof.
  intros Hq Hs Hc (r' & ? & ? & ? & ? & ?). exists r'.
  by rewrite Hq, Hs, Hc.
Qed.

(** A settled promise stays as it is. *)
Lemma settle_settled p s p' s' h :
  promises h !! p = Some (Some s) →
  promises (settle p' s' h) !! p = Some (Some s).
Proof.
  intros Hp. unfold settle. destruct p' as [p'|]; [|done].
  destruct (promises h !! p') as [[s0|]|] eqn:Hp'; [done | |done].
  cbn. rewrite list_lookup_insert_ne; [done |]. congruence.
Qed.

Section ExecuteOnce.

Variable render : option ModelClass → list (list JsValue) → Error + Statement.

(** The four ways in which [execute] runs. *)
Lemma execute_cases h q :
  (queries h !! q = None ∧ ∃ e, execute render q h = Ok (RejectedWith e) h) ∨
  (∃ r, queries h !! q = Some r ∧ _executed r = true ∧
        execute render q h = Ok (returned r) h) ∨
  (∃ r stmt, queries h !! q = Some r ∧ _executed r = false ∧
        result (statement render q h) = Some (inr stmt) ∧
        execute render q h =
          Ok (returned r)
            (set_tasks (tasks h ++ [Scheduled q stmt (_promise r)])
               (set_queries (<[q := set_executed true r]> (queries h)) h))) ∨
  (∃ r e, queries h !! q = Some r ∧ _executed r = false ∧
        result (statement render q h) = Some (inl e) ∧
        execute render q h =
          Ok (RejectedWith e)
            (set_queries (<[q := set_executed true r]> (queries h)) h)).
Proof.
  destruct (queries h !! q) as [r|] eqn:Hq.
  - right. destruct (_executed r) eqn:He.
    + left. exists r. by rewrite (execute_again render h q r).
    + right.
      destruct (result (statement render q h)) as [[e|stmt]|] eqn:Hs.
      * right. exists r, e.
        by rewrite (execute_first_throws render h q r Hq He e Hs).
      * left. exists r, stmt.
        destruct (statement_Ok_inv render _ _ _ Hs) as (r0 & Hr0 & Hc & Hr).
        assert (r0 = r) as -> by congruence.
        by rewrite (execute_first render h q r stmt).
      * exfalso. revert Hs. unfold statement, _statement.
        rewrite bind_eq. unfold get_query. rewrite Hq.
        destruct (__identity__ r); [done |].
        by destruct (render (_model r) (_joins r)).
  - left. split; [done |]. eexists. by apply execute_no_query.
Qed.

Lemma execute_promises h q rp h' :
  execute render q h = Ok rp h' → promises h' = promises h.
Proof.
  destruct (execute_cases h q)
    as [[_ [e ->]]|[(r & _ & _ & ->)|[(r & s & _ & _ & _ & ->)
       |(r & e & _ & _ & _ & ->)]]]; by intros [= _ <-].
Qed.

Lemma execute_not_Throw h q e h' : execute render q h ≠ Throw e h'.
Proof.
  by destruct (execute_cases h q)
    as [[_ [e' ->]]|[(r & _ & _ & ->)|[(r & s & _ & _ & _ & ->)
       |(r & e' & _ & _ & _ & ->)]]].
Qed.

(** No action changes a settled promise. *)
Lemma step_settled a h p s :
  promises h !! p = Some (Some s) →
  promises (step render a h).2 !! p = Some (Some s).
Proof.
  intros Hp. destruct a as [q|q|i|i s']; cbn [step].
  - destruct (execute render q h) as [rp h'|e h'|] eqn:E; cbn; [| |done].
    + by rewrite (execute_promises _ _ _ _ E).
    + by destruct (execute_not_Throw _ _ _ _ E).
  - unfold then_.
    destruct (execute render q h) as [rp h'|e h'|] eqn:E; cbn; [| |done].
    + by rewrite (execute_promises _ _ _ _ E).
    + by destruct (execute_not_Throw _ _ _ _ E).
  - cbn. unfold run_chain. by destruct (tasks h !! i) as [[]|].
  - cbn. unfold adapter_settles.
    destruct (tasks h !! i) as [[q' st p'|q' p'|]|]; [done | |done..].
    by apply settle_settled.
Qed.

Lemma run_settled acts h p s :
  promises h !! p = Some (Some s) →
  promises (run render acts h).2 !! p = Some (Some s).
Proof.
  revert h. induction acts as [|a acts IH]; intros h Hp; [done |].
  cbn [run]. pose proof (step_settled a h p s Hp) as Hp'.
  destruct (step render a h) as [o h1]. cbn in Hp'.
  specialize (IH h1 Hp'). by destruct (run render acts h1).
Qed.

Lemma run_app acts1 acts2 h :
  (run render (acts1 ++ acts2) h).2 =
  (run render acts2 (run render acts1 h).2).2.
Proof.
  revert h. induction acts1 as [|a acts1 IH]; intros h; [done |].
  cbn [app run]. destruct (step render a h) as [o h1].
  specialize (IH h1).
  destruct (run render (acts1 ++ acts2) h1), (run render acts1 h1).
  exact IH.
Qed.

End ExecuteOnce.

Lemma filter_scheduled_self q s p :
  filter (λ t, is_scheduled_for q t = true) [Scheduled q s p] =
  [Scheduled q s p].
Proof.
  rewrite filter_cons. destruct (decide _) as [|Hn]; [done |].
  exfalso. apply Hn. cbn. apply Nat.eqb_refl.
Qed.

Lemma filter_scheduled_other q q2 s p :
  q2 ≠ q →
  filter (λ t, is_scheduled_for q t = true) [Scheduled q2 s p] = [].
Proof.
  intros Hne. rewrite filter_cons.
  by destruct (decide _) as [Heq%Nat.eqb_eq|].
Qed.

Section ExecuteOnceTheorem.

Variable render : option ModelClass → list (list JsValue) → Error + Statement.

Variables (q : nat) (r : Query) (stmt : Statement).

Hypothesis r_concrete : __identity__ r = ModelQuery.
Hypothesis r_renders : render (_model r) (_joins r) = inr stmt.

(** The executed flag of [q], when [q] is in the store. *)
Local Abbreviation flag h := (_executed <$> queries h !! q).

Lemma execution_state_statement h :
  execution_state q r stmt h →
  result (statement render q h) = Some (inr stmt).
Proof.
  intros (r' & Hq & Hcore & _).
  rewrite (statement_Ok render h q r' stmt Hq); [done | |];
    rewrite Hcore; by cbn.
Qed.

Lemma execute_execution_state q2 h rp h' :
  execution_state q r stmt h →
  execute render q2 h = Ok rp h' →
  execution_state q r stmt h' ∧
  (q2 = q → rp = returned r ∧ flag h' = Some true) ∧
  (flag h = Some true → flag h' = Some true).
Proof.
  intros Hst Hex. pose proof Hst as (r' & Hq & Hcore & Hcount & Hcalls & Hsch).
  assert (returned r' = returned r) as Hret
    by (unfold returned; rewrite Hcore; by cbn).
  destruct (execute_cases render h q2)
    as [[Hn [e He]]|[(r2 & Hq2 & He2 & He)|[(r2 & s2 & Hq2 & He2 & Hs2 & He)
       |(r2 & e & Hq2 & He2 & Hs2 & He)]]];
    rewrite He in Hex; injection Hex as <- <-.
  - split; [done |]. split; [|done]. intros ->. congruence.
  - split; [done |]. split; [|done]. intros ->.
    assert (r2 = r') as -> by congruence.
    split; [done |]. by rewrite Hq; cbn; rewrite He2.
  - pose proof (lookup_lt_Some _ _ _ Hq2) as Hlt2.
    destruct (decide (q2 = q)) as [->|Hne].
    + assert (r2 = r') as -> by congruence.
      rewrite (execution_state_statement h Hst) in Hs2.
      injection Hs2 as <-.
      rewrite He2 in Hcount. cbn in Hcount.
      assert (scheduled_for q h = []) as Hnil
        by (apply length_zero_iff_nil; lia).
      assert (calls_of q h = []) as Hcnil
        by (apply length_zero_iff_nil; lia).
      split; [|split; [intros _; split; [done |] | intros _]];
        cbn [queries set_tasks set_queries];
        try (by rewrite list_lookup_insert_eq by done).
      exists (set_executed true r'). split_and!.
      * cbn. by rewrite list_lookup_insert_eq by done.
      * rewrite Hcore. by cbn.
      * unfold scheduled_for, calls_of in *. cbn.
        rewrite filter_app, Hnil, Hcnil, filter_scheduled_self. by cbn.
      * exact Hcalls.
      * unfold scheduled_for in *. cbn.
        rewrite filter_app, Hnil, filter_scheduled_self. cbn.
        intros t ->%list_elem_of_singleton. by rewrite Hcore.
    + assert (queries (set_tasks (tasks h ++ [Scheduled q2 s2 (_promise r2)])
                 (set_queries (<[q2:=set_executed true r2]> (queries h)) h))
                !! q = queries h !! q) as Hsame
        by (cbn; by apply list_lookup_insert_ne).
      split; [|split; [done | by rewrite Hsame]].
      apply (execution_state_same q r stmt h); [done | | done | done].
      unfold scheduled_for. cbn.
      by rewrite filter_app, filter_scheduled_other, app_nil_r.
  - pose proof (lookup_lt_Some _ _ _ Hq2) as Hlt2.
    destruct (decide (q2 = q)) as [->|Hne].
    + rewrite (execution_state_statement h Hst) in Hs2. done.
    + assert (queries (set_queries (<[q2:=set_executed true r2]> (queries h)) h)
                !! q = queries h !! q) as Hsame
        by (cbn; by apply list_lookup_insert_ne).
      split; [|split; [done | by rewrite Hsame]].
      by apply (execution_state_same q r stmt h).
Qed.

Lemma run_chain_execution_state i h :
  execution_state q r stmt h →
  execution_state q r stmt (run_chain i h) ∧
  flag (run_chain i h) = flag h.
Proof.
  intros Hst. pose proof Hst as (r' & Hq & Hcore & Hcount & Hcalls & Hsch).
  unfold run_chain.
  destruct (tasks h !! i) as [[q2 s2 p2|q2 p2|]|] eqn:Hi; [|done..].
  split; [|done].
  destruct (decide (q2 = q)) as [->|Hne].
  - destruct (scheduled_insert_started q (tasks h) i (Scheduled q s2 p2)
                (InFlight q p2) Hi) as (l1 & l2 & Hold & Hnew);
      [cbn; apply Nat.eqb_refl | done |].
    assert (Scheduled q s2 p2 = Scheduled q stmt (_promise r)) as [= -> ->].
    { apply Hsch. unfold scheduled_for. rewrite Hold.
      apply elem_of_app. right. by left. }
    exists r'. split; [done |]. split; [done |].
    unfold scheduled_for, calls_of in *. cbn.
    rewrite Hnew, filter_app, filter_cons. cbn.
    destruct (decide (q = q)); [|done].
    rewrite Hold in Hcount, Hsch. rewrite !length_app in *. cbn in *.
    split; [lia |]. split.
    + intros c [Hc| ->%list_elem_of_singleton]%elem_of_app; [|done].
      by apply Hcalls.
    + intros t Ht. apply Hsch. apply elem_of_app in Ht as [?|?];
        apply elem_of_app; [by left | right; by right].
  - apply (execution_state_same q r stmt h); [done | | | done].
    + unfold scheduled_for. cbn. apply (scheduled_insert_other _ _ _ _ _ Hi).
      * cbn. by apply Nat.eqb_neq.
      * done.
    + unfold calls_of. cbn. rewrite filter_app, filter_cons. cbn.
      destruct (decide (q2 = q)); [done |]. by rewrite app_nil_r.
Qed.

Lemma settle_queries p s h : queries (settle p s h) = queries h.
Proof.
  unfold settle. destruct p as [p|]; [|done].
  by destruct (promises h !! p) as [[]|].
Qed.

Lemma settle_tasks p s h : tasks (settle p s h) = tasks h.
Proof.
  unfold settle. destruct p as [p|]; [|done].
  by destruct (promises h !! p) as [[]|].
Qed.

Lemma settle_adapterCalls p s h : adapterCalls (settle p s h) = adapterCalls h.
Proof.
  unfold settle. destruct p as [p|]; [|done].
  by destruct (promises h !! p) as [[]|].
Qed.

Lemma adapter_settles_execution_state i s h :
  execution_state q r stmt h →
  execution_state q r stmt (adapter_settles i s h) ∧
  flag (adapter_settles i s h) = flag h.
Proof.
  intros Hst. unfold adapter_settles.
  destruct (tasks h !! i) as [[q2 s2 p2|q2 p2|]|] eqn:Hi; [done | |done..].
  split; [|by rewrite settle_queries].
  apply (execution_state_same q r stmt h); [| | |done].
  - by rewrite settle_queries.
  - unfold scheduled_for. rewrite settle_tasks. cbn.
    by apply (scheduled_insert_other _ _ _ _ _ Hi).
  - unfold calls_of. by rewrite settle_adapterCalls.
Qed.

(** One action keeps the execution where it stands or moves it on. *)
Lemma step_execution_state a h :
  execution_state q r stmt h →
  execution_state q r stmt (step render a h).2 ∧
  (∀ rp, (step render a h).1 = Some (q, rp) → rp = returned r) ∧
  (calls_query q a = true → flag (step render a h).2 = Some true) ∧
  (flag h = Some true → flag (step render a h).2 = Some true).
Proof.
  intros Hst. destruct a as [q2|q2|i|i s]; cbn [step calls_query].
  - destruct (execute render q2 h) as [rp h'|e h'|] eqn:E;
      [|by destruct (execute_not_Throw _ _ _ _ _ E)|].
    + destruct (execute_execution_state q2 h rp h' Hst E) as (H1 & H2 & H3).
      cbn. split; [done |]. split; [|split; [|done]].
      * intros rp' [= -> ->]. by apply H2.
      * intros ->%Nat.eqb_eq. by apply H2.
    + exfalso.
      by destruct (execute_cases render h q2)
        as [[_ [e' He]]|[(r2 & _ & _ & He)|[(r2 & s & _ & _ & _ & He)
           |(r2 & e' & _ & _ & _ & He)]]]; rewrite He in E.
  - unfold then_.
    destruct (execute render q2 h) as [rp h'|e h'|] eqn:E;
      [|by destruct (execute_not_Throw _ _ _ _ _ E)|].
    + destruct (execute_execution_state q2 h rp h' Hst E) as (H1 & H2 & H3).
      cbn. split; [done |]. split; [|split; [|done]].
      * intros rp' [= -> ->]. by apply H2.
      * intros ->%Nat.eqb_eq. by apply H2.
    + exfalso.
      by destruct (execute_cases render h q2)
        as [[_ [e' He]]|[(r2 & _ & _ & He)|[(r2 & s & _ & _ & _ & He)
           |(r2 & e' & _ & _ & _ & He)]]]; rewrite He in E.
  - cbn. destruct (run_chain_execution_state i h Hst) as [H1 H2].
    split; [done |]. split; [done |]. split; [done |]. by rewrite H2.
  - cbn. destruct (adapter_settles_execution_state i s h Hst) as [H1 H2].
    split; [done |]. split; [done |]. split; [done |]. by rewrite H2.
Qed.

(** Any sequence of actions. *)
Lemma run_execution_state acts h :
  execution_state q r stmt h →
  execution_state q r stmt (run render acts h).2 ∧
  (∀ rp, (q, rp) ∈ (run render acts h).1 → rp = returned r) ∧
  (existsb (calls_query q) acts = true →
   flag (run render acts h).2 = Some true) ∧
  (flag h = Some true → flag (run render acts h).2 = Some true).
Proof.
  revert h. induction acts as [|a acts IH]; intros h Hst.
  - cbn. split; [done |]. split; [|done]. intros rp Hin. by inversion Hin.
  - cbn [run existsb].
    destruct (step_execution_state a h Hst) as (H1 & H2 & H3 & H4).
    destruct (step render a h) as [o h1]. cbn [fst snd] in *.
    destruct (IH h1 H1) as (I1 & I2 & I3 & I4).
    destruct (run render acts h1) as [rs h2]. cbn [fst snd] in *.
    split; [done |]. split; [|split].
    + intros rp [Hin|Hin]%elem_of_app; [|by apply I2].
      destruct o as [[q' rp']|]; cbn in Hin; [|by inversion Hin].
      apply list_elem_of_singleton in Hin as [= <- <-]. by apply H2.
    + intros [Ha|Hacts]%orb_true_iff; [apply I4, H3, Ha | by apply I3].
    + intros Hf. by apply I4, H4.
Qed.

End ExecuteOnceTheorem.

Section ExecuteOnceClaim.

Variable render : option ModelClass → list (list JsValue) → Error + Statement.

Lemma set_executed_same r : set_executed (_executed r) r = r.
Proof. by destruct r. Qed.

(** C2, as the code has it: for a query whose statement renders, not
    yet executed, whatever is done afterwards ([execute] and [then]
    called on any query any number of times, chains run, the adapter
    answering): the adapter is called at most once for the query, with
    its statement; every call of [execute] or [then] on the query hands
    back a promise that follows the one promise of the query, so that
    all observers see the same outcome; once [execute] or [then] has
    been called the flag is set and one chain is scheduled or one
    adapter call made; and a settled outcome never changes. *)
Theorem execute_once_when_statement_renders
    (h : Heap) (q p : nat) (r : Query) (stmt : Statement)
    (acts more : list Action) :
  queries h !! q = Some r →
  _executed r = false →
  _promise r = Some p →
  __identity__ r = ModelQuery →
  render (_model r) (_joins r) = inr stmt →
  scheduled_for q h = [] →
  calls_of q h = [] →
  let handed := (run render acts h).1 in
  let h' := (run render acts h).2 in
  length (calls_of q h') ≤ 1 ∧
  (∀ c, c ∈ calls_of q h' → c = (q, stmt)) ∧
  (∀ rp, (q, rp) ∈ handed → rp = Follows p) ∧
  (∀ rp1 rp2, (q, rp1) ∈ handed → (q, rp2) ∈ handed →
              observe h' rp1 = observe h' rp2) ∧
  (existsb (calls_query q) acts = true →
   _executed <$> queries h' !! q = Some true ∧
   length (scheduled_for q h') + length (calls_of q h') = 1) ∧
  (∀ s, promises h' !! p = Some (Some s) →
        promises (run render more h').2 !! p = Some (Some s)).
Proof.
  intros Hq He Hp Hc Hr Hsch Hcalls handed h'.
  assert (execution_state q r stmt h) as Hst.
  { exists r. split; [done |]. split; [by rewrite set_executed_same |].
    rewrite Hsch, Hcalls, He. split; [done |].
    split; intros ? Hin; by inversion Hin. }
  destruct (run_execution_state render q r stmt Hc Hr acts h Hst)
    as ((r' & Hq' & Hcore & Hcount & Hcalls' & Hsch') & Hret & Hflag & _).
  fold h' in Hq', Hcount, Hcalls', Hsch', Hflag. fold handed in Hret.
  assert (returned r = Follows p) as Hfollows
    by (unfold returned; by rewrite Hp).
  split; [destruct (_executed r'); lia |].
  split; [done |].
  split; [intros rp Hin; rewrite <- Hfollows; by apply Hret |].
  split.
  { intros rp1 rp2 H1 H2. by rewrite (Hret rp1 H1), (Hret rp2 H2). }
  split.
  { intros Hcalled. specialize (Hflag Hcalled). split; [done |].
    rewrite Hq' in Hflag. cbn in Hflag. injection Hflag as Hflag.
    by rewrite Hflag in Hcount. }
  intros s Hs. by apply run_settled.
Qed.

End ExecuteOnceClaim.

(** The articles query of the example: [execute], [then], the chain,
    the adapter's answer, [execute] again. *)
Lemma execute_once_when_statement_renders_witness :
  let acts := [CallExecute 0; CallThen 0; RunChain 0;
               AdapterSettles 0 (Fulfilled {| rows := []; fields := [] |});
               CallExecute 0] in
  let handed := (run Blog.render acts Blog.articles_heap).1 in
  let h' := (run Blog.render acts Blog.articles_heap).2 in
  length (calls_of 0 h') ≤ 1 ∧
  (∀ c, c ∈ calls_of 0 h' →
        c = (0, {| sql := "SELECT * FROM articles"; args := [] |})) ∧
  (∀ rp, (0, rp) ∈ handed → rp = Follows 0) ∧
  (∀ rp1 rp2, (0, rp1) ∈ handed → (0, rp2) ∈ handed →
              observe h' rp1 = observe h' rp2) ∧
  (existsb (calls_query 0) acts = true →
   _executed <$> queries h' !! 0 = Some true ∧
   length (scheduled_for 0 h') + length (calls_of 0 h') = 1) ∧
  (∀ s, promises h' !! 0 = Some (Some s) →
        promises (run Blog.render [CallThen 0; RunChain 0] h').2 !! 0 =
          Some (Some s)).
Proof.
  apply (execute_once_when_statement_renders Blog.render
           Blog.articles_heap 0 0
           {| __identity__ := ModelQuery; _adapter := Some 0;
              _executed := false; _promise := Some 0;
              _model := Some Blog.Article; _joins := [];
              _joinedRelations := Some 0 |}
           {| sql := "SELECT * FROM articles"; args := [] |}).
  - reflexivity.
  - reflexivity.
  - reflexivity.
  - reflexivity.
  - reflexivity.
  - reflexivity.
  - reflexivity.
Defined.

(** [BaseQuery.create(adapter)] in an empty store gives the abstract
    query of the example. *)
Lemma base_heap_created :
  BaseQuery_create BaseQuery (Some 0) empty_heap = Ok 0 Blog.base_heap.
Proof. reflexivity. Qed.

(** Nothing moves the store of the abstract query once [execute] has
    been called on it. *)
Lemma base_heap_stuck (more : list Action) :
  (run Blog.render more
     (run Blog.render [CallExecute 0] Blog.base_heap).2).2 =
  (run Blog.render [CallExecute 0] Blog.base_heap).2.
Proof.
  induction more as [|a more IH]; [done |].
  cbn [run].
  assert ((step Blog.render a
             (run Blog.render [CallExecute 0] Blog.base_heap).2).2 =
          (run Blog.render [CallExecute 0] Blog.base_heap).2) as Hstep.
  { destruct a as [[|n]|[|n]|[|i]|[|i] s]; reflexivity. }
  destruct (step Blog.render a _) as [o h1]. cbn in Hstep. subst h1.
  by destruct (run Blog.render more _).
Qed.

(** C2 fails on the code: [execute] twice on a query of the abstract
    class, whose statement throws. The adapter is not called; the first
    call hands back a promise rejected with the error, the second a
    promise that follows the promise of the query, which is pending and
    stays so whatever happens next: the two callers do not see the same
    outcome. *)
Lemma execute_unrenderable_counterexample :
  let handed := (run Blog.render [CallExecute 0; CallExecute 0]
                   Blog.base_heap).1 in
  let h' := (run Blog.render [CallExecute 0; CallExecute 0]
               Blog.base_heap).2 in
  handed =
    [(0, RejectedWith (JsError "BaseQuery cannot be used directly."));
     (0, Follows 0)] ∧
  adapterCalls h' = [] ∧
  tasks h' = [] ∧
  ∀ more,
    observe (run Blog.render more h').2
      (RejectedWith (JsError "BaseQuery cannot be used directly.")) =
      Some (Rejected (JsError "BaseQuery cannot be used directly.")) ∧
    observe (run Blog.render more h').2 (Follows 0) = None.
Proof.
  split; [reflexivity |]. split; [reflexivity |]. split; [reflexivity |].
  intros more. split; [reflexivity |].
  change (run Blog.render [CallExecute 0; CallExecute 0] Blog.base_heap).2
    with (run Blog.render [CallExecute 0] Blog.base_heap).2.
  by rewrite base_heap_stuck.
Qed.

(** * More on [BaseRelation#template] *)

Section TemplateMoreFacts.

Import JsString JsStringFacts.

Variables singularize pluralize capitalize : string → string.

Local Abbreviation template := (template singularize pluralize capitalize).
Local Abbreviation placeholder_value :=
  (placeholder_value singularize pluralize capitalize).

Lemma replace_without_lt p rep s :
  occurs "<" s = false → replace (String "<" p) rep s = s.
Proof. intros H. by apply replace_absent, split_first_none. Qed.

(** X1: A method name without [<] has no placeholder: [template] returns it
    as it is, whatever the relation is called. *)
Theorem template_without_placeholder (r : Relation) (str : string) :
  occurs "<" str = false → template r str = str.
Proof.
  intros H. unfold template.
  rewrite (replace_without_lt "singular>" _ str) by done.
  rewrite (replace_without_lt "Singular>" _ str) by done.
  rewrite (replace_without_lt "plural>" _ str) by done.
  by rewrite (replace_without_lt "Plural>" _ str).
Qed.

End TemplateMoreFacts.

Lemma template_without_placeholder_witness :
  template Blog.singularize Blog.pluralize Blog.capitalize Blog.author
    "fetch" = "fetch".
Proof.
  apply (template_without_placeholder Blog.singularize Blog.pluralize
           Blog.capitalize Blog.author "fetch").
  reflexivity.
Defined.

(** * Method names with several placeholders *)

Section TemplateSegments.

Import JsString JsStringFacts.

Variables singularize pluralize capitalize : string → string.

Local Abbreviation template := (template singularize pluralize capitalize).
Local Abbreviation placeholder_value :=
  (placeholder_value singularize pluralize capitalize).

Lemma Placeholder_eqb_eq a b : Placeholder_eqb a b = true ↔ a = b.
Proof. by destruct a, b. Qed.

Lemma placeholder_text_cons ph :
  ∃ p, placeholder_text ph = String "<" p ∧ occurs "<" p = false.
Proof. destruct ph; eexists; split; reflexivity. Qed.

(** Another placeholder is no match for a placeholder. *)
Lemma strip_prefix_other_placeholder ph ph' s :
  Placeholder_eqb ph' ph = false →
  strip_prefix (placeholder_text ph) (placeholder_text ph' +:+ s) = None.
Proof. by destruct ph, ph'. Qed.

Lemma flatten_cons seg segs :
  flatten (seg :: segs) = segment_text seg +:+ flatten segs.
Proof. reflexivity. Qed.

(** Where [indexOf] finds a placeholder in a method name. *)
Lemma split_first_flatten ph v segs :
  plain_texts segs →
  match split_first (placeholder_text ph) (flatten segs) with
  | Some (pre, post) =>
      flatten (fill_first ph v segs) = pre +:+ v +:+ post
  | None => fill_first ph v segs = segs
  end.
Proof.
  destruct (placeholder_text_cons ph) as (p & Hp & Hpl).
  induction 1 as [|seg segs Hseg Hsegs IH]; [by rewrite Hp |].
  rewrite flatten_cons. destruct seg as [s|ph']; cbn [segment_text fill_first].
  - rewrite Hp, split_first_skip by done. rewrite <- Hp.
    destruct (split_first _ (flatten segs)) as [[pre post]|];
      cbn [fmap option_fmap option_map].
    + by rewrite flatten_cons, IH, app_assoc.
    + by rewrite IH.
  - destruct (Placeholder_eqb ph' ph) eqn:E.
    + apply Placeholder_eqb_eq in E as ->.
      by rewrite split_first_hit, flatten_cons, app_nil_l.
    + destruct (placeholder_text_cons ph') as (p' & Hp' & Hpl').
      pose proof (strip_prefix_other_placeholder ph ph' (flatten segs) E)
        as Hstrip.
      rewrite Hp' in *. rewrite app_cons in *.
      cbn [split_first]. rewrite Hstrip.
      rewrite Hp, split_first_skip by done. rewrite <- Hp.
      destruct (split_first _ (flatten segs)) as [[pre post]|];
        cbn [fmap option_fmap option_map].
      * rewrite flatten_cons, IH. cbn [segment_text].
        by rewrite Hp', !app_cons, app_assoc.
      * by rewrite IH.
Qed.

(** One [replace] of [template] on a method name. *)
Lemma replace_flatten ph v segs :
  plain_texts segs →
  occurs "$" v = false →
  replace (placeholder_text ph) v (flatten segs) =
    flatten (fill_first ph v segs).
Proof.
  intros Hsegs Hv. unfold replace.
  pose proof (split_first_flatten ph v segs Hsegs) as H.
  destruct (split_first _ (flatten segs)) as [[pre post]|].
  - by rewrite getSubstitution_plain.
  - by rewrite H.
Qed.

Lemma fill_first_plain ph v segs :
  occurs "<" v = false → plain_texts segs → plain_texts (fill_first ph v segs).
Proof.
  intros Hv. induction 1 as [|seg segs Hseg Hsegs IH]; [constructor |].
  destruct seg as [s|ph']; cbn [fill_first].
  - by constructor.
  - destruct (Placeholder_eqb ph' ph); by constructor.
Qed.

Lemma fill_first_absent ph v segs :
  ph ∉ holes segs → fill_first ph v segs = segs.
Proof.
  induction segs as [|[s|ph'] segs IH]; [done | ..];
    cbn [fill_first holes]; intros Hnotin.
  - by rewrite IH.
  - apply not_elem_of_cons in Hnotin as [Hne Hnotin].
    destruct (Placeholder_eqb ph' ph) eqn:E.
    + by apply Placeholder_eqb_eq in E.
    + by rewrite IH.
Qed.

Lemma fill_first_holes ph ph' v segs :
  ph' ∈ holes (fill_first ph v segs) → ph' ∈ holes segs.
Proof.
  induction segs as [|[s|ph''] segs IH]; [done | ..];
    cbn [fill_first holes]; [done |].
  destruct (Placeholder_eqb ph'' ph); cbn [holes].
  - intros H. apply elem_of_cons. by right.
  - intros [->|H]%elem_of_cons; apply elem_of_cons;
      [by left | right; by apply IH].
Qed.

(** When no placeholder is written twice, the four replacements fill
    every placeholder. *)
Lemma fill_first_all (value : Placeholder → string) segs :
  NoDup (holes segs) →
  fill_first PhPluralCap (value PhPluralCap)
    (fill_first PhPlural (value PhPlural)
       (fill_first PhSingularCap (value PhSingularCap)
          (fill_first PhSingular (value PhSingular) segs))) =
  fill_all value segs.
Proof.
  induction segs as [|[s|ph] segs IH]; [done | ..]; cbn [holes].
  - intros Hnd. cbn [fill_first]. by rewrite IH.
  - intros [Hnotin Hnd]%NoDup_cons.
    change (fill_all value (Hole ph :: segs))
      with (Text (value ph) :: fill_all value segs).
    rewrite <- (IH Hnd).
    destruct ph; cbn [fill_first Placeholder_eqb].
    + f_equal. by rewrite (fill_first_absent PhSingular).
    + f_equal.
      rewrite (fill_first_absent PhSingularCap); [done |].
      intros H. by apply fill_first_holes in H.
    + f_equal.
      rewrite (fill_first_absent PhPlural); [done |].
      intros H. by do 2 apply fill_first_holes in H.
    + f_equal.
      rewrite (fill_first_absent PhPluralCap); [done |].
      intros H. by do 3 apply fill_first_holes in H.
Qed.

(** X2: [template] on a method name that is written with texts free of [<]
    and any placeholders: of each of the four placeholders the first
    one becomes the inflected name, and every further one stays as it
    is written. The inflected names are taken to hold neither [<] nor
    [$]. *)
Theorem template_fills_first_of_each (r : Relation) (segs : list Segment) :
  plain_texts segs →
  (∀ ph, occurs "<" (placeholder_value r ph) = false) →
  (∀ ph, occurs "$" (placeholder_value r ph) = false) →
  template r (flatten segs) =
  flatten
    (fill_first PhPluralCap (placeholder_value r PhPluralCap)
       (fill_first PhPlural (placeholder_value r PhPlural)
          (fill_first PhSingularCap (placeholder_value r PhSingularCap)
             (fill_first PhSingular (placeholder_value r PhSingular)
                segs)))).
Proof.
  intros Hsegs Hlt Hdollar. unfold template.
  change "<singular>" with (placeholder_text PhSingular).
  change "<Singular>" with (placeholder_text PhSingularCap).
  change "<plural>" with (placeholder_text PhPlural).
  change "<Plural>" with (placeholder_text PhPluralCap).
  change (singularize (_name r)) with (placeholder_value r PhSingular).
  change (capitalize (placeholder_value r PhSingular))
    with (placeholder_value r PhSingularCap).
  change (pluralize (placeholder_value r PhSingular))
    with (placeholder_value r PhPlural).
  change (capitalize (placeholder_value r PhPlural))
    with (placeholder_value r PhPluralCap).
  rewrite !replace_flatten; auto using fill_first_plain.
Qed.

(** X3: A method name in which no placeholder is written twice: [template]
    fills every placeholder with its inflected name, in whatever order
    the placeholders are written, and keeps the texts between them. *)
Theorem template_fills_distinct_placeholders
    (r : Relation) (segs : list Segment) :
  plain_texts segs →
  NoDup (holes segs) →
  (∀ ph, occurs "<" (placeholder_value r ph) = false) →
  (∀ ph, occurs "$" (placeholder_value r ph) = false) →
  template r (flatten segs) = flatten (fill_all (placeholder_value r) segs) ∧
  holes (fill_all (placeholder_value r) segs) = [].
Proof.
  intros Hsegs Hnd Hlt Hdollar. split.
  - unfold template.
    change "<singular>" with (placeholder_text PhSingular).
    change "<Singular>" with (placeholder_text PhSingularCap).
    change "<plural>" with (placeholder_text PhPlural).
    change "<Plural>" with (placeholder_text PhPluralCap).
    change (singularize (_name r)) with (placeholder_value r PhSingular).
    change (capitalize (placeholder_value r PhSingular))
      with (placeholder_value r PhSingularCap).
    change (pluralize (placeholder_value r PhSingular))
      with (placeholder_value r PhPlural).
    change (capitalize (placeholder_value r PhPlural))
      with (placeholder_value r PhPluralCap).
    rewrite !replace_flatten by auto using fill_first_plain.
    by rewrite fill_first_all.
  - clear. induction segs as [|[s|ph] segs IH]; done.
Qed.

End TemplateSegments.

Lemma template_fills_first_of_each_witness :
  template Blog.singularize Blog.pluralize Blog.capitalize Blog.author
    (flatten [Text "add"; Hole PhSingularCap; Text "To"; Hole PhPluralCap;
              Text "Of"; Hole PhSingularCap]) =
  "addAuthorToAuthorsOf<Singular>".
Proof.
  apply (template_fills_first_of_each Blog.singularize Blog.pluralize
           Blog.capitalize Blog.author
           [Text "add"; Hole PhSingularCap; Text "To"; Hole PhPluralCap;
            Text "Of"; Hole PhSingularCap]).
  - repeat constructor.
  - intros []; reflexivity.
  - intros []; reflexivity.
Defined.

Lemma template_fills_distinct_placeholders_witness :
  template Blog.singularize Blog.pluralize Blog.capitalize Blog.author
    (flatten [Hole PhPlural; Text "Where"; Hole PhSingularCap]) =
  "authorsWhereAuthor".
Proof.
  apply (template_fills_distinct_placeholders Blog.singularize
           Blog.pluralize Blog.capitalize Blog.author
           [Hole PhPlural; Text "Where"; Hole PhSingularCap]).
  - repeat constructor.
  - apply NoDup_cons. split; [| apply NoDup_singleton].
    intros [H|H]%elem_of_cons; [discriminate H | by apply elem_of_nil in H].
  - intros []; reflexivity.
  - intros []; reflexivity.
Defined.

(** * [BaseRelation#methods] *)

(** The keys that are visited are the keys of the object. *)
Lemma own_keys_order_elem {V : Type} (entries : list (string * V)) kv :
  kv ∈ own_keys_order entries ↔ kv ∈ entries.
Proof.
  unfold own_keys_order. rewrite elem_of_app, list_elem_of_fmap.
  rewrite list_elem_of_filter. split.
  - intros [([n kv'] & -> & Hin)|[_ Hin]]; [| done].
    rewrite merge_sort_Permutation in Hin.
    apply list_elem_of_omap in Hin as (kv'' & Hin & Heq).
    destruct (array_index kv''.1); [| done]. cbn in Heq.
    by injection Heq as _ <-.
  - intros Hin. destruct (array_index kv.1) as [n|] eqn:E; [left | by right].
    exists (n, kv). split; [done |].
    rewrite merge_sort_Permutation.
    apply list_elem_of_omap. exists kv. split; [done |]. by rewrite E.
Qed.

(** An object without array indices among its keys is visited in the
    order of definition. *)
Lemma own_keys_order_plain {V : Type} (entries : list (string * V)) :
  Forall (λ kv, array_index kv.1 = None) entries →
  own_keys_order entries = entries.
Proof.
  intros Hall. unfold own_keys_order.
  assert (omap (λ kv : string * V, n ← array_index kv.1; Some (n, kv))
            entries = []) as ->.
  { induction Hall as [|kv l Hkv Hl IH]; [done |].
    cbn. by rewrite Hkv, IH. }
  cbn. induction Hall as [|kv l Hkv Hl IH]; [done |].
  rewrite filter_cons_True by done. by rewrite IH.
Qed.

Section MethodsFacts.

Variables singularize pluralize capitalize : string → string.
Variable Member : Type.

Local Abbreviation template := (template singularize pluralize capitalize).
Local Abbreviation methods :=
  (methods singularize pluralize capitalize Member).
Local Abbreviation methods_callback :=
  (methods_callback singularize pluralize capitalize Member).

Implicit Types (self : Relation)
  (static_methods : list (string * (Relation → Member))).

(** One more key is visited. *)
Lemma transform_snoc self visited key method :
  foldl (methods_callback self) ∅ (visited ++ [(key, method)]) =
    <[template self key := method self]>
      (foldl (methods_callback self) ∅ visited).
Proof. by rewrite foldl_app. Qed.

Lemma transform_names self visited (name : string) :
  is_Some (foldl (methods_callback self) ∅ visited !! name) ↔
  ∃ key method, (key, method) ∈ visited ∧ name = template self key.
Proof.
  induction visited as [|[key method] ms IH] using rev_ind.
  - split.
    { intros [? H]. cbn [foldl] in H. by rewrite lookup_empty in H. }
    intros (? & ? & H & _). by apply elem_of_nil in H.
  - rewrite transform_snoc, lookup_insert_is_Some', IH.
    setoid_rewrite elem_of_app. setoid_rewrite list_elem_of_singleton.
    split.
    + intros [<-|(k & m & ? & ->)]; [exists key, method | exists k, m];
        split; auto.
    + intros (k & m & [?|[= -> ->]] & ->); [right | by left].
      by exists k, m.
Qed.

Lemma transform_last self
    (before after : list (string * (Relation → Member)))
    (key : string) (method : Relation → Member) :
  (∀ key' method', (key', method') ∈ after →
                   template self key' ≠ template self key) →
  foldl (methods_callback self) ∅ (before ++ (key, method) :: after)
    !! template self key = Some (method self).
Proof.
  induction after as [|[key' method'] after IH] using rev_ind; intros Hafter.
  - by rewrite transform_snoc, lookup_insert_eq.
  - rewrite app_comm_cons, app_assoc, transform_snoc.
    rewrite lookup_insert_ne.
    + apply IH. intros k m Hin. apply (Hafter k m).
      apply elem_of_app. by left.
    + apply (Hafter key' method'). apply elem_of_app. right.
      by apply list_elem_of_singleton.
Qed.

(** X4: The members that a relation adds are named by the templated keys of
    the static [methods] object, and by nothing else. *)
Theorem methods_names self static_methods (name : string) :
  is_Some (methods self static_methods !! name) ↔
  ∃ key method, (key, method) ∈ static_methods ∧ name = template self key.
Proof.
  unfold methods. rewrite transform_names.
  by setoid_rewrite own_keys_order_elem.
Qed.

(** X5: Two keys of the static [methods] object may give the same name
    once the placeholders are filled. The member under that name is
    then the one of the key that [_.transform] visits last: an earlier
    one is overwritten and no error is raised. The keys are visited in
    the order of the keys of an object, array indices first; for an
    object without array indices among its keys this is the order of
    definition, so that the key defined last wins. *)
Theorem methods_last_visited_wins self static_methods
    (before after : list (string * (Relation → Member)))
    (key : string) (method : Relation → Member) :
  own_keys_order static_methods = before ++ (key, method) :: after →
  (∀ key' method', (key', method') ∈ after →
                   template self key' ≠ template self key) →
  methods self static_methods !! template self key = Some (method self) ∧
  (Forall (λ km, array_index km.1 = None) static_methods →
   static_methods = before ++ (key, method) :: after).
Proof.
  intros Horder Hafter. split.
  - unfold methods. rewrite Horder. by apply transform_last.
  - intros Hplain. by rewrite <- Horder, own_keys_order_plain.
Qed.

End MethodsFacts.

(** A relation called [1] with the keys [<singular>] and [1], defined in
    this order: the key [1] is visited first, and the member called [1]
    is the one of [<singular>]. *)
Lemma methods_last_visited_wins_witness :
  let self := Relation_init "1" Blog.Article Blog.User None in
  let static_methods : list (string * (Relation → string)) :=
    [("<singular>", λ _, "first"); ("1", λ _, "second")] in
  methods Blog.singularize Blog.pluralize Blog.capitalize string self
    static_methods !! "1" = Some "first" ∧
  (Forall (λ km, array_index km.1 = None) static_methods →
   static_methods = [("1", λ _, "second")] ++ ("<singular>", λ _, "first") :: []).
Proof.
  intros self static_methods.
  apply (methods_last_visited_wins Blog.singularize Blog.pluralize
           Blog.capitalize string self static_methods
           [("1", λ _, "second")] [] "<singular>" (λ _, "first")).
  - reflexivity.
  - intros key' method' H. by apply elem_of_nil in H.
Defined.

(** * [BaseRelation#init] *)

Section RelationInitFacts.

Variable db_model : string → ModelClass.
Variable singularize : string → string.

Local Abbreviation BaseRelation_init :=
  (BaseRelation_init db_model singularize).

(** X6: [init] reads at most two arguments after the attribute details, and
    an options object in the first place ends the reading: the related
    model is then looked up under the singular of the relation's name,
    and a model class or a model name that follows the options is
    ignored. *)
Theorem init_reads_leading_arguments
    (name : string) (modelClass : ModelClass) :
  (∀ a b rest,
     BaseRelation_init name modelClass (a :: b :: rest) =
     BaseRelation_init name modelClass [a; b]) ∧
  (∀ o rest,
     BaseRelation_init name modelClass (ArgOptions o :: rest) =
     Relation_init name modelClass (db_model (singularize name)) (Some o)) ∧
  BaseRelation_init name modelClass [] =
    Relation_init name modelClass (db_model (singularize name)) None.
Proof.
  split_and!; [| done | done].
  intros [m|s|o] b rest; reflexivity.
Qed.

End RelationInitFacts.

(** * [BelongsTo#foreignKeyProperty] *)

Section ForeignKeyPropertyFacts.

Variables camelCase snakeCase : string → string.

Local Abbreviation foreignKey := (foreignKey snakeCase).
Local Abbreviation foreignKeyProperty :=
  (foreignKeyProperty camelCase snakeCase).

Lemma foreignKeyProperty_cached r :
  truthy (_foreignKeyProperty r) = true →
  foreignKeyProperty r = (_foreignKeyProperty r, r).
Proof. unfold foreignKeyProperty. by intros ->. Qed.

(** X7: The first read of [foreignKeyProperty] reads [foreignKey], and so
    fixes both: the property name is the camel-cased foreign key, and
    from then on both getters return what they returned then, whatever
    name, classes and options the relation is given afterwards. The
    foreign key at hand and its camel-cased form are taken to be
    non-empty names. *)
Theorem foreignKeyProperty_locks_foreignKey (r : Relation) (cs : list Change) :
  truthy (_foreignKeyProperty r) = false →
  snakeCase (_name r +:+ "_id") ≠ "" →
  camelCase (default "" (foreignKey r).1) ≠ "" →
  ∃ key,
    (foreignKey r).1 = Some key ∧
    (foreignKeyProperty r).1 = Some (camelCase key) ∧
    Forall (λ v, v = Some (camelCase key))
      (read_after_each foreignKeyProperty cs (foreignKeyProperty r).2) ∧
    Forall (λ v, v = Some key)
      (read_after_each foreignKey cs (foreignKeyProperty r).2).
Proof.
  intros Hslot Hsnake Hcamel.
  destruct (foreignKey_slot snakeCase r Hsnake) as [Tf Ef].
  destruct (truthy_inv _ Tf) as (key & Hkey & Hne).
  assert (camelCase key ≠ "") as Hc
    by (rewrite Ef, Hkey in Hcamel; exact Hcamel).
  exists key. rewrite Ef, Hkey.
  unfold foreignKeyProperty. rewrite Hslot. cbn [negb].
  destruct (foreignKey r) as [k r1] eqn:E. cbn [fst snd] in *.
  subst k. rewrite Hkey. cbn [default set_foreignKeyProperty
    _foreignKeyProperty fst snd].
  split_and!; [done | done | |].
  - set (r2 := set_foreignKeyProperty _ r1).
    change (Some (camelCase key)) with (_foreignKeyProperty r2).
    apply (read_after_each_cached foreignKeyProperty _foreignKeyProperty);
      [done | apply foreignKeyProperty_cached |].
    apply truthy_Some_ne. exact Hc.
  - set (r2 := set_foreignKeyProperty _ r1).
    replace (Some key) with (_foreignKey r2) by done.
    apply (read_after_each_cached foreignKey _foreignKey);
      [done | apply foreignKey_cached |].
    exact Tf.
Qed.

End ForeignKeyPropertyFacts.

(** The author of an article: the foreign key is [author_id] and its
    property is [authorId]. *)
Lemma foreignKeyProperty_locks_foreignKey_witness :
  (foreignKeyProperty Blog.camelCase Blog.snakeCase Blog.author).1 =
    Some "authorId" ∧
  ∃ key,
    (foreignKey Blog.snakeCase Blog.author).1 = Some key ∧
    (foreignKeyProperty Blog.camelCase Blog.snakeCase Blog.author).1 =
      Some (Blog.camelCase key) ∧
    Forall (λ v, v = Some (Blog.camelCase key))
      (read_after_each (foreignKeyProperty Blog.camelCase Blog.snakeCase)
         [{| new_name := "writer"; new_modelClass := Blog.Article;
             new_relatedModel := Blog.User; new_options := no_options |}]
         (foreignKeyProperty Blog.camelCase Blog.snakeCase Blog.author).2) ∧
    Forall (λ v, v = Some key)
      (read_after_each (foreignKey Blog.snakeCase)
         [{| new_name := "writer"; new_modelClass := Blog.Article;
             new_relatedModel := Blog.User; new_options := no_options |}]
         (foreignKeyProperty Blog.camelCase Blog.snakeCase Blog.author).2).
Proof.
  split; [reflexivity |].
  apply (foreignKeyProperty_locks_foreignKey Blog.camelCase Blog.snakeCase
           Blog.author).
  - reflexivity.
  - discriminate.
  - discriminate.
Defined.

(** * The MySQL grammar and the MySQL column types *)

Section MySQLGrammarFacts.

Import JsString JsStringFacts.

Variable Grammar_escape : SqlValue → string.

Local Abbreviation escape := (MySQLGrammar_escape Grammar_escape).

(** X8: [escape] doubles the first backslash of a string and no other: what
    follows the first backslash reaches the base grammar as it is,
    further backslashes included. A string without a backslash and a
    value that is not a string reach it unchanged. *)
Theorem mysql_escape_doubles_first_backslash_only (pre post : string) :
  occurs (ascii_of_nat 92) pre = false →
  escape (SqlString (pre +:+ backslash +:+ post)) =
    Grammar_escape (SqlString (pre +:+ backslash +:+ backslash +:+ post)) ∧
  escape (SqlString pre) = Grammar_escape (SqlString pre) ∧
  (∀ n, escape (SqlNumber n) = Grammar_escape (SqlNumber n)) ∧
  (∀ b, escape (SqlBool b) = Grammar_escape (SqlBool b)) ∧
  escape SqlNull = Grammar_escape SqlNull.
Proof.
  intros Hpre. split_and!; try done.
  - unfold MySQLGrammar_escape, MySQLGrammar_escape_value, backslash.
    rewrite replace_first by done.
    unfold two_backslashes, backslash. by rewrite !app_cons, !app_nil_l.
  - unfold MySQLGrammar_escape, MySQLGrammar_escape_value, backslash.
    by rewrite replace_absent by (by apply split_first_none).
Qed.

End MySQLGrammarFacts.

Lemma mysql_escape_doubles_first_backslash_only_witness :
  let quoted v := match v with SqlString s => s | _ => "NULL" end in
  let pre := "a" in
  let post := "b" +:+ backslash +:+ "c" in
  MySQLGrammar_escape quoted (SqlString (pre +:+ backslash +:+ post)) =
    quoted (SqlString (pre +:+ backslash +:+ backslash +:+ post)) ∧
  MySQLGrammar_escape quoted (SqlString pre) = quoted (SqlString pre) ∧
  (∀ n, MySQLGrammar_escape quoted (SqlNumber n) = quoted (SqlNumber n)) ∧
  (∀ b, MySQLGrammar_escape quoted (SqlBool b) = quoted (SqlBool b)) ∧
  MySQLGrammar_escape quoted SqlNull = quoted SqlNull.
Proof.
  intros quoted pre post.
  apply (mysql_escape_doubles_first_backslash_only quoted pre post).
  reflexivity.
Defined.

Section MySQLTypeFacts.

Variable Translator_typeForDecimal : DecimalOptions → string.

Local Abbreviation typeForDecimal :=
  (MySQLTranslator_typeForDecimal Translator_typeForDecimal).

(** X9: [typeForDecimal] always hands a precision to the base translator.
    Without options, without a precision, or with the precision 0, the
    column is a decimal of precision 64 and scale 30, and a scale that
    was given alone is dropped; with a precision the options are passed
    on as they are, a missing scale included. *)
Theorem mysql_decimal_defaults (options : option DecimalOptions) :
  truthy_number (precision (MySQL_decimal_options options)) = true ∧
  (truthy_number (options ≫= precision) = false →
   typeForDecimal options =
     Translator_typeForDecimal
       {| precision := Some 64%Z; scale := Some 30%Z |}) ∧
  (∀ opts, options = Some opts → truthy_number (precision opts) = true →
           typeForDecimal options = Translator_typeForDecimal opts) ∧
  typeForDecimal (Some (MySQL_decimal_options options)) =
    typeForDecimal options.
Proof.
  unfold MySQLTranslator_typeForDecimal, MySQL_decimal_options.
  destruct options as [[p s]|]; cbn; [| done].
  destruct (truthy_number p) eqn:E; cbn; rewrite ?E; cbn.
  - split_and!; [done | done | by intros ? [= <-] | done].
  - split_and!; [done | done | | done].
    intros ? [= <-]. cbn. by rewrite E.
Qed.

End MySQLTypeFacts.

(** X10: The weekday numbers of the query language count from Sunday, those
    of the MySQL function [WEEKDAY] from Monday. On the weekday numbers
    0 to 6, [shift] gives a weekday number again, sends Sunday to 6 and
    every other day to the number before, and no two days to the same
    number. *)
Theorem mysql_weekday_shift (n : Z) :
  (0 ≤ n < 7)%Z →
  (0 ≤ shift n < 7)%Z ∧
  shift n = (if decide (n = 0%Z) then 6 else n - 1)%Z ∧
  ((shift n + 1) `mod` 7)%Z = n.
Proof.
  intros Hn. unfold shift.
  assert (n = 0 ∨ n = 1 ∨ n = 2 ∨ n = 3 ∨ n = 4 ∨ n = 5 ∨ n = 6)%Z
    as Hcases by lia.
  destruct Hcases as [->|[->|[->|[->|[->|[->| ->]]]]]]; by vm_compute.
Qed.

Lemma mysql_weekday_shift_witness :
  (0 ≤ shift 0 < 7)%Z ∧
  shift 0 = (if decide (0 = 0)%Z then 6 else 0 - 1)%Z ∧
  ((shift 0 + 1) `mod` 7)%Z = 0%Z.
Proof. apply (mysql_weekday_shift 0). lia. Defined.

(** * Names in use in a query *)

Lemma model_query_tableInQuery h q r mc m name :
  model_query h q r mc m →
  _tableInQuery q name h = Ok (in_query mc m name) h.
Proof.
  intros (Hq & Hc & Hmc & Hm).
  assert (∀ o, _joinedRelations r = Some o → is_Some (objects h !! o))
    as Hobj.
  { intros o Ho. unfold joined in Hm. rewrite Ho in Hm. cbn in Hm. eauto. }
  rewrite (tableInQuery_Ok h q r mc name Hq Hmc Hobj). by rewrite Hm.
Qed.

(** X11: [_tableInQuery] on a model query answers for the table of the model
    and for the aliases recorded for its joined relations, and for
    nothing else: the key of an association is not a name in use, only
    the alias recorded under it. It reads the query and writes
    nothing. *)
Theorem tableInQuery_table_or_alias
    (h : Heap) (q : nat) (r : Query) (mc : ModelClass)
    (m : gmap string JoinDetails) (name : string) :
  model_query h q r mc m →
  ∃ b, _tableInQuery q name h = Ok b h ∧
       (b = true ↔
        name = tableName mc ∨
        ∃ key joinDetails, m !! key = Some joinDetails ∧
                           as_ joinDetails = name).
Proof.
  intros Hmq. exists (in_query mc m name).
  split; [by eapply model_query_tableInQuery | apply in_query_spec].
Qed.

Lemma tableInQuery_table_or_alias_witness :
  ∃ b, _tableInQuery 2 "author" Blog.authored_heap = Ok b Blog.authored_heap ∧
       (b = true ↔
        "author" = tableName Blog.Article ∨
        ∃ key joinDetails, Blog.author_joined !! key = Some joinDetails ∧
                           as_ joinDetails = "author").
Proof.
  apply (tableInQuery_table_or_alias Blog.authored_heap 2
           Blog.authored_query Blog.Article Blog.author_joined "author").
  split_and!; [vm_compute; reflexivity | reflexivity | reflexivity |
               vm_compute; reflexivity].
Defined.

(** X12: A query that has no model cannot be asked: [_tableInQuery] throws a
    type error, whatever the name, and leaves the store as it is. *)
Theorem tableInQuery_without_model
    (h : Heap) (q : nat) (r : Query) (name : string) :
  queries h !! q = Some r →
  _model r = None →
  ∃ e, _tableInQuery q name h = Throw (TypeError e) h.
Proof.
  intros Hq Hmc. destruct h as [Q O P T C E]. cbn in Hq.
  unfold _tableInQuery. exec. rewrite Hmc. cbn [from_option]. exec.
  by eexists.
Qed.

Lemma tableInQuery_without_model_witness :
  ∃ e, _tableInQuery 0 "articles" Blog.base_heap =
         Throw (TypeError e) Blog.base_heap.
Proof.
  by apply (tableInQuery_without_model Blog.base_heap 0
              {| __identity__ := BaseQuery; _adapter := Some 0;
                 _executed := false; _promise := Some 0;
                 _model := None; _joins := [];
                 _joinedRelations := None |} "articles").
Defined.

(** * [_uniqueTableAlias] *)

(** X13: [_uniqueTableAlias] on a model query with [n] joined relations
    returns, without writing anything, the first of [name], [name_j1],
    [name_j2], ... that is not in use; every candidate before it is in
    use, and the suffix never goes beyond [n + 1]. *)
Theorem uniqueTableAlias_first_free_bounded
    (h : Heap) (q : nat) (r : Query) (mc : ModelClass)
    (m : gmap string JoinDetails) (name : string) :
  model_query h q r mc m →
  ∃ j, _uniqueTableAlias q name h = Ok (candidate name j) h ∧
       j ≤ S (size m) ∧
       in_query mc m (candidate name j) = false ∧
       ∀ i, i < j → in_query mc m (candidate name i) = true.
Proof.
  intros (Hq & Hc & Hmc & Hm).
  assert (∀ o, _joinedRelations r = Some o → is_Some (objects h !! o))
    as Hobj.
  { intros o Ho. unfold joined in Hm. rewrite Ho in Hm. cbn in Hm. eauto. }
  destruct (uniqueTableAlias_Ok h q r mc name Hq Hmc Hobj) as (a & Ha & ->).
  rewrite Hm in Ha. cbn [default] in Ha.
  change (alias_search (S (S (size m))) (in_query mc m) name
            (candidate name 0) (0 + 1) = Some a) in Ha.
  apply alias_search_Some in Ha as (j & Hj & -> & Hfree & Hbefore).
  exists j. split; [done |]. split; [lia |]. split; [done |].
  intros i Hi. apply Hbefore. lia.
Qed.

Lemma uniqueTableAlias_first_free_bounded_witness :
  ∃ j, _uniqueTableAlias 2 "users" Blog.authored_heap =
         Ok (candidate "users" j) Blog.authored_heap ∧
       j ≤ S (size Blog.author_joined) ∧
       in_query Blog.Article Blog.author_joined (candidate "users" j)
         = false ∧
       ∀ i, i < j →
            in_query Blog.Article Blog.author_joined (candidate "users" i)
              = true.
Proof.
  apply (uniqueTableAlias_first_free_bounded Blog.authored_heap 2
           Blog.authored_query Blog.Article Blog.author_joined "users").
  split_and!; [vm_compute; reflexivity | reflexivity | reflexivity |
               vm_compute; reflexivity].
Defined.

(** * Joining the segments of an association *)

Lemma model_query_objects h q r mc m :
  model_query h q r mc m →
  ∃ o, _joinedRelations r = Some o ∧ objects h !! o = Some m.
Proof.
  intros (_ & _ & _ & Hm). unfold joined in Hm.
  destruct (_joinedRelations r) as [o|]; [| done]. eauto.
Qed.

Lemma model_query_preserves h h' q r mc m :
  preserves h h' → model_query h q r mc m → model_query h' q r mc m.
Proof.
  intros (Hq & Ho & _) Hmq.
  destruct (model_query_objects _ _ _ _ _ Hmq) as (o & Hjr & Hobj).
  destruct Hmq as (Hr & Hc & Hmc & _).
  split_and!; [by eapply prefix_lookup | done | done |].
  unfold joined. rewrite Hjr. cbn. by eapply prefix_lookup.
Qed.

(** The copy that [_dup] makes of a model query is a model query with
    the same entries, in an object of its own. *)
Lemma model_query_dup h q r mc m :
  model_query h q r mc m →
  _dup q h = Ok (length (queries h)) (dup_heap q r h) ∧
  model_query (dup_heap q r h) (length (queries h))
    (dup_of r (length (promises h)) (Some (length (objects h)))) mc m.
Proof.
  intros Hmq.
  destruct (model_query_objects _ _ _ _ _ Hmq) as (o & Hjr & Hobj).
  destruct Hmq as (Hr & Hc & Hmc & Hm).
  split.
  - apply dup_Ok; [done |]. intros o' Ho'. rewrite Hjr in Ho'.
    injection Ho' as <-. eauto.
  - assert (clone_ref h r = Some (length (objects h))) as Hclone
      by (unfold clone_ref; by rewrite Hjr).
    split_and!.
    + by rewrite dup_heap_lookup, Hclone.
    + by rewrite dup_of_identity.
    + unfold dup_of. by rewrite Hc.
    + unfold dup_of, joined, dup_heap, grown, clone_objects.
      rewrite Hc. cbn. rewrite Hm. apply lookup_snoc.
Qed.

(** What [_joinRelation] returns for a model query is a model query
    again. *)
Lemma model_query_joinRelation h q r mc m name through relation :
  model_query h q r mc m →
  ∃ alias,
    join_alias mc m relation = Some alias ∧
    _joinRelation q name through relation h =
      Ok (length (queries h))
        (joinRelation_heap q r mc m name through relation alias h) ∧
    model_query (joinRelation_heap q r mc m name through relation alias h)
      (length (queries h))
      (set_joins (_joins r ++ [join_descriptor mc m through relation alias])
         (dup_of r (length (promises h)) (Some (length (objects h)))))
      mc (<[name := {| as_ := alias; relation := relation |}]> m).
Proof.
  intros Hmq.
  destruct (model_query_objects _ _ _ _ _ Hmq) as (o & Hjr & Hobj).
  destruct Hmq as (Hr & Hc & Hmc & Hm).
  destruct (joinRelation_Ok h q r mc o m name through relation
              Hr Hc Hmc Hjr Hobj) as (alias & Ha & Hj).
  exists alias. split; [done |]. split; [done |].
  split_and!.
  - apply joinRelation_heap_query.
  - unfold dup_of. by rewrite Hc.
  - unfold dup_of. by rewrite Hc.
  - unfold joined, dup_of. rewrite Hc. cbn [set_joins _joinedRelations].
    cbn [mbind option_bind]. apply joinRelation_heap_object.
Qed.

(** A new entry under a name that is not in use keeps the recorded
    names distinct. *)
Lemma insert_aliases_distinct mc m name alias relation :
  aliases_distinct mc m →
  in_query mc m alias = false →
  aliases_distinct mc (<[name := {| as_ := alias; relation := relation |}]> m).
Proof.
  intros [Hinj Htable] Hfree.
  assert (alias ≠ tableName mc) as Hnt.
  { intros ->. apply not_true_iff_false in Hfree. apply Hfree.
    apply in_query_spec. by left. }
  assert (∀ k jd, m !! k = Some jd → as_ jd ≠ alias) as Hna.
  { intros k jd Hk <-. apply not_true_iff_false in Hfree. apply Hfree.
    apply in_query_spec. right. eauto. }
  split.
  - intros k1 k2 jd1 jd2.
    destruct (decide (k1 = name)) as [->|N1];
      destruct (decide (k2 = name)) as [->|N2]; [done | ..].
    + rewrite lookup_insert_eq, lookup_insert_ne by done.
      intros [= <-] H2 Heq. cbn in Heq. by destruct (Hna _ _ H2).
    + rewrite lookup_insert_eq, lookup_insert_ne by done.
      intros H1 [= <-] Heq. cbn in Heq. by destruct (Hna _ _ H1).
    + rewrite !lookup_insert_ne by done. apply Hinj.
  - intros k jd. destruct (decide (k = name)) as [->|N].
    + rewrite lookup_insert_eq. by intros [= <-].
    + rewrite lookup_insert_ne by done. apply Htable.
Qed.

(** X14: [_joinRelation] keeps the names of a query distinct: if no two
    joined relations of the query are recorded under the same table
    name or alias, and none under the table of the model, the same
    holds of the query it returns, whether the segment is new or was
    joined before. The segment is recorded with the relation that was
    given. *)
Theorem joinRelation_keeps_names_distinct
    (h : Heap) (q : nat) (r : Query) (mc : ModelClass)
    (m : gmap string JoinDetails) (name : string) (through : option string)
    (relation : Relation) :
  model_query h q r mc m →
  aliases_distinct mc m →
  ∃ q' h' r' m' alias,
    _joinRelation q name through relation h = Ok q' h' ∧
    model_query h' q' r' mc m' ∧
    m' = <[name := {| as_ := alias; relation := relation |}]> m ∧
    aliases_distinct mc m'.
Proof.
  intros Hmq Hdist.
  destruct (model_query_joinRelation h q r mc m name through relation Hmq)
    as (alias & Ha & Hj & Hmq').
  eexists _, _, _, _, alias. split; [exact Hj |]. split; [exact Hmq' |].
  split; [done |].
  apply insert_aliases_distinct; [done |]. by eapply join_alias_free.
Qed.

Lemma joinRelation_keeps_names_distinct_witness :
  ∃ q' h' r' m' alias,
    _joinRelation 2 "author" None Blog.author Blog.authored_heap
      = Ok q' h' ∧
    model_query h' q' r' Blog.Article m' ∧
    m' = <["author" := {| as_ := alias; relation := Blog.author |}]>
           Blog.author_joined ∧
    aliases_distinct Blog.Article m'.
Proof.
  apply (joinRelation_keeps_names_distinct Blog.authored_heap 2
           Blog.authored_query Blog.Article Blog.author_joined "author"
           None Blog.author).
  - split_and!; [vm_compute; reflexivity | reflexivity | reflexivity |
                 vm_compute; reflexivity].
  - unfold Blog.author_joined. split.
    + intros k1 k2 jd1 jd2 [<- _]%lookup_singleton_Some
        [<- _]%lookup_singleton_Some. done.
    + intros k jd [_ <-]%lookup_singleton_Some. discriminate.
Defined.

Section JoinAssociationFacts.

Variable _lookupRelation : Query → string → Error + Relation.
Variable _associationForEach : JsValue → Error + list string.

Local Abbreviation joinAssociation_each :=
  (joinAssociation_each _lookupRelation).
Local Abbreviation _joinAssociation :=
  (_joinAssociation _lookupRelation _associationForEach).

(** The callback of [_joinAssociation] over segments that all name a
    relation. *)
Lemma joinAssociation_each_Ok h this r_this assocs dup r_d mc m_d through :
  queries h !! this = Some r_this →
  Forall (λ assoc, ∃ relation, _lookupRelation r_this assoc = inr relation)
    assocs →
  model_query h dup r_d mc m_d →
  ∃ q' h' r' m',
    joinAssociation_each this assocs dup through h = Ok q' h' ∧
    model_query h' q' r' mc m' ∧
    preserves h h' ∧
    (q' = dup ∨ length (queries h) ≤ q') ∧
    (∃ added, _joins r' = _joins r_d ++ added ∧
              length added = length assocs) ∧
    dom m' = dom m_d ∪ list_to_set assocs ∧
    (aliases_distinct mc m_d → aliases_distinct mc m').
Proof.
  intros Hthis Hall. revert h dup r_d m_d through Hthis.
  induction Hall as [|assoc assocs [relation Hrel] Hall IH];
    intros h dup r_d m_d through Hthis Hmq; cbn [joinAssociation_each].
  - exists dup, h, r_d, m_d. split; [done |]. split; [done |].
    split; [done |]. split; [by left |].
    split; [exists []; by rewrite app_nil_r |].
    split; [| done].
    cbn [list_to_set]. by rewrite (right_id_L ∅ (∪)).
  - destruct (model_query_joinRelation h dup r_d mc m_d assoc through relation
                Hmq) as (alias & Ha & Hj & Hmq1).
    set (h1 := joinRelation_heap dup r_d mc m_d assoc through relation
                 alias h) in *.
    assert (preserves h h1) as Hp1 by apply preserves_grown.
    assert (queries h1 !! this = Some r_this) as Hthis1.
    { destruct Hp1 as (Hq & _). by eapply prefix_lookup. }
    destruct (IH h1 _ _ _ (Some assoc) Hthis1 Hmq1)
      as (q' & h' & r' & m' & Hrun & Hmq' & Hp & Hpos &
          (added & Hj' & Hlen) & Hdom & Hdist).
    exists q', h', r', m'.
    split.
    { rewrite bind_eq. unfold get_query. rewrite Hthis.
      rewrite bind_eq, Hrel, ret_eq, bind_eq, Hj. exact Hrun. }
    split; [done |]. split; [by etrans |].
    split.
    { right. destruct Hpos as [->|Hpos]; [done |].
      destruct Hp1 as (Hq%prefix_length & _). lia. }
    split.
    { eexists (_ :: added). split.
      - rewrite Hj'. cbn [set_joins _joins]. by rewrite <- app_assoc.
      - cbn. by rewrite Hlen. }
    split.
    { rewrite Hdom, dom_insert_L. cbn [list_to_set].
      rewrite (comm_L (∪) {[assoc]} (dom m_d)).
      by rewrite <- (assoc_L (∪)). }
    intros Hd. apply Hdist. apply insert_aliases_distinct; [done |].
    by eapply join_alias_free.
Qed.

(** X16: [_joinAssociation] on a model query, for an association all of
    whose segments name a relation: it returns a model query on the
    same model that was not in the store; it has appended one join for
    each segment after the joins of the query; it records every
    segment; the names it records are distinct if those of the query
    were; and the query it was called on is as it was. *)
Theorem joinAssociation_joins_every_segment
    (h : Heap) (q : nat) (r : Query) (mc : ModelClass)
    (m : gmap string JoinDetails) (association : JsValue)
    (assocs : list string) :
  model_query h q r mc m →
  _associationForEach association = inr assocs →
  Forall (λ assoc, ∃ relation, _lookupRelation r assoc = inr relation)
    assocs →
  ∃ q' h' r' m',
    _joinAssociation q association h = Ok q' h' ∧
    model_query h' q' r' mc m' ∧
    length (queries h) ≤ q' ∧
    model_query h' q r mc m ∧
    (∃ added, _joins r' = _joins r ++ added ∧
              length added = length assocs) ∧
    dom m' = dom m ∪ list_to_set assocs ∧
    (aliases_distinct mc m → aliases_distinct mc m').
Proof.
  intros Hmq Hassocs Hall.
  destruct (model_query_dup h q r mc m Hmq) as [Hdup Hmqd].
  assert (preserves h (dup_heap q r h)) as Hp0 by apply preserves_grown.
  assert (queries (dup_heap q r h) !! q = Some r) as Hthis.
  { destruct Hmq as (Hr & _), Hp0 as (Hq & _). by eapply prefix_lookup. }
  destruct (joinAssociation_each_Ok _ q r assocs _ _ mc m None Hthis Hall Hmqd)
    as (q' & h' & r' & m' & Hrun & Hmq' & Hp & Hpos & (added & Hj & Hlen) &
        Hdom & Hdist).
  exists q', h', r', m'.
  split.
  { unfold _joinAssociation. by rewrite bind_eq, Hdup, Hassocs. }
  split; [done |].
  split.
  { destruct Hpos as [->|Hpos]; [done |].
    destruct Hp0 as (Hq%prefix_length & _). lia. }
  split.
  { eapply model_query_preserves; [| exact Hmq]. by etrans. }
  split; [| done].
  exists added. split; [| done].
  rewrite Hj. unfold dup_of. destruct Hmq as (_ & -> & _). done.
Qed.

(** The callback of [_joinAssociation] when a segment names no
    relation. *)
Lemma joinAssociation_each_Throw h this r_this known unknown rest e
    dup r_d mc m_d through :
  queries h !! this = Some r_this →
  Forall (λ assoc, ∃ relation, _lookupRelation r_this assoc = inr relation)
    known →
  _lookupRelation r_this unknown = inl e →
  model_query h dup r_d mc m_d →
  ∃ h', joinAssociation_each this (known ++ unknown :: rest) dup through h
          = Throw e h' ∧
        preserves h h' ∧
        length (queries h') = length (queries h) + length known.
Proof.
  intros Hthis Hall Hunknown. revert h dup r_d m_d through Hthis.
  induction Hall as [|assoc known [relation Hrel] Hall IH];
    intros h dup r_d m_d through Hthis Hmq;
    cbn [joinAssociation_each app].
  - exists h. split; [| split; [done | cbn; lia]].
    rewrite bind_eq. unfold get_query. rewrite Hthis.
    by rewrite bind_eq, Hunknown.
  - destruct (model_query_joinRelation h dup r_d mc m_d assoc through relation
                Hmq) as (alias & Ha & Hj & Hmq1).
    set (h1 := joinRelation_heap dup r_d mc m_d assoc through relation
                 alias h) in *.
    assert (preserves h h1) as Hp1 by apply preserves_grown.
    assert (queries h1 !! this = Some r_this) as Hthis1.
    { destruct Hp1 as (Hq & _). by eapply prefix_lookup. }
    destruct (IH h1 _ _ _ (Some assoc) Hthis1 Hmq1) as (h' & Hrun & Hp & Hlen).
    exists h'. split; [| split; [by etrans |]].
    + rewrite bind_eq. unfold get_query. rewrite Hthis.
      rewrite bind_eq, Hrel, ret_eq, bind_eq, Hj. exact Hrun.
    + rewrite Hlen. unfold h1, joinRelation_heap, grown. cbn [queries].
      rewrite length_app. cbn. lia.
Qed.

(** X17: An association with a segment that names no relation: the error of
    the lookup is thrown to the caller of [_joinAssociation]. The
    segments before it have been joined by then, one new query each on
    top of the copy made at the start, but the query it was called on
    is as it was. *)
Theorem joinAssociation_unknown_segment_throws
    (h : Heap) (q : nat) (r : Query) (mc : ModelClass)
    (m : gmap string JoinDetails) (association : JsValue)
    (known : list string) (unknown : string) (rest : list string)
    (e : Error) :
  model_query h q r mc m →
  _associationForEach association = inr (known ++ unknown :: rest) →
  Forall (λ assoc, ∃ relation, _lookupRelation r assoc = inr relation)
    known →
  _lookupRelation r unknown = inl e →
  ∃ h', _joinAssociation q association h = Throw e h' ∧
        model_query h' q r mc m ∧
        preserves h h' ∧
        length (queries h') = length (queries h) + 1 + length known.
Proof.
  intros Hmq Hassocs Hall Hunknown.
  destruct (model_query_dup h q r mc m Hmq) as [Hdup Hmqd].
  assert (preserves h (dup_heap q r h)) as Hp0 by apply preserves_grown.
  assert (queries (dup_heap q r h) !! q = Some r) as Hthis.
  { destruct Hmq as (Hr & _), Hp0 as (Hq & _). by eapply prefix_lookup. }
  destruct (joinAssociation_each_Throw _ q r known unknown rest e _ _ mc m
              None Hthis Hall Hunknown Hmqd) as (h' & Hrun & Hp & Hlen).
  exists h'. split.
  { unfold _joinAssociation. by rewrite bind_eq, Hdup, Hassocs. }
  assert (preserves h h') as Hp' by (by etrans).
  split; [by eapply model_query_preserves |]. split; [done |].
  rewrite Hlen. unfold dup_heap, grown. cbn [queries].
  rewrite length_app. cbn. lia.
Qed.

(** X18: An association of two segments: the second join builds on the
    first. The condition of the first join starts from the table of the
    class that has the relation; the condition of the second starts
    from the name under which the first was joined, alias or table
    name; and the two are joined under different names. *)
Theorem joinAssociation_builds_on_previous
    (h : Heap) (q : nat) (r : Query) (mc : ModelClass)
    (m : gmap string JoinDetails) (association : JsValue)
    (first second : string) (relation1 relation2 : Relation) :
  model_query h q r mc m →
  _associationForEach association = inr [first; second] →
  _lookupRelation r first = inr relation1 →
  _lookupRelation r second = inr relation2 →
  first ≠ "" →
  ∃ q' h' r' m' arg1 alias1 arg2 alias2,
    _joinAssociation q association h = Ok q' h' ∧
    model_query h' q' r' mc m' ∧
    _joins r' =
      _joins r ++
      [[arg1; VString "inner";
        VCondition (JoinCondition relation1
                      (tableName (modelClass relation1)) alias1)];
       [arg2; VString "inner";
        VCondition (JoinCondition relation2 alias1 alias2)]] ∧
    m' = <[second := {| as_ := alias2; relation := relation2 |}]>
           (<[first := {| as_ := alias1; relation := relation1 |}]> m) ∧
    alias1 ≠ alias2.
Proof.
  intros Hmq Hassocs Hrel1 Hrel2 Hne.
  destruct (model_query_dup h q r mc m Hmq) as [Hdup Hmqd].
  set (h0 := dup_heap q r h) in *.
  set (r0 := dup_of r (length (promises h)) (Some (length (objects h)))) in *.
  assert (preserves h h0) as Hp0 by apply preserves_grown.
  assert (queries h0 !! q = Some r) as Hthis0.
  { destruct Hmq as (Hr & _), Hp0 as (Hq & _). by eapply prefix_lookup. }
  destruct (model_query_joinRelation h0 _ r0 mc m first None relation1 Hmqd)
    as (alias1 & Ha1 & Hj1 & Hmq1).
  set (h1 := joinRelation_heap _ r0 mc m first None relation1 alias1 h0) in *.
  set (m1 := <[first := {| as_ := alias1; relation := relation1 |}]> m) in *.
  assert (preserves h0 h1) as Hp1 by apply preserves_grown.
  assert (queries h1 !! q = Some r) as Hthis1.
  { destruct Hp1 as (Hq & _). by eapply prefix_lookup. }
  destruct (model_query_joinRelation h1 _ _ mc m1 second (Some first)
              relation2 Hmq1) as (alias2 & Ha2 & Hj2 & Hmq2).
  eexists _, _, _, _, (join_argument mc m relation1 alias1), alias1,
    (join_argument mc m1 relation2 alias2), alias2.
  split.
  { unfold _joinAssociation. rewrite bind_eq, Hdup, Hassocs.
    cbn [joinAssociation_each].
    rewrite bind_eq. unfold get_query at 1. rewrite Hthis0.
    rewrite bind_eq, Hrel1, ret_eq, bind_eq, Hj1.
    rewrite bind_eq. unfold get_query at 1. fold h1. rewrite Hthis1.
    rewrite bind_eq, Hrel2, ret_eq, bind_eq, Hj2. reflexivity. }
  split; [exact Hmq2 |].
  split.
  { cbn [set_joins _joins]. rewrite <- app_assoc. cbn [app].
    unfold r0, dup_of. destruct Hmq as (_ & -> & _). cbn [_joins].
    unfold join_descriptor, through_table.
    rewrite truthy_Some_ne by done. cbn [truthy default from_option].
    unfold m1 at 2. by rewrite lookup_insert_eq. }
  split; [done |].
  intros <-. pose proof (join_alias_free _ _ _ _ Ha2) as Hfree.
  apply not_true_iff_false in Hfree. apply Hfree.
  apply in_query_spec. right.
  exists first, {| as_ := alias1; relation := relation1 |}.
  split; [apply lookup_insert_eq | done].
Qed.

End JoinAssociationFacts.

Lemma joinAssociation_joins_every_segment_witness :
  ∃ q' h' r' m',
    _joinAssociation Magazine._lookupRelation Blog._associationForEach 0
      (VString "author.employer") Blog.articles_heap = Ok q' h' ∧
    model_query h' q' r' Blog.Article m' ∧
    length (queries Blog.articles_heap) ≤ q' ∧
    model_query h' 0 Magazine.articles_query Blog.Article ∅ ∧
    (∃ added, _joins r' = _joins Magazine.articles_query ++ added ∧
              length added = length ["author"; "author.employer"]) ∧
    dom m' = dom (∅ : gmap string JoinDetails) ∪
             list_to_set ["author"; "author.employer"] ∧
    (aliases_distinct Blog.Article ∅ → aliases_distinct Blog.Article m').
Proof.
  apply (joinAssociation_joins_every_segment Magazine._lookupRelation
           Blog._associationForEach Blog.articles_heap 0
           Magazine.articles_query Blog.Article ∅
           (VString "author.employer") ["author"; "author.employer"]).
  - split_and!; reflexivity.
  - reflexivity.
  - repeat constructor; eexists; reflexivity.
Defined.

Lemma joinAssociation_unknown_segment_throws_witness :
  ∃ h', _joinAssociation Blog._lookupRelation Blog._associationForEach 0
          (VString "author.employer") Blog.articles_heap =
          Throw (JsError "no relation for the association") h' ∧
        model_query h' 0 Magazine.articles_query Blog.Article ∅ ∧
        preserves Blog.articles_heap h' ∧
        length (queries h') =
          length (queries Blog.articles_heap) + 1 + length ["author"].
Proof.
  apply (joinAssociation_unknown_segment_throws Blog._lookupRelation
           Blog._associationForEach Blog.articles_heap 0
           Magazine.articles_query Blog.Article ∅
           (VString "author.employer") ["author"] "author.employer" []
           (JsError "no relation for the association")).
  - split_and!; reflexivity.
  - reflexivity.
  - repeat constructor; eexists; reflexivity.
  - reflexivity.
Defined.

Lemma joinAssociation_builds_on_previous_witness :
  ∃ q' h' r' m' arg1 alias1 arg2 alias2,
    _joinAssociation Magazine._lookupRelation Blog._associationForEach 0
      (VString "author.employer") Blog.articles_heap = Ok q' h' ∧
    model_query h' q' r' Blog.Article m' ∧
    _joins r' =
      _joins Magazine.articles_query ++
      [[arg1; VString "inner";
        VCondition (JoinCondition Blog.author
                      (tableName (modelClass Blog.author)) alias1)];
       [arg2; VString "inner";
        VCondition (JoinCondition Magazine.employer alias1 alias2)]] ∧
    m' = <["author.employer" :=
             {| as_ := alias2; relation := Magazine.employer |}]>
           (<["author" := {| as_ := alias1; relation := Blog.author |}]> ∅) ∧
    alias1 ≠ alias2.
Proof.
  apply (joinAssociation_builds_on_previous Magazine._lookupRelation
           Blog._associationForEach Blog.articles_heap 0
           Magazine.articles_query Blog.Article ∅
           (VString "author.employer") "author" "author.employer"
           Blog.author Magazine.employer).
  - split_and!; reflexivity.
  - reflexivity.
  - reflexivity.
  - reflexivity.
  - discriminate.
Defined.

(** * [_spawn] *)

Section SpawnFacts.

Variable mixinInit : QueryClass → QueryClass → Query → Query.
Variable _create_super : list JsValue → Query → Query.

Local Abbreviation _spawn := (_spawn mixinInit _create_super).

(** X19: A query spawned as a model query starts without joined relations:
    whatever the query it is spawned from has joined, the new query
    gets an empty joined-relations object of its own, which was not in
    the store; the copy that [_take] made of the joined relations of a
    model query is left behind. The query it is spawned from is as it
    was, and it is told of the new query. *)
Theorem spawn_model_query_starts_without_joins
    (h : Heap) (q : nat) (args : list JsValue) :
  live h q →
  ∃ h' r' o',
    _spawn q ModelQuery args h = Ok (length (queries h)) h' ∧
    queries h' !! length (queries h) = Some r' ∧
    _joinedRelations r' = Some o' ∧
    length (objects h) ≤ o' ∧
    objects h' !! o' = Some ∅ ∧
    preserves h h' ∧
    emitted h' = emitted h ++ [(q, EvSpawn (length (queries h)))].
Proof.
  intros (r & Hq & Hobj & _).
  unfold _spawn. destruct h as [Q O P T C E]. cbn in Hq, Hobj. exec.
  set (b := mixinInit (__identity__ r) ModelQuery (blank ModelQuery)).
  destruct (__identity__ r) eqn:Hc; unfold _take.
  - unfold BaseQuery_take. exec. unfold _create. exec.
    eexists _, _, _. split; [reflexivity |]. heap_simpl.
    split; [apply lookup_snoc |]. split; [reflexivity |].
    split; [done |]. split; [apply lookup_snoc |]. split; [| done].
    unfold preserves. heap_simpl.
    split_and!; try done; by apply prefix_app_r.
  - unfold ModelQuery_take, BaseQuery_take, Join_take. exec.
    destruct (_joinedRelations r) as [o|] eqn:Ho; unfold _clone.
    + destruct (Hobj o eq_refl) as [m Hm]. exec. unfold _create. exec.
      eexists _, _, _. split; [reflexivity |]. heap_simpl.
      split; [apply lookup_snoc |]. split; [reflexivity |].
      split; [rewrite length_app; lia |]. split; [apply lookup_snoc |].
      split; [| done].
      unfold preserves. heap_simpl.
      split_and!; try done; try (by apply prefix_app_r).
      rewrite <- app_assoc. by apply prefix_app_r.
    + exec. unfold _create. exec.
      eexists _, _, _. split; [reflexivity |]. heap_simpl.
      split; [apply lookup_snoc |]. split; [reflexivity |].
      split; [done |]. split; [apply lookup_snoc |]. split; [| done].
      unfold preserves. heap_simpl.
      split_and!; try done; by apply prefix_app_r.
Qed.

(** X20: The [_take] that [_spawn] uses is that of the query it is called
    on, not that of the new class: a base query spawned from a model
    query carries a joined-relations object, a copy of that of the
    model query, though its class has no use for it. It has the adapter
    of the query it is spawned from, is not executed, and has a pending
    promise of its own. *)
Theorem spawn_base_query_keeps_joined_relations
    (h : Heap) (q : nat) (r : Query) (mc : ModelClass)
    (m : gmap string JoinDetails) (args : list JsValue) :
  model_query h q r mc m →
  ∃ h' r',
    _spawn q BaseQuery args h = Ok (length (queries h)) h' ∧
    queries h' !! length (queries h) = Some r' ∧
    _joinedRelations r' = Some (length (objects h)) ∧
    objects h' !! length (objects h) = Some m ∧
    _adapter r' = _adapter r ∧
    _executed r' = false ∧
    _promise r' = Some (length (promises h)) ∧
    promises h' !! length (promises h) = Some None ∧
    preserves h h'.
Proof.
  intros Hmq.
  destruct (model_query_objects _ _ _ _ _ Hmq) as (o & Hjr & Hobj).
  destruct Hmq as (Hq & Hc & Hmc & Hm).
  unfold _spawn. destruct h as [Q O P T C E]. cbn in Hq, Hobj. exec.
  rewrite Hc. unfold _take, ModelQuery_take, BaseQuery_take, Join_take.
  exec. rewrite Hjr. unfold _clone. exec. unfold _create. exec.
  eexists _, _. split; [reflexivity |]. heap_simpl.
  split; [apply lookup_snoc |].
  cbn [set_joinedRelations set_joins set_model set_promise set_executed
       set_adapter _joinedRelations _adapter _executed _promise].
  split; [done |]. split; [apply lookup_snoc |].
  split; [done |]. split; [done |]. split; [done |].
  split; [apply lookup_snoc |].
  unfold preserves. heap_simpl.
  split_and!; try done; by apply prefix_app_r.
Qed.

End SpawnFacts.

Lemma spawn_model_query_starts_without_joins_witness :
  ∃ h' r' o',
    _spawn Blog.mixinInit Blog._create_super 2 ModelQuery [] Blog.authored_heap
      = Ok (length (queries Blog.authored_heap)) h' ∧
    queries h' !! length (queries Blog.authored_heap) = Some r' ∧
    _joinedRelations r' = Some o' ∧
    length (objects Blog.authored_heap) ≤ o' ∧
    objects h' !! o' = Some ∅ ∧
    preserves Blog.authored_heap h' ∧
    emitted h' =
      emitted Blog.authored_heap ++
      [(2, EvSpawn (length (queries Blog.authored_heap)))].
Proof.
  apply (spawn_model_query_starts_without_joins Blog.mixinInit
           Blog._create_super Blog.authored_heap 2 []).
  exists Blog.authored_query.
  split; [vm_compute; reflexivity |].
  split.
  - intros o [= <-]. eexists. vm_compute. reflexivity.
  - intros p [= <-]. eexists. vm_compute. reflexivity.
Defined.

Lemma spawn_base_query_keeps_joined_relations_witness :
  ∃ h' r',
    _spawn Blog.mixinInit Blog._create_super 2 BaseQuery [] Blog.authored_heap
      = Ok (length (queries Blog.authored_heap)) h' ∧
    queries h' !! length (queries Blog.authored_heap) = Some r' ∧
    _joinedRelations r' = Some (length (objects Blog.authored_heap)) ∧
    objects h' !! length (objects Blog.authored_heap)
      = Some Blog.author_joined ∧
    _adapter r' = _adapter Blog.authored_query ∧
    _executed r' = false ∧
    _promise r' = Some (length (promises Blog.authored_heap)) ∧
    promises h' !! length (promises Blog.authored_heap) = Some None ∧
    preserves Blog.authored_heap h'.
Proof.
  apply (spawn_base_query_keeps_joined_relations Blog.mixinInit
           Blog._create_super Blog.authored_heap 2 Blog.authored_query
           Blog.Article Blog.author_joined []).
  split_and!; [vm_compute; reflexivity | reflexivity | reflexivity |
               vm_compute; reflexivity].
Defined.

(** * From [execute] to the settled promise *)

Section ExecuteDelivery.

Variable render : option ModelClass → list (list JsValue) → Error + Statement.

(** X21: The whole course of one execution. A query whose statement renders
    is executed for the first time, its chain runs, and the adapter
    answers: the caller was handed the promise of the query, which is
    now settled with the answer of the adapter, result or error; the
    adapter was called once, with the statement; the query has emitted
    [execute], then [rawResult] and [result] for a result, or [error]
    for an error, in this order; and a further answer for the same
    call changes nothing. *)
Theorem execute_delivers_adapter_answer
    (h : Heap) (q p : nat) (r : Query) (stmt : Statement) (s : Settlement) :
  queries h !! q = Some r →
  _executed r = false →
  _promise r = Some p →
  promises h !! p = Some None →
  __identity__ r = ModelQuery →
  render (_model r) (_joins r) = inr stmt →
  let i := length (tasks h) in
  let handed :=
    (run render [CallExecute q; RunChain i; AdapterSettles i s] h).1 in
  let h' :=
    (run render [CallExecute q; RunChain i; AdapterSettles i s] h).2 in
  handed = [(q, Follows p)] ∧
  observe h' (Follows p) = Some s ∧
  adapterCalls h' = adapterCalls h ++ [(q, stmt)] ∧
  emitted h' =
    emitted h ++ (q, EvExecute) ::
      match s with
      | Fulfilled res => [(q, EvRawResult res); (q, EvResult res)]
      | Rejected e => [(q, EvError e)]
      end ∧
  tasks h' = tasks h ++ [Finished] ∧
  (∀ s', adapter_settles i s' h' = h').
Proof.
  intros Hq He Hp Hpending Hc Hr i handed h'.
  unfold handed, h', i. clear handed h' i.
  cbn [run step].
  rewrite (execute_first render h q r stmt Hq He Hc Hr).
  unfold returned. rewrite Hp.
  destruct h as [Q O P T C E]. cbn in Hq, Hpending.
  unfold run_chain. heap_simpl. rewrite lookup_snoc, insert_snoc.
  unfold adapter_settles. heap_simpl. rewrite lookup_snoc, insert_snoc.
  unfold settle. heap_simpl. rewrite Hpending.
  cbn [fst snd from_option app]. heap_simpl.
  split; [done |].
  pose proof (lookup_lt_Some _ _ _ Hpending) as Hlt.
  split.
  { unfold observe. heap_simpl. by rewrite list_lookup_insert_eq. }
  split; [done |].
  split; [by destruct s; rewrite <- app_assoc |].
  split; [done |].
  intros s'. heap_simpl. by rewrite lookup_snoc.
Qed.

End ExecuteDelivery.

Lemma execute_delivers_adapter_answer_witness :
  let s := Rejected (JsError "connection lost") in
  let i := length (tasks Blog.articles_heap) in
  let handed :=
    (run Blog.render [CallExecute 0; RunChain i; AdapterSettles i s]
       Blog.articles_heap).1 in
  let h' :=
    (run Blog.render [CallExecute 0; RunChain i; AdapterSettles i s]
       Blog.articles_heap).2 in
  handed = [(0, Follows 0)] ∧
  observe h' (Follows 0) = Some s ∧
  adapterCalls h' =
    adapterCalls Blog.articles_heap ++
    [(0, {| sql := "SELECT * FROM articles"; args := [] |})] ∧
  emitted h' =
    emitted Blog.articles_heap ++ (0, EvExecute) ::
      match s with
      | Fulfilled res => [(0, EvRawResult res); (0, EvResult res)]
      | Rejected e => [(0, EvError e)]
      end ∧
  tasks h' = tasks Blog.articles_heap ++ [Finished] ∧
  (∀ s', adapter_settles i s' h' = h').
Proof.
  intros s.
  apply (execute_delivers_adapter_answer Blog.render Blog.articles_heap 0 0
           Magazine.articles_query
           {| sql := "SELECT * FROM articles"; args := [] |} s);
    reflexivity.
Defined.

(** * [RawQuery] *)

Lemma RawQuery_dup_Some this r h :
  rawQueries h !! this = Some r →
  RawQuery_dup this h =
    Some (length (rawQueries h),
          {| rawQueries := rawQueries h ++
               [{| raw_adapter := raw_adapter r; raw_sql := raw_sql r;
                   raw_args := raw_args r; raw_promise := None |}];
             arrays := arrays h |}).
Proof.
  intros Hr. unfold RawQuery_dup, RawQuery_create. rewrite Hr.
  cbn [mbind option_bind rawQueries arrays].
  rewrite lookup_snoc. cbn [mbind option_bind rawQueries arrays raw_adapter
    raw_sql raw_args raw_promise].
  by rewrite insert_snoc.
Qed.

Lemma raw_step_no_promise act h : no_promise h → no_promise (raw_step act h).
Proof.
  intros Hinv. destruct act as [adapter sql args|this|a i v|l];
    cbn [raw_step].
  - intros q r. unfold RawQuery_create. cbn [snd rawQueries].
    intros [Hq|[_ Hq]]%lookup_app_Some; [by eapply Hinv |].
    apply list_lookup_singleton_Some in Hq as [_ <-]. done.
  - destruct (rawQueries h !! this) as [r0|] eqn:H0.
    + rewrite (RawQuery_dup_Some this r0 h H0). cbn [from_option snd].
      intros q r. cbn [rawQueries].
      intros [Hq|[_ Hq]]%lookup_app_Some; [by eapply Hinv |].
      apply list_lookup_singleton_Some in Hq as [_ <-]. done.
    + unfold RawQuery_dup. rewrite H0. done.
  - unfold array_set. by destruct (arrays h !! a).
  - done.
Qed.

Lemma raw_run_no_promise acts h : no_promise h → no_promise (raw_run acts h).
Proof.
  revert h. induction acts as [|act acts IH]; intros h Hinv; [done |].
  cbn [raw_run foldl]. apply IH. by apply raw_step_no_promise.
Qed.

(** X22: In a program that makes raw queries with [create] and [_dup],
    nothing gives a raw query a promise: [execute] returns [undefined]
    and does not reach the adapter, and [then] throws a type error
    instead of returning a promise, on every raw query there is. *)
Theorem raw_query_then_throws
    (acts : list RawAction) (this : nat) (r : RawQuery) :
  let h := raw_run acts empty_raw_heap in
  rawQueries h !! this = Some r →
  RawQuery_execute this h = Some None ∧
  ∃ message, RawQuery_then this h = Some (inl (TypeError message)).
Proof.
  intros h Hr.
  assert (no_promise h) as Hinv.
  { apply raw_run_no_promise. intros q r0 Hq. done. }
  pose proof (Hinv this r Hr) as Hp.
  unfold RawQuery_then, RawQuery_execute. rewrite Hr.
  cbn [mbind option_bind]. rewrite Hp. split; [done |]. by eexists.
Qed.

Lemma raw_query_then_throws_witness :
  let acts := [RawNewArray ["1"]; RawCreate (Some 0) (Some "SELECT ?") (Some 0);
               RawDup 0] in
  let h := raw_run acts empty_raw_heap in
  RawQuery_execute 1 h = Some None ∧
  ∃ message, RawQuery_then 1 h = Some (inl (TypeError message)).
Proof.
  intros acts.
  apply (raw_query_then_throws acts 1
           {| raw_adapter := Some 0; raw_sql := Some "SELECT ?";
              raw_args := Some 0; raw_promise := None |}).
  reflexivity.
Defined.

(** X23: [_dup] on a raw query returns a new query with the adapter and the
    text of the query it was called on, which stays as it was. The
    arguments are not copied: both queries refer to one array, and an
    entry written into it afterwards shows in the statement of both. *)
Theorem raw_dup_shares_arguments
    (h : RawHeap) (this : nat) (r : RawQuery) (a i : nat) (v : string) :
  rawQueries h !! this = Some r →
  raw_args r = Some a →
  ∃ dup h' d,
    RawQuery_dup this h = Some (dup, h') ∧
    rawQueries h !! dup = None ∧
    rawQueries h' !! dup = Some d ∧
    raw_adapter d = raw_adapter r ∧
    rawQueries h' !! this = Some r ∧
    RawQuery_sql dup h' = RawQuery_sql this h ∧
    RawQuery_sql dup (array_set a i v h') =
      RawQuery_sql this (array_set a i v h') ∧
    RawQuery_sql this (array_set a i v h') =
      Some (raw_sql r, <[i := v]> <$> arrays h !! a).
Proof.
  intros Hr Ha.
  eexists _, _, _. split; [by apply RawQuery_dup_Some |].
  split; [by apply lookup_ge_None_2 |].
  cbn [rawQueries]. split; [apply lookup_snoc |].
  split; [done |].
  split; [by apply lookup_snoc_old |].
  pose proof (lookup_snoc_old _
                {| raw_adapter := raw_adapter r; raw_sql := raw_sql r;
                   raw_args := raw_args r; raw_promise := None |}
                _ _ Hr) as Hr'.
  split.
  { unfold RawQuery_sql. cbn [rawQueries arrays].
    by rewrite lookup_snoc, Hr. }
  unfold RawQuery_sql, array_set. cbn [rawQueries arrays].
  destruct (arrays h !! a) as [l|] eqn:Hl; cbn [rawQueries arrays];
    rewrite lookup_snoc, Hr';
    cbn [mbind option_bind raw_sql raw_args]; rewrite Ha;
    cbn [mbind option_bind fmap option_fmap option_map].
  - split; [done |].
    by rewrite list_lookup_insert_eq by (by eapply lookup_lt_Some).
  - by rewrite Hl.
Qed.

Lemma raw_dup_shares_arguments_witness :
  let h := raw_run [RawNewArray ["1"];
                    RawCreate (Some 0) (Some "SELECT ?") (Some 0)]
             empty_raw_heap in
  let r := {| raw_adapter := Some 0; raw_sql := Some "SELECT ?";
              raw_args := Some 0; raw_promise := None |} in
  ∃ dup h' d,
    RawQuery_dup 0 h = Some (dup, h') ∧
    rawQueries h !! dup = None ∧
    rawQueries h' !! dup = Some d ∧
    raw_adapter d = raw_adapter r ∧
    rawQueries h' !! 0 = Some r ∧
    RawQuery_sql dup h' = RawQuery_sql 0 h ∧
    RawQuery_sql dup (array_set 0 0 "2" h') =
      RawQuery_sql 0 (array_set 0 0 "2" h') ∧
    RawQuery_sql 0 (array_set 0 0 "2" h') =
      Some (raw_sql r, <[0 := "2"]> <$> arrays h !! 0).
Proof.
  intros h r.
  apply (raw_dup_shares_arguments h 0 r 0 0 "2"); reflexivity.
Defined.

(** * Names in use after a join *)

(** X15: [_joinRelation] and the names in use. Joining a segment that the
    query has not joined keeps every name in use and adds the new one.
    Joining a segment again replaces its entry: the name under which it
    was joined before is no longer in use in the query that comes back,
    though the join made under that name is still among its joins, and
    [_tableInQuery] answers [false] for it. *)
Theorem joinRelation_names_in_use
    (h : Heap) (q : nat) (r : Query) (mc : ModelClass)
    (m : gmap string JoinDetails) (name : string) (through : option string)
    (relation : Relation) :
  model_query h q r mc m →
  aliases_distinct mc m →
  ∃ q' h' r' alias,
    _joinRelation q name through relation h = Ok q' h' ∧
    queries h' !! q' = Some r' ∧
    _joins r `prefix_of` _joins r' ∧
    _tableInQuery q' alias h' = Ok true h' ∧
    (m !! name = None →
     ∀ t, _tableInQuery q t h = Ok true h →
          _tableInQuery q' t h' = Ok true h') ∧
    (∀ joinDetails, m !! name = Some joinDetails →
       _tableInQuery q (as_ joinDetails) h = Ok true h ∧
       _tableInQuery q' (as_ joinDetails) h' = Ok false h').
Proof.
  intros Hmq [Hinj Htable].
  destruct (model_query_joinRelation h q r mc m name through relation Hmq)
    as (alias & Ha & Hj & Hmq').
  set (h' := joinRelation_heap q r mc m name through relation alias h) in *.
  set (m' := <[name := {| as_ := alias; relation := relation |}]> m) in *.
  pose proof (join_alias_free _ _ _ _ Ha) as Hfree.
  assert (∀ t, _tableInQuery q t h = Ok (in_query mc m t) h) as Hin
    by (intros t; by eapply model_query_tableInQuery).
  assert (∀ t, _tableInQuery (length (queries h)) t h' =
               Ok (in_query mc m' t) h') as Hin'
    by (intros t; by eapply model_query_tableInQuery).
  eexists _, h', _, alias. split; [exact Hj |].
  split; [by destruct Hmq' as (? & _) |].
  split.
  { cbn [set_joins _joins]. by apply prefix_app_r. }
  split.
  { rewrite Hin'. f_equal. apply in_query_spec. right.
    exists name, {| as_ := alias; relation := relation |}.
    split; [apply lookup_insert_eq | done]. }
  split.
  - intros Hnew t. rewrite Hin, Hin'. intros [= Ht]. f_equal.
    apply in_query_spec in Ht as [->|(k & jd & Hk & <-)];
      apply in_query_spec; [by left | right].
    exists k, jd. split; [| done].
    unfold m'. rewrite lookup_insert_ne; [done |]. by intros ->; simplify_eq.
  - intros jd Hold. rewrite Hin, Hin'. split.
    + f_equal. apply in_query_spec. right. eauto.
    + f_equal. apply not_true_iff_false.
      intros [Ht|(k & jd' & Hk & Heq)]%in_query_spec.
      * by destruct (Htable _ _ Hold).
      * unfold m' in Hk. destruct (decide (k = name)) as [->|Hne].
        -- rewrite lookup_insert_eq in Hk. injection Hk as <-. cbn in Heq.
           subst alias. apply not_true_iff_false in Hfree. apply Hfree.
           apply in_query_spec. right. eauto.
        -- rewrite lookup_insert_ne in Hk by done.
           by destruct Hne; apply (Hinj k name jd' jd).
Qed.

Lemma joinRelation_names_in_use_witness :
  ∃ q' h' r' alias,
    _joinRelation 2 "author" None Blog.author Blog.authored_heap
      = Ok q' h' ∧
    queries h' !! q' = Some r' ∧
    _joins Blog.authored_query `prefix_of` _joins r' ∧
    _tableInQuery q' alias h' = Ok true h' ∧
    (Blog.author_joined !! "author" = None →
     ∀ t, _tableInQuery 2 t Blog.authored_heap = Ok true Blog.authored_heap →
          _tableInQuery q' t h' = Ok true h') ∧
    (∀ joinDetails, Blog.author_joined !! "author" = Some joinDetails →
       _tableInQuery 2 (as_ joinDetails) Blog.authored_heap
         = Ok true Blog.authored_heap ∧
       _tableInQuery q' (as_ joinDetails) h' = Ok false h').
Proof.
  apply (joinRelation_names_in_use Blog.authored_heap 2
           Blog.authored_query Blog.Article Blog.author_joined "author"
           None Blog.author).
  - split_and!; [vm_compute; reflexivity | reflexivity | reflexivity |
                 vm_compute; reflexivity].
  - unfold Blog.author_joined. split.
    + intros k1 k2 jd1 jd2 [<- _]%lookup_singleton_Some
        [<- _]%lookup_singleton_Some. done.
    + intros k jd [_ <-]%lookup_singleton_Some. discriminate.
Defined.

(** * What the operations on a query return *)

Lemma fresh_pending_grown this r' os ev h :
  _promise r' = Some (length (promises h)) →
  fresh_pending h (grown this r' os ev h) r'.
Proof.
  intros Hp. exists (length (promises h)). split; [done |].
  split; [by apply lookup_ge_None |]. unfold grown; cbn. apply lookup_snoc.
Qed.

(** The copy that [_dup] makes. *)
Lemma dup_of_takes this r h :
  (∀ o, _joinedRelations r = Some o → is_Some (objects h !! o)) →
  takes_from h (dup_heap this r h) r
    (dup_of r (length (promises h)) (clone_ref h r)) ∧
  (__identity__ r = ModelQuery →
   _joins (dup_of r (length (promises h)) (clone_ref h r)) = _joins r).
Proof.
  intros Hobj. split; [split_and! |].
  - unfold dup_of. by destruct (__identity__ r).
  - apply dup_of_executed.
  - apply fresh_pending_grown, dup_of_promise.
  - intros Hc. unfold dup_of. rewrite Hc. cbn [_model]. split; [done |].
    unfold joined, clone_ref, dup_heap, grown, clone_objects. rewrite Hc.
    cbn [_joinedRelations objects].
    destruct (_joinedRelations r) as [o|] eqn:Ho; [| done].
    destruct (Hobj o eq_refl) as [m Hm].
    unfold joined. rewrite Ho. cbn [mbind option_bind]. rewrite Hm.
    cbn [option_list]. apply lookup_snoc.
  - intros Hc. unfold dup_of. by rewrite Hc.
Qed.

(** The query that the superclass join returns. *)
Lemma Join_join_takes h this r arguments :
  queries h !! this = Some r →
  (∀ o, _joinedRelations r = Some o → is_Some (objects h !! o)) →
  ∃ h' r',
    Join_join this arguments h = Ok (length (queries h)) h' ∧
    queries h' !! length (queries h) = Some r' ∧
    __identity__ r' = __identity__ r ∧
    takes_from h h' r r' ∧
    (__identity__ r = ModelQuery → _joins r' = _joins r ++ [arguments]).
Proof.
  intros Hq Hobj.
  destruct (dup_of_takes this r h Hobj)
    as [(Had & Hex & _ & Hmodel) Hjoins].
  destruct (Join_join_cases h this arguments r Hq)
    as [[-> _]|(e & h' & Hthrow & _)].
  - eexists _, _. split; [reflexivity |].
    split; [unfold grown; cbn; apply lookup_snoc |].
    split; [apply dup_of_identity |].
    split; [split_and! |].
    + done.
    + done.
    + apply fresh_pending_grown. cbn [set_joins _promise].
      apply dup_of_promise.
    + intros Hc. destruct (Hmodel Hc) as [Hm Hj]. split; [done |].
      unfold joined in *. cbn [set_joins _joinedRelations].
      unfold dup_heap, grown in Hj. unfold grown.
      cbn [objects] in *. exact Hj.
    + intros Hc. cbn [set_joins _joins]. by rewrite (Hjoins Hc).
  - unfold Join_join in Hthrow. rewrite bind_eq, (dup_Ok h this r Hq Hobj) in Hthrow.
    destruct h as [Q O P T C E]. unfold dup_heap, grown in Hthrow.
    revert Hthrow. exec. done.
Qed.

Section CopyFacts.

Variable mixinInit : QueryClass → QueryClass → Query → Query.
Variable _create_super : list JsValue → Query → Query.
Variable _lookupRelation : Query → string → Error + Relation.
Variable _associationForEach : JsValue → Error + list string.

(** The query that [_spawn] returns: what [_take] has taken from the
    query it is called on, and then what [_create] of the new class
    makes of it. *)
Lemma spawn_takes h this r type arguments :
  queries h !! this = Some r →
  (∀ o, _joinedRelations r = Some o → is_Some (objects h !! o)) →
  ∃ h' r' t,
    _spawn mixinInit _create_super this type arguments h =
      Ok (length (queries h)) h' ∧
    queries h' !! length (queries h) = Some r' ∧
    match type with
    | BaseQuery => r' = t
    | ModelQuery =>
        ∃ o', r' = set_joinedRelations (Some o') (_create_super arguments t) ∧
              objects h' !! o' = Some ∅
    end ∧
    takes_from h h' r t ∧
    (__identity__ r = ModelQuery → _joins t = _joins r).
Proof.
  intros Hq Hobj.
  unfold _spawn. destruct h as [Q O P T C E]. cbn in Hq, Hobj. exec.
  set (b := mixinInit (__identity__ r) type (blank type)).
  unfold takes_from, fresh_pending, joined.
  assert (P !! length P = None) as HP by (by apply lookup_ge_None).
  destruct (__identity__ r) eqn:Hc; unfold _take.
  - unfold BaseQuery_take. exec.
    destruct type; unfold _create; exec;
      (eexists _, _, _; split; [reflexivity |]; heap_simpl;
       split; [apply lookup_snoc |]).
    + split; [reflexivity |]. split; [| done].
      split_and!; [done | done | | done].
      eexists. split; [reflexivity |]. split; [done | apply lookup_snoc].
    + split; [eexists; split; [reflexivity | apply lookup_snoc] |].
      split; [| done].
      split_and!; [done | done | | done].
      eexists. split; [reflexivity |]. split; [done | apply lookup_snoc].
  - unfold ModelQuery_take, BaseQuery_take, Join_take. exec.
    destruct (_joinedRelations r) as [o|] eqn:Ho; unfold _clone.
    + destruct (Hobj o eq_refl) as [m Hm]. exec.
      destruct type; unfold _create; exec;
        (eexists _, _, _; split; [reflexivity |]; heap_simpl;
         split; [apply lookup_snoc |]).
      * split; [reflexivity |]. split; [| done].
        split_and!; [done | done | |].
        -- eexists. split; [reflexivity |]. split; [done | apply lookup_snoc].
        -- intros _. split; [done |]. cbn. rewrite Hm. apply lookup_snoc.
      * split; [eexists; split; [reflexivity | apply lookup_snoc] |].
        split; [| done].
        split_and!; [done | done | |].
        -- eexists. split; [reflexivity |]. split; [done | apply lookup_snoc].
        -- intros _. split; [done |]. cbn. rewrite Hm.
           apply lookup_app_l_Some, lookup_snoc.
    + exec. destruct type; unfold _create; exec;
        (eexists _, _, _; split; [reflexivity |]; heap_simpl;
         split; [apply lookup_snoc |]).
      * split; [reflexivity |]. split; [| done].
        split_and!; [done | done | |].
        -- eexists. split; [reflexivity |]. split; [done | apply lookup_snoc].
        -- intros _. split; [done |]. by cbn.
      * split; [eexists; split; [reflexivity | apply lookup_snoc] |].
        split; [| done].
        split_and!; [done | done | |].
        -- eexists. split; [reflexivity |]. split; [done | apply lookup_snoc].
        -- intros _. split; [done |]. by cbn.
Qed.

(** What the callback of [_joinAssociation] keeps of the copy it
    started from. *)
Lemma joinAssociation_each_copy h this r_this assocs dup r_d mc m_d through
    (N : nat) q' h' r' m' :
  queries h !! this = Some r_this →
  Forall (λ assoc, ∃ relation, _lookupRelation r_this assoc = inr relation)
    assocs →
  model_query h dup r_d mc m_d →
  joinAssociation_each _lookupRelation this assocs dup through h = Ok q' h' →
  model_query h' q' r' mc m' →
  _adapter r' = _adapter r_d ∧
  (_executed r_d = false → _executed r' = false) ∧
  ((∃ p, _promise r_d = Some p ∧ promises h !! p = Some None ∧ N ≤ p) →
   ∃ p, _promise r' = Some p ∧ promises h' !! p = Some None ∧ N ≤ p) ∧
  (∀ key, key ∉ assocs → m' !! key = m_d !! key).
Proof.
  intros Hthis Hall. revert h dup r_d m_d through Hthis.
  induction Hall as [|assoc assocs [relation Hrel] Hall IH];
    intros h dup r_d m_d through Hthis Hmq; cbn [joinAssociation_each].
  - intros [= <- <-] Hmq'.
    destruct Hmq as (Hq & _ & _ & Hm), Hmq' as (Hq' & _ & _ & Hm').
    assert (r' = r_d) as -> by congruence.
    assert (m' = m_d) as -> by congruence. done.
  - destruct (model_query_joinRelation h dup r_d mc m_d assoc through relation
                Hmq) as (alias & Ha & Hj & Hmq1).
    set (h1 := joinRelation_heap dup r_d mc m_d assoc through relation
                 alias h) in *.
    assert (preserves h h1) as Hp1 by apply preserves_grown.
    assert (queries h1 !! this = Some r_this) as Hthis1.
    { destruct Hp1 as (Hq & _). by eapply prefix_lookup. }
    rewrite bind_eq. unfold get_query. rewrite Hthis.
    rewrite bind_eq, Hrel, ret_eq, bind_eq, Hj.
    intros Hrun Hmq'.
    destruct (IH h1 _ _ _ (Some assoc) Hthis1 Hmq1 Hrun Hmq')
      as (Had & Hex & Hpr & Hent).
    assert (__identity__ r_d = ModelQuery) as Hc by (by destruct Hmq as (_ & ? & _)).
    split_and!.
    + rewrite Had. unfold dup_of. by rewrite Hc.
    + intros _. apply Hex. unfold dup_of. by rewrite Hc.
    + intros (p & Hp & Hpend & HN). apply Hpr.
      exists (length (promises h)).
      split; [unfold dup_of; by rewrite Hc |].
      split; [unfold h1, joinRelation_heap, grown; cbn; apply lookup_snoc |].
      apply lookup_lt_Some in Hpend. lia.
    + intros key Hkey. apply not_elem_of_cons in Hkey as [Hne Hkey].
      rewrite (Hent key Hkey). by apply lookup_insert_ne.
Qed.

End CopyFacts.

(** * Immutability of queries: the theorem *)

Section ImmutabilityTheorem.

Variable render : option ModelClass → list (list JsValue) → Error + Statement.
Variable mixinInit : QueryClass → QueryClass → Query → Query.
Variable _create_super : list JsValue → Query → Query.
Variable _lookupRelation : Query → string → Error + Relation.
Variable _associationForEach : JsValue → Error + list string.

(** [_joinAssociation] on a model query whose segments all name a
    relation: what comes back has taken from the query its adapter, its
    model, its joins and the entries of its joined-relations object. *)
Lemma joinAssociation_takes h q r mc m association assocs :
  model_query h q r mc m →
  _associationForEach association = inr assocs →
  Forall (λ assoc, ∃ relation, _lookupRelation r assoc = inr relation)
    assocs →
  ∃ q' h' r' m',
    _joinAssociation _lookupRelation _associationForEach q association h
      = Ok q' h' ∧
    model_query h' q' r' mc m' ∧
    _adapter r' = _adapter r ∧
    _executed r' = false ∧
    fresh_pending h h' r' ∧
    (∃ added, _joins r' = _joins r ++ added ∧
              length added = length assocs) ∧
    (∀ key, key ∉ assocs → m' !! key = m !! key) ∧
    (∀ assoc, assoc ∈ assocs → is_Some (m' !! assoc)).
Proof.
  intros Hmq Hassocs Hall.
  destruct (model_query_dup h q r mc m Hmq) as [Hdup Hmqd].
  set (h0 := dup_heap q r h) in *.
  set (r0 := dup_of r (length (promises h)) (Some (length (objects h)))) in *.
  assert (preserves h h0) as Hp0 by apply preserves_grown.
  assert (queries h0 !! q = Some r) as Hthis.
  { destruct Hmq as (Hr & _), Hp0 as (Hq & _). by eapply prefix_lookup. }
  assert (__identity__ r = ModelQuery) as Hc
    by (by destruct Hmq as (_ & ? & _)).
  destruct (joinAssociation_each_Ok _lookupRelation h0 q r assocs _ r0 mc m
              None Hthis Hall Hmqd)
    as (q' & h' & r' & m' & Hrun & Hmq' & Hp & Hpos & Hjoins & Hdom & _).
  destruct (joinAssociation_each_copy _lookupRelation h0 q r assocs _ r0 mc m
              None (length (promises h)) q' h' r' m'
              Hthis Hall Hmqd Hrun Hmq')
    as (Had & Hex & Hpr & Hent).
  exists q', h', r', m'.
  split.
  { unfold _joinAssociation. by rewrite bind_eq, Hdup, Hassocs. }
  split; [done |].
  split; [rewrite Had; unfold r0, dup_of; by rewrite Hc |].
  split; [apply Hex; unfold r0, dup_of; by rewrite Hc |].
  split.
  { destruct Hpr as (p & Hp' & Hpend & HN).
    - exists (length (promises h)).
      split; [unfold r0, dup_of; by rewrite Hc |].
      split; [unfold h0, dup_heap, grown; cbn; apply lookup_snoc | done].
    - exists p. split; [done |]. split; [by apply lookup_ge_None | done]. }
  split.
  { destruct Hjoins as (added & Hj & Hlen). exists added. split; [| done].
    rewrite Hj. unfold r0, dup_of. by rewrite Hc. }
  split; [done |].
  intros assoc Hin. apply elem_of_dom. rewrite Hdom.
  apply elem_of_union. right. by apply elem_of_list_to_set.
Qed.

(** C1: every chaining or duplication operation ([join],
    [_joinAssociation], [clone], [_dup], [_spawn]) on a query [q] of the
    store ends; however it ends, every query, object and promise of the
    store is as it was, so the state of [q] and its statement are
    unchanged; what it returns is a query that was not in the store,
    whose joined-relations object is not the one of [q] and was not in
    the store, and a write into that object leaves the state of [q] as
    it is. [clone], [_dup], [_spawn] and the superclass [join] return
    for every query; [_joinAssociation], and [join] with one argument,
    return when the segments of the association name relations of a
    model query. What is returned has taken from [q] its adapter and,
    for a model query, its model, its joins, extended by the joins that
    were asked for, and the entries of its joined-relations object; it
    is not executed and has a new, pending promise. A query spawned as a
    model query is this copy after [_create], which gives it a new,
    empty joined-relations object. *)
Theorem chaining_leaves_query_unchanged (op : ChainOp) (h : Heap) (q : nat) :
  (∀ current type,
     _joinedRelations (mixinInit current type (blank type)) = None) →
  live h q →
  let o :=
    run_op mixinInit _create_super _lookupRelation _associationForEach
      op q h in
  o ≠ Diverge ∧
  (∀ h', final_heap o = Some h' →
     preserves h h' ∧
     state_of h' q = state_of h q ∧
     result (statement render q h') = result (statement render q h)) ∧
  (∀ q' h', o = Ok q' h' →
     q' ≠ q ∧ queries h !! q' = None ∧
     ∀ r r' o', queries h !! q = Some r → queries h' !! q' = Some r' →
       _joinedRelations r' = Some o' →
       _joinedRelations r ≠ Some o' ∧ objects h !! o' = None ∧
       ∀ key v h'', object_set o' key v h' = Ok () h'' →
                    state_of h'' q = state_of h q) ∧
  (∀ r, queries h !! q = Some r →
     match op with
     | OpClone | OpDup =>
         ∃ q' h' r',
           o = Ok q' h' ∧ queries h' !! q' = Some r' ∧
           __identity__ r' = __identity__ r ∧
           takes_from h h' r r' ∧
           (__identity__ r = ModelQuery → _joins r' = _joins r)
     | OpSpawn type arguments =>
         ∃ q' h' r' t,
           o = Ok q' h' ∧ queries h' !! q' = Some r' ∧
           match type with
           | BaseQuery => r' = t
           | ModelQuery =>
               ∃ o', r' = set_joinedRelations (Some o')
                            (_create_super arguments t) ∧
                     objects h' !! o' = Some ∅
           end ∧
           takes_from h h' r t ∧
           (__identity__ r = ModelQuery → _joins t = _joins r)
     | OpJoin [association] | OpJoinAssociation association =>
         ∀ mc m assocs,
           model_query h q r mc m →
           _associationForEach association = inr assocs →
           Forall (λ assoc, ∃ relation,
                     _lookupRelation r assoc = inr relation) assocs →
           ∃ q' h' r' m',
             o = Ok q' h' ∧
             model_query h' q' r' mc m' ∧
             _adapter r' = _adapter r ∧
             _executed r' = false ∧
             fresh_pending h h' r' ∧
             (∃ added, _joins r' = _joins r ++ added ∧
                       length added = length assocs) ∧
             (∀ key, key ∉ assocs → m' !! key = m !! key) ∧
             (∀ assoc, assoc ∈ assocs → is_Some (m' !! assoc))
     | OpJoin arguments =>
         ∃ q' h' r',
           o = Ok q' h' ∧ queries h' !! q' = Some r' ∧
           __identity__ r' = __identity__ r ∧
           takes_from h h' r r' ∧
           (__identity__ r = ModelQuery →
            _joins r' = _joins r ++ [arguments])
     end).
Proof.
  intros Hinit Hl o.
  pose proof (run_op_derives mixinInit _create_super _lookupRelation
                _associationForEach Hinit op h q) as Hd.
  fold o in Hd. split; [by destruct o |]. split; [| split].
  - intros h' Hh'.
    assert (preserves h h') as Hp.
    { destruct o as [q' h1|e h1|]; cbn in Hh', Hd; [|congruence|done].
      destruct Hd as [Hp _]. congruence. }
    split; [done |]. split; [by apply preserves_state_of |].
    apply statement_same_query.
    destruct Hl as (r & Hr & _). destruct Hp as (Hq & _).
    by rewrite Hr, (prefix_lookup _ _ _ _ Hq Hr).
  - intros q' h' Ho. rewrite Ho in Hd. destruct Hd as (Hp & Hq' & Hfresh).
    pose proof (live_lt _ _ Hl) as Hlt.
    split; [lia |]. split; [by apply lookup_ge_None |].
    intros r r' o' Hr Hr' Ho'. specialize (Hfresh r' o' Hr' Ho').
    split; [|split; [by apply lookup_ge_None |]].
    + intros Hsame. destruct Hl as (r0 & Hr0 & Hobj & _).
      assert (r0 = r) as -> by congruence.
      destruct (Hobj o' Hsame) as [m Hm]. apply lookup_lt_Some in Hm. lia.
    + intros key v h'' Hset. by eapply object_set_new.
  - intros r Hr.
    assert (∀ o, _joinedRelations r = Some o → is_Some (objects h !! o))
      as Hobj.
    { destruct Hl as (r0 & Hr0 & Hobj & _).
      by assert (r0 = r) as -> by congruence. }
    assert (∃ q' h' r',
              _dup q h = Ok q' h' ∧ queries h' !! q' = Some r' ∧
              __identity__ r' = __identity__ r ∧
              takes_from h h' r r' ∧
              (__identity__ r = ModelQuery → _joins r' = _joins r)) as Hdup.
    { destruct (dup_of_takes q r h Hobj) as [Htakes Hjoins].
      eexists _, _, _. split; [by apply dup_Ok |].
      split; [apply dup_heap_lookup |].
      split; [apply dup_of_identity | done]. }
    assert (∀ arguments,
              ∃ q' h' r',
                Join_join q arguments h = Ok q' h' ∧
                queries h' !! q' = Some r' ∧
                __identity__ r' = __identity__ r ∧
                takes_from h h' r r' ∧
                (__identity__ r = ModelQuery →
                 _joins r' = _joins r ++ [arguments])) as Hjoin.
    { intros arguments.
      destruct (Join_join_takes h q r arguments Hr Hobj)
        as (h' & r' & ? & ? & ? & ? & ?).
      by exists (length (queries h)), h', r'. }
    unfold o. destruct op as [arguments|association| | |type arguments];
      cbn [run_op].
    + destruct arguments as [|association [|b rest]]; cbn [join].
      * apply Hjoin.
      * intros mc m assocs. by apply joinAssociation_takes.
      * apply Hjoin.
    + intros mc m assocs. by apply joinAssociation_takes.
    + exact Hdup.
    + exact Hdup.
    + destruct (spawn_takes mixinInit _create_super h q r type arguments
                  Hr Hobj) as (h' & r' & t & ? & ? & ? & ? & ?).
      by exists (length (queries h)), h', r', t.
Qed.

End ImmutabilityTheorem.

(** The articles query of the example is live, and joining its author
    leaves it as it was. *)
Lemma chaining_leaves_query_unchanged_witness :
  let h := Blog.articles_heap in
  let o :=
    run_op Blog.mixinInit Blog._create_super Blog._lookupRelation
      Blog._associationForEach (OpJoin [VString "author"]) 0 h in
  o ≠ Diverge ∧
  (∀ h', final_heap o = Some h' →
     preserves h h' ∧
     state_of h' 0 = state_of h 0 ∧
     result (statement Blog.render 0 h') =
       result (statement Blog.render 0 h)) ∧
  (∀ q' h', o = Ok q' h' →
     q' ≠ 0 ∧ queries h !! q' = None ∧
     ∀ r r' o', queries h !! 0 = Some r →
       queries h' !! q' = Some r' →
       _joinedRelations r' = Some o' →
       _joinedRelations r ≠ Some o' ∧
       objects h !! o' = None ∧
       ∀ key v h'', object_set o' key v h' = Ok () h'' →
                    state_of h'' 0 = state_of h 0) ∧
  (∀ r, queries h !! 0 = Some r →
     ∀ mc m assocs,
       model_query h 0 r mc m →
       Blog._associationForEach (VString "author") = inr assocs →
       Forall (λ assoc, ∃ relation,
                 Blog._lookupRelation r assoc = inr relation) assocs →
       ∃ q' h' r' m',
         o = Ok q' h' ∧
         model_query h' q' r' mc m' ∧
         _adapter r' = _adapter r ∧
         _executed r' = false ∧
         fresh_pending h h' r' ∧
         (∃ added, _joins r' = _joins r ++ added ∧
                   length added = length assocs) ∧
         (∀ key, key ∉ assocs → m' !! key = m !! key) ∧
         (∀ assoc, assoc ∈ assocs → is_Some (m' !! assoc))).
Proof.
  intros h.
  apply (chaining_leaves_query_unchanged Blog.render Blog.mixinInit
           Blog._create_super Blog._lookupRelation Blog._associationForEach
           (OpJoin [VString "author"]) Blog.articles_heap 0).
  - reflexivity.
  - eexists. split; [reflexivity |]. split.
    + intros o [= <-]. eexists. reflexivity.
    + intros p [= <-]. eexists. reflexivity.
Defined.
